(** * Graph construction in mjolnir: a shallow embedding of graphbuilder.cc

    The development follows src/mjolnir/graphbuilder.cc: the [Edge] and
    [Node] records, [collect_node_edges], [GetBestNonLinkClass],
    [SortGraph], [ConstructEdges], [ReclassifyLinks], the thread set-up of
    [BuildLocalTiles] and [GraphBuilder::Build], and [GraphBuilder::GetRef].

    Conventions.
    - [uint32_t] values are integers in [Z]; a conversion to [uint32_t] is
      [u32], a store into an n-bit bit-field is [bits n].
    - [size_t] values (positions in a sequence, sizes) are [nat].
    - A [sequence<T>] is a [list T]; [s !! i] reads position [i], and a read
      or write outside the sequence makes the embedded function return
      [None].  *)

From Stdlib Require Import ZArith List Bool Lia String Ascii.
From stdpp Require Import base option list.

Open Scope Z_scope.

(** ** Machine integers *)

Definition bits (n : Z) (v : Z) : Z := v mod 2 ^ n.
Definition u32 (v : Z) : Z := bits 32 v.

(** [static_cast<uint32_t>(-1)], the "not a start / not an end" mark. *)
Definition no_edge : Z := u32 (-1).

(** Absurd classification. *)
Definition kAbsurdRoadClass : Z := 777777.

(** ** Sequences *)

Module Seq.
(** Modelled from the spec: [sequence<T>] (mjolnir/util.h is not part of
    the sources) is a file-backed array with [push_back], [size], random
    indexed read and write; positions are stable under everything but
    [sort]. *)
Definition at_ {A} (s : list A) (i : nat) : option A := s !! i.

Definition set {A} (s : list A) (i : nat) (v : A) : option (list A) :=
  if decide (i < length s)%nat then Some (<[i := v]> s) else None.

Definition push_back {A} (s : list A) (v : A) : list A := s ++ [v].
End Seq.

(** ** Records *)

(** Modelled from the spec: [OSMNode] (mjolnir/osmnode.h is not part of the
    sources); the fields are the ones graphbuilder.cc reads or writes.  The
    coordinates are only ever passed to the graph-id predicate, which is a
    parameter here. *)
Record OSMNode := mkOSMNode {
  osmid : Z;
  intersection : bool;
  traffic_signal : bool;
  forward_signal : bool;
  backward_signal : bool;
  link_edge : bool;
  non_link_edge : bool
}.

(** Modelled from the spec: [OSMWay] (mjolnir/osmway.h is not part of the
    sources). *)
Record OSMWay := mkOSMWay {
  way_id : Z;
  road_class : Z;
  auto_forward : bool;
  auto_backward : bool;
  link : bool;
  node_count : nat
}.

Record OSMWayNode := mkOSMWayNode {
  wn_node : OSMNode;
  way_index : nat
}.

(** Modelled from the spec: [GraphId] (baldr/graphid.h is not part of the
    sources) is a tile identifier together with a tile-local index; tiles
    order first, the index second. *)
Record GraphId := mkGraphId {
  tile : Z;
  id : Z
}.

Record EdgeAttributes := mkEdgeAttributes {
  llcount : Z;            (* 16 bits *)
  importance : Z;         (* 3 bits *)
  driveableforward : bool;
  driveablereverse : bool;
  e_traffic_signal : bool;
  e_forward_signal : bool;
  e_backward_signal : bool;
  e_link : bool
}.

Record Edge := mkEdge {
  sourcenode_ : Z;
  wayindex_ : Z;
  llindex_ : Z;
  attributes : EdgeAttributes;
  targetnode_ : Z
}.

Record Node := mkNode {
  node : OSMNode;
  start_of : Z;
  end_of : Z;
  graph_id : GraphId
}.

Definition is_start (n : Node) : bool := negb (start_of n =? no_edge).
Definition is_end (n : Node) : bool := negb (end_of n =? no_edge).

(** Field updates, written as the assignments of the source. *)

Definition set_llcount (a : EdgeAttributes) (v : Z) : EdgeAttributes :=
  mkEdgeAttributes (bits 16 v) (importance a) (driveableforward a)
    (driveablereverse a) (e_traffic_signal a) (e_forward_signal a)
    (e_backward_signal a) (e_link a).

Definition set_importance (a : EdgeAttributes) (v : Z) : EdgeAttributes :=
  mkEdgeAttributes (llcount a) (bits 3 v) (driveableforward a)
    (driveablereverse a) (e_traffic_signal a) (e_forward_signal a)
    (e_backward_signal a) (e_link a).

Definition set_signals (a : EdgeAttributes) (fwd bwd : bool) : EdgeAttributes :=
  mkEdgeAttributes (llcount a) (importance a) (driveableforward a)
    (driveablereverse a) true fwd bwd (e_link a).

Definition with_attributes (e : Edge) (a : EdgeAttributes) : Edge :=
  mkEdge (sourcenode_ e) (wayindex_ e) (llindex_ e) a (targetnode_ e).

Definition with_source (e : Edge) (v : Z) : Edge :=
  mkEdge (u32 v) (wayindex_ e) (llindex_ e) (attributes e) (targetnode_ e).

Definition with_target (e : Edge) (v : Z) : Edge :=
  mkEdge (sourcenode_ e) (wayindex_ e) (llindex_ e) (attributes e) (u32 v).

Definition with_link_flags (n : OSMNode) (l nl : bool) : OSMNode :=
  mkOSMNode (osmid n) (intersection n) (traffic_signal n) (forward_signal n)
    (backward_signal n) l nl.

Definition with_link_edge (n : OSMNode) (l : bool) : OSMNode :=
  with_link_flags n l (non_link_edge n).

Definition with_node (n : Node) (o : OSMNode) : Node :=
  mkNode o (start_of n) (end_of n) (graph_id n).

Definition with_start_of (n : Node) (v : Z) : Node :=
  mkNode (node n) (u32 v) (end_of n) (graph_id n).

Definition with_id (n : Node) (v : Z) : Node :=
  mkNode (node n) (start_of n) (end_of n) (mkGraphId (tile (graph_id n)) v).

(** [Edge::make_edge]: the aggregate initialisation zeroes the attributes
    and the target node. *)
Definition make_edge (sourcenode wayindex llindex : Z) (way : OSMWay) : Edge :=
  mkEdge (u32 sourcenode) (u32 wayindex) (u32 llindex)
    (mkEdgeAttributes 1 (bits 3 (road_class way)) (auto_forward way)
       (auto_backward way) false false false (link way))
    0.

(** ** collect_node_edges *)

Record node_bundle := mkBundle {
  b_node : Node;
  b_node_count : nat;
  b_edges : list (Edge * nat)
}.

(** The edge a node points at through [start_of] or [end_of], with its
    position. *)
Definition edge_ref (edges : list Edge) (i : Z) : option (Edge * nat) :=
  e ← Seq.at_ edges (Z.to_nat i); Some (e, Z.to_nat i).

(** The body of the loop for one duplicate. *)
Definition collect_one (edges : list Edge) (n : Node)
    (acc : list (Edge * nat)) : option (list (Edge * nat)) :=
  acc1 ← (if is_start n
          then p ← edge_ref edges (start_of n); Some (acc ++ [p])
          else Some acc);
  if is_end n
  then p ← edge_ref edges (end_of n); Some (acc1 ++ [p])
  else Some acc1.

(** The loop [for(++itr; itr != nodes.end() && ... osmid == ...; ++itr)],
    run over the records after the first; the result is the edge list and
    the number of records the loop went through. *)
Fixpoint collect_loop (rest : list Node) (osm : Z) (edges : list Edge)
    (acc : list (Edge * nat)) (steps : nat) : option (list (Edge * nat) * nat) :=
  match rest with
  | [] => Some (acc, steps)
  | n :: rest' =>
      if osmid (node n) =? osm
      then acc' ← collect_one edges n acc;
           collect_loop rest' osm edges acc' (S steps)
      else Some (acc, steps)
  end.

(** The iterator is passed by const reference: the caller's position is
    left as it is, and the caller adds [b_node_count] itself. *)
Definition collect_node_edges (node_itr : nat) (nodes : list Node)
    (edges : list Edge) : option node_bundle :=
  first ← Seq.at_ nodes node_itr;
  '(es, steps) ← collect_loop (drop (S node_itr) nodes) (osmid (node first)) edges [] 0%nat;
  Some (mkBundle first (S steps) es).

(** ** GetBestNonLinkClass *)

Definition best_step (bestrc : Z) (edge : Edge * nat) : Z :=
  if negb (e_link (attributes edge.1))
  then if importance (attributes edge.1) <? bestrc
       then importance (attributes edge.1) else bestrc
  else bestrc.

Definition GetBestNonLinkClass (edges : list (Edge * nat)) : Z :=
  fold_left best_step edges kAbsurdRoadClass.

(** ** SortGraph *)

Definition GraphId_eqb (a b : GraphId) : bool :=
  (tile a =? tile b) && (id a =? id b).

Definition GraphId_ltb (a b : GraphId) : bool :=
  (tile a <? tile b) || ((tile a =? tile b) && (id a <? id b)).

(** The comparator handed to [nodes.sort]. *)
Definition node_less (a b : Node) : bool :=
  if GraphId_eqb (graph_id a) (graph_id b)
  then osmid (node a) <? osmid (node b)
  else GraphId_ltb (graph_id a) (graph_id b).

Module SeqSort.
(** Modelled from the spec: [sequence<T>::sort] reorders the records in
    place by the comparator.  The order it leaves between records that
    compare equal is not fixed by the source; this model keeps them in
    their former order. *)
Fixpoint insert {A} (less : A -> A -> bool) (x : A) (l : list A) : list A :=
  match l with
  | [] => [x]
  | y :: l' => if less y x then y :: insert less x l' else x :: y :: l'
  end.

Definition sort {A} (less : A -> A -> bool) (l : list A) : list A :=
  foldr (insert less) [] l.
End SeqSort.

Module TileMap.
(** [std::map<GraphId, size_t>]: an association list kept in key order. *)
Definition t := list (GraphId * nat).

(** [insert] leaves the map as it is when the key is there already. *)
Fixpoint insert (k : GraphId) (v : nat) (m : t) : t :=
  match m with
  | [] => [(k, v)]
  | (k', v') :: m' =>
      if GraphId_ltb k k' then (k, v) :: m
      else if GraphId_eqb k k' then m
      else (k', v') :: insert k v m'
  end.

(** [(--tiles.end())->first]; nothing to read on an empty map. *)
Definition last_key (m : t) : option GraphId := fst <$> last m.
End TileMap.

(** What the lambda of [nodes.transform] captures by reference. *)
Record sort_state := mkSortState {
  s_nodes : list Node;
  s_edges : list Edge;
  run_index : Z;
  node_index : Z;
  last_node : Node;
  tiles : TileMap.t
}.

(** [Node last_node{}]. *)
Definition zero_node : Node :=
  mkNode (mkOSMNode 0 false false false false false false) 0 0 (mkGraphId 0 0).

(** The duplicate branch for one end of the record: rewrite the edge's end
    to [run_index] and take the flags from [last_node] and the edge. *)
Definition relink (st_edges : list Edge) (ref : Z) (upd : Edge -> Edge)
    (last : Node) (n : Node) : option (list Edge * Node) :=
  edge ← Seq.at_ st_edges (Z.to_nat ref);
  let edge := upd edge in
  edges' ← Seq.set st_edges (Z.to_nat ref) edge;
  Some (edges',
        with_node n (with_link_flags (node n)
          (link_edge (node last) || e_link (attributes edge))
          (non_link_edge (node last) || negb (e_link (attributes edge))))).

(** The body of the lambda: the record it returns and the captured state
    after the call. *)
Definition sort_step (st : sort_state) (n : Node) : option (Node * sort_state) :=
  '(n, edges, tiles, runback) ←
    (if node_index st =? 0
     then Some (with_id n 0, s_edges st,
                TileMap.insert (graph_id n) (Z.to_nat (node_index st)) (tiles st),
                false)
     else
       k ← TileMap.last_key (tiles st);
       if negb (GraphId_eqb (graph_id n) k)
       then Some (with_id n 0, s_edges st,
                  TileMap.insert (graph_id n) (Z.to_nat (node_index st)) (tiles st),
                  true)
       else if negb (osmid (node (last_node st)) =? osmid (node n))
       then Some (with_id n (id (graph_id (last_node st)) + 1), s_edges st,
                  tiles st, true)
       else
         let n := with_id n (id (graph_id (last_node st))) in
         '(edges, n) ←
           (if is_start n
            then relink (s_edges st) (start_of n)
                   (fun e => with_source e (run_index st)) (last_node st) n
            else Some (s_edges st, n));
         '(edges, n) ←
           (if is_end n
            then relink edges (end_of n)
                   (fun e => with_target e (run_index st)) (last_node st) n
            else Some (edges, n));
         Some (n, edges, tiles st, false));
  '(nodes, run) ←
    (if runback : bool
     then nodes' ← Seq.set (s_nodes st) (Z.to_nat (run_index st)) (last_node st);
          Some (nodes', node_index st)
     else Some (s_nodes st, run_index st));
  Some (n, mkSortState nodes edges run (u32 (node_index st + 1)) n tiles).

(** Modelled from the spec: [sequence<T>::transform] is a single forward
    pass that hands each record to the function and stores what it returns
    at the same position. *)
Fixpoint transform_loop (count : nat) (i : nat) (st : sort_state) : option sort_state :=
  match count with
  | O => Some st
  | S count' =>
      n ← Seq.at_ (s_nodes st) i;
      '(n', st') ← sort_step st n;
      nodes' ← Seq.set (s_nodes st') i n';
      transform_loop count' (S i)
        (mkSortState nodes' (s_edges st') (run_index st') (node_index st')
           (last_node st') (tiles st'))
  end.

Definition SortGraph (nodes : list Node) (edges : list Edge)
    : option (TileMap.t * list Node * list Edge) :=
  let sorted := SeqSort.sort node_less nodes in
  st ← transform_loop (length sorted) 0
         (mkSortState sorted edges 0 0 zero_node []);
  Some (tiles st, s_nodes st, s_edges st).

(** ** ConstructEdges *)

Section ConstructEdges.
(** The predicate computing a [GraphId] from a node. *)
Variable graph_id_predicate : OSMNode -> GraphId.

Variable ways : list OSMWay.
Variable way_nodes : list OSMWayNode.

(** [way_node.node.attributes_.link_edge = ... || way.link()]. *)
Definition mark_link (n : OSMNode) (way : OSMWay) : OSMNode :=
  with_link_edge n (link_edge n || link way).

Definition bump_llcount (e : Edge) : Edge :=
  with_attributes e (set_llcount (attributes e) (llcount (attributes e) + 1)).

(** [--nodes.end()] read, changed and written back. *)
Definition patch_last_start (nodes : list Node) (v : Z) : option (list Node) :=
  n ← last nodes;
  Seq.set nodes (pred (length nodes)) (with_start_of n v).

(** The inner [while]: [cur] is [current_way_node_index], [edge] the edge
    being built, [last_idx] is [last_way_node_index].  The result is the
    index after the loop together with both sequences. *)
Fixpoint inner_loop (fuel : nat) (way : OSMWay) (last_idx : Z) (cur : nat)
    (edge : Edge) (nodes : list Node) (edges : list Edge)
    : option (nat * list Node * list Edge) :=
  match fuel with
  | O => None
  | S fuel' =>
      if decide (cur < length way_nodes)%nat then
        let cur := S cur in
        way_node ← Seq.at_ way_nodes cur;
        let edge := bump_llcount edge in
        if intersection (wn_node way_node) then
          let edge := with_target edge (Z.of_nat (length nodes)) in
          let nd := mark_link (wn_node way_node) way in
          let nodes := Seq.push_back nodes
            (mkNode nd no_edge (u32 (Z.of_nat (length ways))) (graph_id_predicate nd)) in
          let edges := Seq.push_back edges edge in
          if negb (Z.of_nat cur =? last_idx) then
            let edge := make_edge (Z.of_nat (length nodes))
                          (Z.of_nat (way_index way_node)) (Z.of_nat cur) way in
            nodes ← patch_last_start nodes (Z.of_nat (length ways));
            inner_loop fuel' way last_idx cur edge nodes edges
          else Some (S cur, nodes, edges)
        else
          let edge :=
            if traffic_signal (wn_node way_node)
            then with_attributes edge
                   (set_signals (attributes edge)
                      (forward_signal (wn_node way_node))
                      (backward_signal (wn_node way_node)))
            else edge in
          inner_loop fuel' way last_idx cur edge nodes edges
      else Some (cur, nodes, edges)
  end.

(** The outer [while], one way per round. *)
Fixpoint outer_loop (fuel : nat) (cur : nat) (nodes : list Node)
    (edges : list Edge) : option (list Node * list Edge) :=
  match fuel with
  | O => None
  | S fuel' =>
      if decide (cur < length way_nodes)%nat then
        first_way_node ← Seq.at_ way_nodes cur;
        way ← Seq.at_ ways (way_index first_way_node);
        let last_idx := Z.of_nat cur + Z.of_nat (node_count way) - 1 in
        let edge := make_edge (Z.of_nat (length nodes))
                      (Z.of_nat (way_index first_way_node)) (Z.of_nat cur) way in
        let nd := mark_link (wn_node first_way_node) way in
        let nodes := Seq.push_back nodes
          (mkNode nd (u32 (Z.of_nat (length ways))) no_edge (graph_id_predicate nd)) in
        '(cur, nodes, edges) ←
          inner_loop (S (length way_nodes)) way last_idx cur edge nodes edges;
        outer_loop fuel' cur nodes edges
      else Some (nodes, edges)
  end.

(** Every round of either loop moves [current_way_node_index] forward, so
    one more round than there are way-nodes is enough for both. *)
Definition ConstructEdges : option (list Node * list Edge) :=
  outer_loop (S (length way_nodes)) 0 [] [].
End ConstructEdges.

(** ** ReclassifyLinks *)

(** Modelled from the spec: [DataQuality] (mjolnir/dataquality.h is not part
    of the sources) collects the issues found while building; an issue is
    kept here as its kind and the way it was found on. *)
Inductive IssueType := kUnconnectedLinkEdge | kDuplicateWays.

Record DataQuality := mkDataQuality {
  issues : list (IssueType * Z)
}.

Definition AddIssue (stats : DataQuality) (t : IssueType) (wayid : Z) : DataQuality :=
  mkDataQuality (issues stats ++ [(t, wayid)]).

Module USet.
(** [std::unordered_set<size_t>]: the members without repeats, in the
    order they were inserted. *)
Definition t := list nat.

Definition insert (x : nat) (s : t) : t :=
  if decide (x ∈ s) then s else s ++ [x].

(** The source takes [*begin()] and erases it.  Which member [begin()]
    hands out is decided by the library, from the members and from what
    was done with the set before; so the choice is a parameter of the
    functions that pop a set, and they tell it where the program is.  A
    choice is a position in the list, taken modulo the size: whatever is
    chosen is a member, and every member can be chosen ([0] is the
    member inserted first, [length s - 1] the one inserted last). *)
Definition chooser := t -> nat.

(** [x = *s.begin(); s.erase(s.begin())]: the member and what is left,
    nothing for the empty set. *)
Definition pop (begin_ : chooser) (s : t) : option (nat * t) :=
  match s with
  | [] => None
  | _ :: _ =>
      let i := (begin_ s mod length s)%nat in
      x ← s !! i; Some (x, delete i s)
  end.
End USet.

(** The containers the reclassifier works on, with the edge sequence it
    writes to. *)
Record link_state := mkLinkState {
  l_edges : list Edge;
  visitedset : USet.t;
  expandset : USet.t;
  linkedgeindexes : list nat;
  endrc : list Z;
  l_stats : DataQuality;
  l_count : Z
}.

Definition set_edges (st : link_state) (es : list Edge) (c : Z) : link_state :=
  mkLinkState es (visitedset st) (expandset st) (linkedgeindexes st)
    (endrc st) (l_stats st) c.

Definition set_endrc (st : link_state) (rc : list Z) : link_state :=
  mkLinkState (l_edges st) (visitedset st) (expandset st) (linkedgeindexes st)
    rc (l_stats st) (l_count st).

Definition set_expandset (st : link_state) (s : USet.t) : link_state :=
  mkLinkState (l_edges st) (visitedset st) s (linkedgeindexes st)
    (endrc st) (l_stats st) (l_count st).

Definition set_visitedset (st : link_state) (s : USet.t) : link_state :=
  mkLinkState (l_edges st) s (expandset st) (linkedgeindexes st)
    (endrc st) (l_stats st) (l_count st).

Definition set_stats (st : link_state) (s : DataQuality) : link_state :=
  mkLinkState (l_edges st) (visitedset st) (expandset st) (linkedgeindexes st)
    (endrc st) s (l_count st).

(** The three [clear()] calls and the [push_back] before an expansion. *)
Definition start_expansion (st : link_state) (idx : nat) : link_state :=
  mkLinkState (l_edges st) [] [] [idx] (endrc st) (l_stats st) (l_count st).

Section ReclassifyLinks.
Variable ways : list OSMWay.
Variable nodes : list Node.

(** The member [expandset.begin()] hands out, given the node the outer
    loop is at, the number of edges of its bundle still to come after
    the start edge, and the number of rounds left.  No two pops of a run
    have these three in common, so every way the library can choose,
    whatever it looks at, is one [begin_]. *)
Variable begin_ : nat -> nat -> nat -> USet.chooser.

(** The lambda [expand]. *)
Definition expand (st : link_state) (edge : Edge) (node_itr : nat)
    : option link_state :=
  let end_node_itr :=
    if sourcenode_ edge =? Z.of_nat node_itr
    then Z.to_nat (targetnode_ edge) else node_itr in
  end_node ← Seq.at_ nodes end_node_itr;
  if non_link_edge (node end_node)
  then b ← collect_node_edges end_node_itr nodes (l_edges st);
       Some (set_endrc st (endrc st ++ [GetBestNonLinkClass (b_edges b)]))
  else Some (set_expandset st (USet.insert end_node_itr (expandset st))).

(** The loop over [linkedgeindexes] that raises the importance to [rc]. *)
Fixpoint raise_importance (rc : Z) (idxs : list nat) (edges : list Edge)
    (count : Z) : option (list Edge * Z) :=
  match idxs with
  | [] => Some (edges, count)
  | idx :: idxs' =>
      edge ← Seq.at_ edges idx;
      if rc >? importance (attributes edge)
      then edges' ← Seq.set edges idx
                      (with_attributes edge (set_importance (attributes edge) rc));
           raise_importance rc idxs' edges' (u32 (count + 1))
      else raise_importance rc idxs' edges count
  end.

(** What happens once [expandset] is empty. *)
Definition frontier_empty (st : link_state) (startedge : Edge * nat)
    : option link_state :=
  if (length (endrc st) <? 2)%nat
  then way ← Seq.at_ ways (Z.to_nat (wayindex_ startedge.1));
       Some (set_stats st (AddIssue (l_stats st) kUnconnectedLinkEdge (way_id way)))
  else
    let sorted := SeqSort.sort Z.ltb (endrc st) in
    rc ← sorted !! 1%nat;
    '(edges, count) ← raise_importance rc (linkedgeindexes st) (l_edges st) (l_count st);
    Some (set_edges (set_endrc st sorted) edges count).

(** The loop over the edges of an expanded node. *)
Fixpoint expand_edges (st : link_state) (startedge : Edge * nat)
    (expandnode : nat) (es : list (Edge * nat)) : option link_state :=
  match es with
  | [] => Some st
  | expandededge :: es' =>
      if (expandededge.2 =? startedge.2)%nat
      then expand_edges st startedge expandnode es'
      else if negb (e_link (attributes expandededge.1))
      then expand_edges st startedge expandnode es'
      else st' ← expand st expandededge.1 expandnode;
           expand_edges st' startedge expandnode es'
  end.

(** [for (uint32_t n = 0; n < 512; n++)], [rounds] being what is left of
    the 512, and [begin_at] the choices of [begin()] in this loop. *)
Fixpoint expand_loop (begin_at : nat -> USet.chooser) (rounds : nat)
    (st : link_state) (startedge : Edge * nat) : option link_state :=
  match rounds with
  | O => Some st
  | S rounds' =>
      match USet.pop (begin_at rounds') (expandset st) with
      | None => frontier_empty st startedge
      | Some (expandnode, others) =>
          let st := set_visitedset (set_expandset st others)
                      (USet.insert expandnode (visitedset st)) in
          expanded ← collect_node_edges expandnode nodes (l_edges st);
          st ← expand_edges st startedge expandnode (b_edges expanded);
          expand_loop begin_at rounds' st startedge
      end
  end.

(** The loop over the edges of the bundle: one expansion per link edge. *)
Fixpoint from_link_edges (st : link_state) (node_itr : nat)
    (es : list (Edge * nat)) : option link_state :=
  match es with
  | [] => Some st
  | startedge :: es' =>
      if negb (e_link (attributes startedge.1))
      then from_link_edges st node_itr es'
      else
        let st := start_expansion st startedge.2 in
        st ← expand st startedge.1 node_itr;
        st ← expand_loop (begin_ node_itr (length es')) 512 st startedge;
        from_link_edges st node_itr es'
  end.

(** The loop over the nodes; every round moves on by [node_count >= 1]. *)
Fixpoint nodes_loop (fuel : nat) (node_itr : nat) (st : link_state)
    : option link_state :=
  match fuel with
  | O => None
  | S fuel' =>
      if decide (node_itr < length nodes)%nat then
        bundle ← collect_node_edges node_itr nodes (l_edges st);
        st ←
          (if link_edge (node (b_node bundle)) && non_link_edge (node (b_node bundle))
           then from_link_edges
                  (set_endrc st [GetBestNonLinkClass (b_edges bundle)])
                  node_itr (b_edges bundle)
           else Some st);
        nodes_loop fuel' (node_itr + b_node_count bundle)%nat st
      else Some st
  end.

Definition ReclassifyLinks (edges : list Edge) (stats : DataQuality)
    : option (list Edge * DataQuality) :=
  st ← nodes_loop (S (length nodes)) 0
         (mkLinkState edges [] [] [] [] stats 0);
  Some (l_edges st, l_stats st).
End ReclassifyLinks.

(** ** BuildLocalTiles and GraphBuilder::Build *)

(** How a call ends: it returns, or an exception leaves it. *)
Inductive outcome (A : Type) :=
  | Returned (a : A)
  | Thrown (what : string).
Arguments Returned {A} a.
Arguments Thrown {A} what.

Section BuildLocalTiles.
(** What a worker leaves in its promise for the tile range it was given:
    its statistics ([inl]) or the exception it caught ([inr]).  The body
    of [BuildTileSet] writes tile files and is not embedded. *)
Variable BuildTileSet :
  list Node -> list Edge -> nat -> nat -> DataQuality + string.

(** Modelled from the spec: [DataQuality::AddStatistics] merges the
    statistics of a worker into the accumulator. *)
Variable AddStatistics : DataQuality -> DataQuality -> DataQuality.

(** "Divvy up the work": the ranges [tile_start, tile_end) handed to the
    threads [i], [i+1], ... *)
Fixpoint divvy (todo : nat) (i : nat) (floor at_ceiling : nat)
    (tile_end : nat) : list (nat * nat) :=
  match todo with
  | O => []
  | S todo' =>
      let tile_count := if decide (i < at_ceiling)%nat then S floor else floor in
      let tile_start := tile_end in
      let tile_end := (tile_end + tile_count)%nat in
      (tile_start, tile_end) :: divvy todo' (S i) floor at_ceiling tile_end
  end.

(** "Check all of the outcomes and accumulate stats": [get()] rethrows the
    exception of a failed worker, and the handler around it is empty. *)
Fixpoint check_outcomes (results : list (DataQuality + string))
    (stats : DataQuality) : outcome DataQuality :=
  match results with
  | [] => Returned stats
  | inl stat :: results' => check_outcomes results' (AddStatistics stats stat)
  | inr e :: results' => check_outcomes results' stats
  end.

(** The ranges the threads were started on and how the call ends.  With
    no thread at all the division [tiles.size() / threads.size()] has no
    value. *)
Definition BuildLocalTiles (thread_count : Z) (nodes : list Node)
    (edges : list Edge) (tiles : TileMap.t) (stats : DataQuality)
    : option (list (nat * nat) * outcome DataQuality) :=
  let threads := Z.to_nat (u32 thread_count) in
  if decide (threads = 0)%nat then None
  else
    let floor := (length tiles / threads)%nat in
    let at_ceiling := (length tiles - threads * floor)%nat in
    let ranges := divvy threads 0 floor at_ceiling 0 in
    let results := map (fun r => BuildTileSet nodes edges r.1 r.2) ranges in
    Some (ranges, check_outcomes results stats).

(** The part of the configuration [Build] reads itself. *)
Record ptree := mkPtree {
  concurrency : option Z
}.

Variable graph_id_predicate : OSMNode -> GraphId.

(** The member [begin()] hands out in [ReclassifyLinks]. *)
Variable begin_ : nat -> nat -> nat -> USet.chooser.

(** The value [Build] computes for its local [threads]:
    [std::max(1u, pt.get<unsigned int>("concurrency", hardware_concurrency()))]. *)
Definition Build_threads (pt : ptree) (hardware_concurrency : Z) : Z :=
  Z.max 1 (default hardware_concurrency (concurrency pt)).

(** [GraphBuilder::Build], with [std::thread::hardware_concurrency()] and
    the level of the last entry of the tile hierarchy as arguments.  The
    first argument of the call of [BuildLocalTiles] is [level]. *)
Definition Build (pt : ptree) (hardware_concurrency : Z) (level : Z)
    (ways : list OSMWay) (way_nodes : list OSMWayNode)
    : option (list (nat * nat) * outcome DataQuality) :=
  let threads := Build_threads pt hardware_concurrency in
  '(nodes, edges) ← ConstructEdges graph_id_predicate ways way_nodes;
  '(tiles, nodes, edges) ← SortGraph nodes edges;
  '(edges, stats) ← ReclassifyLinks ways nodes begin_ edges (mkDataQuality []);
  BuildLocalTiles level nodes edges tiles stats.
End BuildLocalTiles.

(** ** GraphBuilder::GetRef *)

Module Tag.
Open Scope string_scope.

(** Modelled from the spec: [GetTagTokens] (mjolnir/util.h is not part of
    the sources) cuts a tag value at every delimiter; the delimiter is
    [';'] unless another one is given. *)
Fixpoint GetTagTokens (tag_value : string) (delim : ascii) : list string :=
  match tag_value with
  | EmptyString => [EmptyString]
  | String c rest =>
      if Ascii.eqb c delim then EmptyString :: GetTagTokens rest delim
      else match GetTagTokens rest delim with
           | t :: ts => String c t :: ts
           | [] => [String c EmptyString]
           end
  end.

Definition empty (s : string) : bool :=
  match s with EmptyString => true | _ => false end.

(** The inner [for] over [refdirs]: the direction of the first pair whose
    ref is [ref], if there is one. *)
Fixpoint find_dir (refdirs : list string) (ref : string) : option string :=
  match refdirs with
  | [] => None
  | refdir :: refdirs' =>
      match GetTagTokens refdir "|" with
      | [r; d] => if String.eqb r ref then Some d else find_dir refdirs' ref
      | _ => find_dir refdirs' ref
      end
  end.

(** One round of the outer [for]: [refs] after the round. *)
Definition add_ref (refdirs : list string) (refs ref : string) : string :=
  match find_dir refdirs ref with
  | Some d =>
      if negb (empty refs) then refs ++ (";" ++ ref ++ " " ++ d)
      else ref ++ " " ++ d
  | None =>
      if negb (empty refs) then refs ++ (";" ++ ref)
      else ref
  end.

Definition GetRef (way_ref relation_ref : string) : string :=
  let way_refs := GetTagTokens way_ref ";" in
  let refdirs := GetTagTokens relation_ref ";" in
  fold_left (add_ref refdirs) way_refs "".
End Tag.

(** * What the specification says, as statements about the embedding *)

(** ** Duplicate runs *)

(** The position of the first record of the run of records with the same
    original id that position [p] lies in. *)
Fixpoint run_first (nodes : list Node) (p : nat) : nat :=
  match p with
  | O => O
  | S p' =>
      match nodes !! p, nodes !! p' with
      | Some a, Some b =>
          if osmid (node a) =? osmid (node b) then run_first nodes p' else p
      | _, _ => p
      end
  end.

(** The records at the front of [rest] whose original id is [osm]. *)
Fixpoint same_id_prefix (osm : Z) (rest : list Node) : list Node :=
  match rest with
  | [] => []
  | n :: rest' =>
      if osmid (node n) =? osm then n :: same_id_prefix osm rest' else []
  end.

(** The records of the run that starts at [p], the first one included. *)
Definition run_at (nodes : list Node) (p : nat) : list Node :=
  match nodes !! p with
  | Some first => first :: same_id_prefix (osmid (node first)) (drop (S p) nodes)
  | None => []
  end.

(** The pairs a record contributes: its [start_of] edge, then its [end_of]
    edge. *)
Definition node_refs (edges : list Edge) (n : Node) : list (Edge * nat) :=
  (if is_start n then option_list (edge_ref edges (start_of n)) else []) ++
  (if is_end n then option_list (edge_ref edges (end_of n)) else []).

(** An edge end is a canonical position. *)
Definition canonical_position (nodes : list Node) (v : Z) : bool :=
  (run_first nodes (Z.to_nat v) =? Z.to_nat v)%nat.

Definition endpoints_canonical (nodes : list Node) (edges : list Edge) : bool :=
  forallb (fun e => canonical_position nodes (sourcenode_ e) &&
                    canonical_position nodes (targetnode_ e)) edges.

(** The edge a record starts (ends) has the first position of the record's
    run as its source (target). *)
Definition record_agrees (nodes : list Node) (edges : list Edge)
    (p : nat) (n : Node) : bool :=
  (if is_start n
   then match edges !! Z.to_nat (start_of n) with
        | Some e => sourcenode_ e =? Z.of_nat (run_first nodes p)
        | None => false
        end
   else true) &&
  (if is_end n
   then match edges !! Z.to_nat (end_of n) with
        | Some e => targetnode_ e =? Z.of_nat (run_first nodes p)
        | None => false
        end
   else true).

Definition endpoints_follow_records (nodes : list Node) (edges : list Edge) : bool :=
  forallb (fun pn => record_agrees nodes edges pn.1 pn.2) (imap pair nodes).

(** The first record of every run has each flag that some record of the run
    has. *)
Definition flags_reduced (nodes : list Node) : bool :=
  forallb (fun pn =>
    match nodes !! run_first nodes pn.1 with
    | Some first =>
        implb (link_edge (node pn.2)) (link_edge (node first)) &&
        implb (non_link_edge (node pn.2)) (non_link_edge (node first))
    | None => false
    end) (imap pair nodes).

(** ** Ways laid out in the way-node sequence *)

Definition span (e : Edge) : Z * Z := (llindex_ e, llcount (attributes e)).

(** The edges of a way as the specification cuts them: [start] is where the
    current edge began, [len] the way-nodes it has so far, [rest] the
    way-nodes of the way not yet visited.  An edge is closed at every
    way-node with the intersection flag. *)
Fixpoint cut (start len : nat) (rest : list OSMWayNode) : list (nat * nat) :=
  match rest with
  | [] => []
  | wn :: rest' =>
      if intersection (wn_node wn)
      then (start, S len) :: cut (start + len) 1 rest'
      else cut start (S len) rest'
  end.

(** The same with the edge closed at the last way-node of the way as well,
    flagged or not. *)
Fixpoint cut_or_last (start len : nat) (rest : list OSMWayNode) : list (nat * nat) :=
  match rest with
  | [] => []
  | [wn] => [(start, S len)]
  | wn :: rest' =>
      if intersection (wn_node wn)
      then (start, S len) :: cut_or_last (start + len) 1 rest'
      else cut_or_last start (S len) rest'
  end.

(** The spans of all ways, each way being a block of the way-node sequence;
    [offset] is the position of the first block. *)
Fixpoint spans_of (cutter : nat -> nat -> list OSMWayNode -> list (nat * nat))
    (offset : nat) (blocks : list (list OSMWayNode)) : list (nat * nat) :=
  match blocks with
  | [] => []
  | b :: blocks' =>
      cutter offset 1%nat (tail b) ++ spans_of cutter (offset + length b) blocks'
  end.

Definition Zspan (p : nat * nat) : Z * Z := (Z.of_nat p.1, Z.of_nat p.2).

(** A block is the way-nodes of one way: they all name the way, the way is
    there and counts as many nodes as the block has, at least two. *)
Definition way_block (ways : list OSMWay) (b : list OSMWayNode) : Prop :=
  (2 <= length b)%nat /\ Z.of_nat (length b) < 2 ^ 16 /\
  exists w way, Forall (fun wn => way_index wn = w) b /\
                ways !! w = Some way /\ node_count way = length b.

(** The last way-node of the block carries the intersection flag. *)
Definition closed_block (b : list OSMWayNode) : Prop :=
  exists wn, last b = Some wn /\ intersection (wn_node wn) = true.

(** The block of the way-node sequence a span lies in. *)
Definition within_block (blocks : list (list OSMWayNode)) (s : Z * Z) : Prop :=
  exists k b, blocks !! k = Some b /\
    Z.of_nat (length (concat (take k blocks))) <= s.1 /\
    s.1 + s.2 <= Z.of_nat (length (concat (take k blocks)) + length b).

(** ** The pieces of a round of ConstructEdges *)

Section Rounds.
Variable graph_id_predicate : OSMNode -> GraphId.
Variable ways : list OSMWay.

(** The node pushed for the first way-node of a way. *)
Definition start_node (wn : OSMWayNode) (way : OSMWay) : Node :=
  mkNode (mark_link (wn_node wn) way) (u32 (Z.of_nat (length ways))) no_edge
    (graph_id_predicate (mark_link (wn_node wn) way)).

(** The node pushed for a way-node that closes an edge. *)
Definition end_node (wn : OSMWayNode) (way : OSMWay) : Node :=
  mkNode (mark_link (wn_node wn) way) no_edge (u32 (Z.of_nat (length ways)))
    (graph_id_predicate (mark_link (wn_node wn) way)).

(** The edge in hand after a shape point. *)
Definition signal_edge (edge : Edge) (wn : OSMWayNode) : Edge :=
  if traffic_signal (wn_node wn)
  then with_attributes edge
         (set_signals (attributes edge) (forward_signal (wn_node wn))
            (backward_signal (wn_node wn)))
  else edge.

(** The edge as it is pushed. *)
Definition closed_edge (edge : Edge) (nodes : list Node) : Edge :=
  with_target (bump_llcount edge) (Z.of_nat (length nodes)).

(** A reference is the sentinel or the number of ways. *)
Definition way_count_ref (v : Z) : Prop :=
  v = no_edge \/ v = u32 (Z.of_nat (length ways)).

Definition refs_way_count (n : Node) : Prop :=
  way_count_ref (start_of n) /\ way_count_ref (end_of n).
End Rounds.

(** ** Ref merging *)

Module RefSpec.
Import Tag.
Open Scope string_scope.

(** The pairs of a relation ref: the entries that split into exactly a
    ref and a direction. *)
Fixpoint pairs (refdirs : list string) : list (string * string) :=
  match refdirs with
  | [] => []
  | refdir :: refdirs' =>
      match GetTagTokens refdir "|" with
      | [r; d] => (r, d) :: pairs refdirs'
      | _ => pairs refdirs'
      end
  end.

(** The direction of the first pair that names [ref]. *)
Definition direction (refdirs : list string) (ref : string) : option string :=
  snd <$> List.find (fun p : string * string => String.eqb p.1 ref) (pairs refdirs).

(** A way ref, followed by its direction when it has one. *)
Definition with_dir (refdirs : list string) (ref : string) : string :=
  match direction refdirs ref with
  | Some d => ref ++ " " ++ d
  | None => ref
  end.

Definition add_entry (refs e : string) : string := refs ++ ";" ++ e.

(** Entries joined by [';'].  Nothing is written for empty entries at the
    front. *)
Fixpoint join_refs (entries : list string) : string :=
  match entries with
  | [] => ""
  | e :: entries' =>
      if empty e then join_refs entries'
      else fold_left add_entry entries' e
  end.

(** Entries with [';'] between them. *)
Fixpoint join (entries : list string) : string :=
  match entries with
  | [] => ""
  | [e] => e
  | e :: entries' => e ++ ";" ++ join entries'
  end.

(** The entries from the first one that is not empty. *)
Fixpoint drop_empties (entries : list string) : list string :=
  match entries with
  | [] => []
  | e :: entries' => if empty e then drop_empties entries' else entries
  end.


End RefSpec.

(** ** Inputs *)

Module Inputs.
Definition osm (o : Z) (l nl : bool) : OSMNode :=
  mkOSMNode o true false false false l nl.

Definition in_tile (n : OSMNode) : GraphId := mkGraphId 7 0.

Definition nd (o : Z) (s e : Z) (l nl : bool) : Node :=
  mkNode (osm o l nl) s e (mkGraphId 7 0).

Definition ed (s t : Z) (imp : Z) (l : bool) : Edge :=
  mkEdge s 0 0 (mkEdgeAttributes 2 imp true true false false false l) t.

Definition wn (o : Z) (i : bool) (w : nat) : OSMWayNode :=
  mkOSMWayNode (mkOSMNode o i false false false false false) w.

Definition way2 : OSMWay := mkOSMWay 100 2 true true false 2.
Definition way3 : OSMWay := mkOSMWay 101 2 true true false 3.

(** Two ways A -> B and B -> C as the edge stage hands them over: nodes
    A, B, B, C with original ids 5, 1, 1, 9. *)
Definition path_nodes : list Node :=
  [nd 5 0 no_edge false true; nd 1 no_edge 0 false true;
   nd 1 1 no_edge false true; nd 9 no_edge 1 false true].
Definition path_edges : list Edge := [ed 0 1 3 false; ed 2 3 3 false].

(** The same two ways with the records of B handed over the other way
    round, which is the order the sort leaves them in. *)
Definition path_nodes_swapped : list Node :=
  [nd 5 0 no_edge false true; nd 1 1 no_edge false true;
   nd 1 no_edge 0 false true; nd 9 no_edge 1 false true].
Definition path_edges_swapped : list Edge := [ed 0 2 3 false; ed 1 3 3 false].

(** A link way X -> Y and a road Z -> Y; Y has the largest original id, so
    its run is the last one after sorting. *)
Definition fork_nodes : list Node :=
  [nd 1 0 no_edge true false; nd 9 no_edge 0 true false;
   nd 2 1 no_edge false true; nd 9 no_edge 1 false true].
Definition fork_edges : list Edge := [ed 0 1 4 true; ed 2 3 2 false].

(** The same with the road first, so that the records of Y are sorted the
    other way round. *)
Definition fork_nodes_swapped : list Node :=
  [nd 2 0 no_edge false true; nd 9 no_edge 0 false true;
   nd 1 1 no_edge true false; nd 9 no_edge 1 true false].
Definition fork_edges_swapped : list Edge := [ed 0 1 2 false; ed 2 3 4 true].

(** A ramp (edge 0, importance 5) from junction 10 to junction 20; each
    junction also starts a primary road (edges 1 and 2, importance 2). *)
Definition ramp_nodes : list Node :=
  [nd 10 1 no_edge true true; nd 10 0 no_edge true true;
   nd 20 2 no_edge true true; nd 20 no_edge 0 true true;
   nd 30 no_edge 1 false true; nd 40 no_edge 2 false true].
Definition ramp_edges : list Edge :=
  [ed 0 2 5 true; ed 0 4 2 false; ed 2 5 2 false].

(** A worker that fails on every range, and one that never does. *)
Definition failing_worker (_ : list Node) (_ : list Edge) (_ _ : nat)
    : DataQuality + string := inr "tile"%string.
Definition quiet_worker (_ : list Node) (_ : list Edge) (_ _ : nat)
    : DataQuality + string := inl (mkDataQuality []).
Definition merge (a b : DataQuality) : DataQuality :=
  mkDataQuality (issues a ++ issues b).
End Inputs.

(** * More of graphbuilder.cc *)

(** Number of tries when determining not thru edges. *)
Definition kMaxNoThruTries : nat := 256.

(** Modelled from the spec: [RoadClass] and [Use] (baldr/graphconstants.h is
    not part of the sources), with the enumerators graphbuilder.cc names;
    [kOtherUse] stands for the uses it does not name.  The number behind a
    road class is taken as a parameter where the source converts one. *)
Inductive RoadClass :=
  | kMotorway | kTrunk | kPrimary | kSecondary | kTertiary
  | kUnclassified | kServiceOther.

Inductive Use := kRoad | kRamp | kTurnChannel | kCuldesac | kOtherUse.

Definition RoadClass_eqb (a b : RoadClass) : bool :=
  match a, b with
  | kMotorway, kMotorway | kTrunk, kTrunk | kPrimary, kPrimary
  | kSecondary, kSecondary | kTertiary, kTertiary
  | kUnclassified, kUnclassified | kServiceOther, kServiceOther => true
  | _, _ => false
  end.

Definition Use_eqb (a b : Use) : bool :=
  match a, b with
  | kRoad, kRoad | kRamp, kRamp | kTurnChannel, kTurnChannel
  | kCuldesac, kCuldesac | kOtherUse, kOtherUse => true
  | _, _ => false
  end.

(** ** IsNoThroughEdge *)

(** How the loop over the edges of an expanded node ends: with
    [return false], or with the set of nodes to expand. *)
Inductive scan :=
  | Back
  | Frontier (expandset : USet.t).

Section NoThrough.
(** [static_cast<uint32_t>(RoadClass::kTertiary)]. *)
Variable tertiary : Z.

Variable nodes : list Node.
Variable edges : list Edge.

(** The member [expandset.begin()] hands out, given the number of tries
    left. *)
Variable begin_ : nat -> USet.chooser.

Definition nextendnode (node_index : nat) (edge : Edge) : nat :=
  Z.to_nat (if sourcenode_ edge =? Z.of_nat node_index
            then targetnode_ edge else sourcenode_ edge).

(** The loop over [bundle.edges]. *)
Fixpoint scan_edges (startnode node_index startedgeindex : nat)
    (es : list (Edge * nat)) (visitedset expandset : USet.t) : scan :=
  match es with
  | [] => Frontier expandset
  | edge_pair :: es' =>
      if (edge_pair.2 =? startedgeindex)%nat
      then scan_edges startnode node_index startedgeindex es' visitedset expandset
      else if (nextendnode node_index edge_pair.1 =? startnode)%nat
              || (importance (attributes edge_pair.1) <=? tertiary)
      then Back
      else scan_edges startnode node_index startedgeindex es' visitedset
             (if decide (nextendnode node_index edge_pair.1 ∈ visitedset)
              then expandset
              else USet.insert (nextendnode node_index edge_pair.1) expandset)
  end.

(** [for (uint32_t n = 0; n < kMaxNoThruTries; n++)], [tries] being what
    is left of them. *)
Fixpoint thru_loop (tries : nat) (startnode startedgeindex : nat)
    (visitedset expandset : USet.t) : option bool :=
  match tries with
  | O => Some false
  | S tries' =>
      match USet.pop (begin_ tries') expandset with
      | None => Some true
      | Some (node_index, others) =>
          let visitedset := USet.insert node_index visitedset in
          bundle ← collect_node_edges node_index nodes edges;
          match scan_edges startnode node_index startedgeindex (b_edges bundle)
                  visitedset others with
          | Back => Some false
          | Frontier expandset => thru_loop tries' startnode startedgeindex
                                    visitedset expandset
          end
      end
  end.

Definition IsNoThroughEdge (startnode endnode startedgeindex : nat) : option bool :=
  thru_loop kMaxNoThruTries startnode startedgeindex [] (USet.insert endnode []).
End NoThrough.

(** ** OnewayPairEdgesExist and IsIntersectionInternal *)

Section Internal.
(** Lengths are [float]s; the type and its comparison are parameters, and
    so is the constant of baldr/graphconstants.h. *)
Variable float : Type.
Variable fgt : float -> float -> bool.
Variable kMaxInternalLength : float.

Variable ways : list OSMWay.

(** The loop of [OnewayPairEdgesExist], with its two flags. *)
Fixpoint oneway_flags (node_index edgeindex : nat) (wayid : Z)
    (es : list (Edge * nat)) (inbound outbound : bool) : option (bool * bool) :=
  match es with
  | [] => Some (inbound, outbound)
  | edge_pair :: es' =>
      if (edge_pair.2 =? edgeindex)%nat
      then oneway_flags node_index edgeindex wayid es' inbound outbound
      else
        let edge := edge_pair.1 in
        w ← Seq.at_ ways (Z.to_nat (wayindex_ edge));
        if (way_id w =? wayid) || e_link (attributes edge)
        then oneway_flags node_index edgeindex wayid es' inbound outbound
        else
          let forward := sourcenode_ edge =? Z.of_nat node_index in
          let inbound :=
            if (forward && negb (auto_forward w) && auto_backward w)
               || (negb forward && auto_forward w && negb (auto_backward w))
            then true else inbound in
          let outbound :=
            if (forward && auto_forward w && negb (auto_backward w))
               || (negb forward && negb (auto_forward w) && auto_backward w)
            then true else outbound in
          oneway_flags node_index edgeindex wayid es' inbound outbound
  end.

Definition OnewayPairEdgesExist (bundle : node_bundle) (node_index edgeindex : nat)
    (wayid : Z) : option bool :=
  '(inbound, outbound) ←
    oneway_flags node_index edgeindex wayid (b_edges bundle) false false;
  Some (inbound && outbound).

Definition IsIntersectionInternal (startnode endnode edgeindex : nat) (wayid : Z)
    (length_ : float) (nodes : list Node) (edges : list Edge) : option bool :=
  if fgt length_ kMaxInternalLength then Some false
  else
    bundle1 ← collect_node_edges startnode nodes edges;
    if (length (b_edges bundle1) <? 3)%nat then Some false
    else
      bundle2 ← collect_node_edges endnode nodes edges;
      if (length (b_edges bundle2) <? 3)%nat then Some false
      else
        pair1 ← OnewayPairEdgesExist bundle1 startnode edgeindex wayid;
        if negb pair1 then Some false
        else
          pair2 ← OnewayPairEdgesExist bundle2 endnode edgeindex wayid;
          if negb pair2 then Some false else Some true.
End Internal.

(** ** GetLinkUse and UpdateLinkSpeed *)

Section LinkUse.
Variable float : Type.
Variable fgt : float -> float -> bool.
Variable fmul : float -> float -> float.
(** The [float] a literal of the source stands for, given by the tenths
    it counts: [950] for [95.0f], [9] for [0.9f]. *)
Variable tenths : Z -> float.
Variable kMaxTurnChannelLength : float.

(** The two loops that answer [kRamp] for another link edge. *)
Fixpoint other_link (edgeindex : nat) (es : list (Edge * nat)) : bool :=
  match es with
  | [] => false
  | edge :: es' =>
      if negb (edge.2 =? edgeindex)%nat && e_link (attributes edge.1)
      then true else other_link edgeindex es'
  end.

Definition GetLinkUse (edgeindex : nat) (rc : RoadClass) (length_ : float)
    (startnode endnode : nat) (nodes : list Node) (edges : list Edge)
    : option Use :=
  if RoadClass_eqb rc kMotorway || RoadClass_eqb rc kTrunk
     || fgt length_ kMaxTurnChannelLength
  then Some kRamp
  else
    startnd ← collect_node_edges startnode nodes edges;
    endnd ← collect_node_edges endnode nodes edges;
    if non_link_edge (node (b_node startnd)) && non_link_edge (node (b_node endnd))
    then
      if other_link edgeindex (b_edges startnd) then Some kRamp
      else if other_link edgeindex (b_edges endnd) then Some kRamp
      else Some kTurnChannel
    else Some kRamp.

Definition UpdateLinkSpeed (use : Use) (rc : RoadClass) (spd : float) : float :=
  if Use_eqb use kTurnChannel then fmul spd (tenths 9)
  else if Use_eqb use kRamp then
    if RoadClass_eqb rc kMotorway then tenths 950
    else if RoadClass_eqb rc kTrunk then tenths 800
    else if RoadClass_eqb rc kPrimary then tenths 650
    else if RoadClass_eqb rc kSecondary then tenths 500
    else if RoadClass_eqb rc kTertiary then tenths 400
    else if RoadClass_eqb rc kUnclassified then tenths 350
    else tenths 250
  else spd.
End LinkUse.

(** ** CreateSimpleTurnRestriction *)

(** Modelled from the spec: [RestrictionType], [DOW] and [OSMRestriction]
    (baldr/graphconstants.h and mjolnir/osmrestriction.h are not part of the
    sources), with the enumerators and accessors the source uses;
    [kOtherRestriction] stands for the types the [switch] has no case for,
    [kSomeDay] for the days other than [kNone]. *)
Inductive RestrictionType :=
  | kNoLeftTurn | kNoRightTurn | kNoStraightOn | kNoUTurn
  | kOnlyRightTurn | kOnlyLeftTurn | kOnlyStraightOn
  | kOtherRestriction.

Inductive DOW := kNone | kSomeDay.

Record OSMRestriction := mkOSMRestriction {
  via_graphid : nat;
  day_on : DOW;
  type_ : RestrictionType;
  to : Z
}.

Definition timed (r : OSMRestriction) : bool :=
  match day_on r with kNone => false | kSomeDay => true end.

Section TurnRestriction.
(** [osmdata.restrictions], a multimap from way ids. *)
Variable restrictions : list (Z * OSMRestriction).
Variable ways : list OSMWay.
Variable nodes : list Node.
Variable edges : list Edge.

(** The loop over [equal_range(wayid)]: the restrictions kept and the
    number of times [stats.timedrestrictions] is counted up. *)
Fixpoint through_node (endnode : nat) (res : list (Z * OSMRestriction))
    (trs : list OSMRestriction) (timedrestrictions : Z)
    : list OSMRestriction * Z :=
  match res with
  | [] => (trs, timedrestrictions)
  | r :: res' =>
      if (via_graphid r.2 =? endnode)%nat
      then if timed r.2
           then through_node endnode res' trs (timedrestrictions + 1)
           else through_node endnode res' (trs ++ [r.2]) timedrestrictions
      else through_node endnode res' trs timedrestrictions
  end.

(** The loop that fills [wayids] with the [osmwayid_] of the way of each
    edge of the bundle. *)
Fixpoint edge_wayids (es : list (Edge * nat)) : option (list Z) :=
  match es with
  | [] => Some []
  | edge :: es' =>
      w ← Seq.at_ ways (Z.to_nat (wayindex_ edge.1));
      ids ← edge_wayids es';
      Some (way_id w :: ids)
  end.

(** [mask |= (1 << idx)]; the shift of an [int] by 32 or more has no
    value. *)
Definition set_bit (mask : Z) (idx : nat) : option Z :=
  if (idx <? 32)%nat then Some (Z.lor mask (u32 (Z.shiftl 1 (Z.of_nat idx))))
  else None.

(** The loop of the "no" restrictions: the first edge of the way [to]. *)
Fixpoint restrict_first (to_ : Z) (wayids : list Z) (idx : nat) (mask : Z)
    : option Z :=
  match wayids with
  | [] => Some mask
  | wayid :: wayids' =>
      if wayid =? to_ then set_bit mask idx
      else restrict_first to_ wayids' (S idx) mask
  end.

(** The loop of the "only" restrictions: every edge of another way. *)
Fixpoint restrict_others (to_ : Z) (wayids : list Z) (idx : nat) (mask : Z)
    : option Z :=
  match wayids with
  | [] => Some mask
  | wayid :: wayids' =>
      if negb (wayid =? to_)
      then mask' ← set_bit mask idx; restrict_others to_ wayids' (S idx) mask'
      else restrict_others to_ wayids' (S idx) mask
  end.

Fixpoint restriction_mask (trs : list OSMRestriction) (wayids : list Z)
    (mask : Z) : option Z :=
  match trs with
  | [] => Some mask
  | tr :: trs' =>
      mask' ←
        match type_ tr with
        | kNoLeftTurn | kNoRightTurn | kNoStraightOn | kNoUTurn =>
            restrict_first (to tr) wayids 0 mask
        | kOnlyRightTurn | kOnlyLeftTurn | kOnlyStraightOn =>
            restrict_others (to tr) wayids 0 mask
        | kOtherRestriction => Some mask
        end;
      restriction_mask trs' wayids mask'
  end.

(** The mask, and by how much [stats.timedrestrictions] goes up.  The
    way's restrictions are the entries of the multimap under its id. *)
Definition CreateSimpleTurnRestriction (wayid : Z) (edgeindex : Z)
    (endnode : nat) : option (Z * Z) :=
  let res := List.filter (fun r : Z * OSMRestriction => r.1 =? wayid) restrictions in
  let '(trs, timedrestrictions) := through_node endnode res [] 0 in
  match trs with
  | [] => Some (0, timedrestrictions)
  | _ =>
      bundle ← collect_node_edges endnode nodes edges;
      wayids ← edge_wayids (b_edges bundle);
      mask ← restriction_mask trs wayids 0;
      Some (mask, timedrestrictions)
  end.
End TurnRestriction.

(** ** CreateExitSignInfoList *)

Module Signs.
Open Scope string_scope.

(** Modelled from the spec: [Sign::Type], [SignInfo] and the accessors of
    [OSMNode], [OSMWay] and [OSMData] that the function reads
    (baldr/signinfo.h, mjolnir/osmnode.h, mjolnir/osmway.h and
    mjolnir/osmdata.h are not part of the sources).  [UniqueNames::name]
    is taken as a function from the index; the three [unordered_map]s are
    partial functions from the node id, and [find(...)->second] on a
    missing id has no value. *)
Inductive SignType := kExitNumber | kExitBranch | kExitToward | kExitName.

Record SignInfo := mkSignInfo {
  sign_type : SignType;
  sign_text : string
}.

Record NodeTags := mkNodeTags {
  n_osmid : Z;
  ref : bool;
  exit_to : bool;
  name : bool
}.

Record WayTags := mkWayTags {
  junction_ref_index : Z;
  destination_ref_index : Z;
  destination_street_index : Z;
  destination_ref_to_index : Z;
  destination_street_to_index : Z;
  destination_index : Z
}.

Record OSMData := mkOSMData {
  ref_offset_map : Z -> string;
  name_offset_map : Z -> string;
  node_ref : Z -> option string;
  node_exit_to : Z -> option string;
  node_name : Z -> option string
}.

(** Modelled from the spec: [boost::algorithm::to_lower] in the classic
    locale: the letters A to Z move to a to z, every other character
    stays. *)
Definition lower (c : ascii) : ascii :=
  let n := nat_of_ascii c in
  if (65 <=? n)%nat && (n <=? 90)%nat then ascii_of_nat (n + 32) else c.

Fixpoint to_lower (s : string) : string :=
  match s with
  | EmptyString => EmptyString
  | String c s' => String (lower c) (to_lower s')
  end.

(** [boost::starts_with(s, pre)]. *)
Definition starts_with (s pre : string) : bool := String.prefix pre s.

(** [s.find(needle, pos)], [None] for [npos]. *)
Definition find (s needle : string) (pos : nat) : option nat :=
  String.index pos needle s.

Definition npos (found : option nat) : bool :=
  match found with None => true | Some _ => false end.

(** [s.substr(pos)], which throws [std::out_of_range] for a position
    beyond the end, and [s.substr(0, count)]. *)
Definition substr (s : string) (pos : nat) : option string :=
  if (String.length s <? pos)%nat then None
  else Some (String.substring pos (String.length s - pos) s).

Definition substr_to (s : string) (count : nat) : string :=
  String.substring 0 count s.

(** One round of the loop over [exit_tos]: the signs it appends. *)
Definition exit_to_signs (exit_to : string) : option (list SignInfo) :=
  let tmp := to_lower exit_to in
  if starts_with tmp "to " then
    t ← substr exit_to 3; Some [mkSignInfo kExitToward t]
  else if starts_with tmp "toward " then
    t ← substr exit_to 7; Some [mkSignInfo kExitToward t]
  else
    let toward_or_default :=
      match find tmp " toward " 0 with
      | Some found =>
          if npos (find tmp " toward " (found + 8)) && npos (find tmp " to " 0)
          then t ← substr exit_to (found + 8);
               Some [mkSignInfo kExitBranch (substr_to exit_to found);
                     mkSignInfo kExitToward t]
          else Some [mkSignInfo kExitToward exit_to]
      | None => Some [mkSignInfo kExitToward exit_to]
      end in
    match find tmp " to " 0 with
    | Some found =>
        if npos (find tmp " to " (found + 4)) && npos (find tmp " toward " 0)
        then t ← substr exit_to (found + 4);
             Some [mkSignInfo kExitBranch (substr_to exit_to found);
                   mkSignInfo kExitToward t]
        else toward_or_default
    | None => toward_or_default
    end.

(** The loop over [exit_tos]. *)
Fixpoint exit_to_loop (exit_tos : list string) (exit_list : list SignInfo)
    : option (list SignInfo) :=
  match exit_tos with
  | [] => Some exit_list
  | exit_to :: exit_tos' =>
      signs ← exit_to_signs exit_to;
      exit_to_loop exit_tos' (exit_list ++ signs)
  end.

(** A loop that appends every token of a tag value with one type. *)
Definition emplace_tokens (exit_list : list SignInfo) (t : SignType)
    (tag_value : string) : list SignInfo :=
  (exit_list ++ List.map (mkSignInfo t) (Tag.GetTagTokens tag_value ";"))%list.

Definition CreateExitSignInfoList (node : NodeTags) (way : WayTags)
    (osmdata : OSMData) : option (list SignInfo) :=
  let exit_list : list SignInfo := [] in
  (* NUMBER *)
  exit_list ←
    (if negb (junction_ref_index way =? 0)%Z
     then Some (exit_list ++
                [mkSignInfo kExitNumber
                   (ref_offset_map osmdata (junction_ref_index way))])%list
     else if ref node
     then r ← node_ref osmdata (n_osmid node);
          Some (exit_list ++ [mkSignInfo kExitNumber r])%list
     else Some exit_list);
  (* BRANCH *)
  let has_branch := false in
  let '(has_branch, exit_list) :=
    if negb (destination_ref_index way =? 0)%Z
    then (true, emplace_tokens exit_list kExitBranch
                  (ref_offset_map osmdata (destination_ref_index way)))
    else (has_branch, exit_list) in
  let '(has_branch, exit_list) :=
    if negb (destination_street_index way =? 0)%Z
    then (true, emplace_tokens exit_list kExitBranch
                  (name_offset_map osmdata (destination_street_index way)))
    else (has_branch, exit_list) in
  (* TOWARD *)
  let has_toward := false in
  let '(has_toward, exit_list) :=
    if negb (destination_ref_to_index way =? 0)%Z
    then (true, emplace_tokens exit_list kExitToward
                  (ref_offset_map osmdata (destination_ref_to_index way)))
    else (has_toward, exit_list) in
  let '(has_toward, exit_list) :=
    if negb (destination_street_to_index way =? 0)%Z
    then (true, emplace_tokens exit_list kExitToward
                  (name_offset_map osmdata (destination_street_to_index way)))
    else (has_toward, exit_list) in
  let '(has_toward, exit_list) :=
    if negb (destination_index way =? 0)%Z
    then (true, emplace_tokens exit_list kExitToward
                  (name_offset_map osmdata (destination_index way)))
    else (has_toward, exit_list) in
  (* exit_to, only if other branch or toward info does not exist *)
  exit_list ←
    (if negb has_branch && negb has_toward
     then if exit_to node
          then tag ← node_exit_to osmdata (n_osmid node);
               exit_to_loop (Tag.GetTagTokens tag ";") exit_list
          else Some exit_list
     else Some exit_list);
  (* NAME *)
  if name node
  then tag ← node_name osmdata (n_osmid node);
       Some (emplace_tokens exit_list kExitName tag)
  else Some exit_list.
End Signs.

(** ** The loop over the nodes of a tile in BuildTileSet *)

(** How far the loop has come: still in the loop after the rounds looked
    at, left through its condition, left through an exception, or without
    a value (an iterator read past the end). *)
Inductive tile_run (tile : Type) :=
  | StillRunning (t : tile)
  | Finished (t : tile)
  | Failed (what : string)
  | NoValue.

Arguments StillRunning {tile} t.
Arguments Finished {tile} t.
Arguments Failed {tile} what.
Arguments NoValue {tile}.

Section TileNodes.
(** What a round works on (the tile builder, the statistics and the
    counters) and what it does with the bundle (directed edges, edge
    info, signs and node info) are parameters: GraphTileBuilder and the
    builders of its parts are not part of the sources.  [inr] is an
    exception. *)
Variable tile : Type.
Variable add_node : nat -> node_bundle -> tile -> tile + string.

Variable nodes : list Node.
Variable edges : list Edge.

(** [while (node_itr != nodes.end())], for [rounds] rounds.  The body
    hands [node_itr] to [collect_node_edges], which takes it by const
    reference, and reads [node_itr.position()]; it assigns nothing to
    it. *)
Fixpoint node_loop (rounds : nat) (node_itr : nat) (t : tile) : tile_run tile :=
  match rounds with
  | O => StillRunning t
  | S rounds' =>
      if (node_itr =? length nodes)%nat then Finished t
      else
        match collect_node_edges node_itr nodes edges with
        | None => NoValue
        | Some bundle =>
            match add_node node_itr bundle t with
            | inl t' => node_loop rounds' node_itr t'
            | inr what => Failed what
            end
        end
  end.
End TileNodes.

(** ** Statements about the rest of the code *)

(** The references of a record that are set index an edge. *)
Definition refs_valid (edges : list Edge) (n : Node) : Prop :=
  (is_start n = true -> (Z.to_nat (start_of n) < length edges)%nat) /\
  (is_end n = true -> (Z.to_nat (end_of n) < length edges)%nat).

(** An entry of a bundle is an edge with the position it has. *)
Definition at_position (edges : list Edge) (pr : Edge * nat) : Prop :=
  edges !! pr.2 = Some pr.1.

Definition non_link (pr : Edge * nat) : Prop :=
  e_link (attributes pr.1) = false.

(** The ends of an edge are positions below [bound], the source not after
    the target. *)
Definition endpoints_in (bound : nat) (e : Edge) : Prop :=
  0 <= sourcenode_ e <= targetnode_ e /\ targetnode_ e < Z.of_nat bound.

(** Two edges that differ at most in their ends. *)
Definition same_but_ends (e e' : Edge) : Prop :=
  wayindex_ e = wayindex_ e' /\ llindex_ e = llindex_ e' /\
  attributes e = attributes e'.

(** ** More inputs *)

Module Runs.
Definition ndi (o : Z) (s e : Z) (l nl : bool) (i : Z) : Node :=
  mkNode (Inputs.osm o l nl) s e (mkGraphId 7 i).

(** What [SortGraph] makes of the two ways A -> B and B -> C. *)
Definition path_sorted : list Node :=
  [ndi 1 1 no_edge false true 0; ndi 1 1 no_edge false true 0;
   ndi 5 0 no_edge false true 1; ndi 9 no_edge 1 false true 2].
Definition path_relinked : list Edge :=
  [Inputs.ed 0 1 3 false; Inputs.ed 0 3 3 false].
Definition path_tiles : TileMap.t := [(mkGraphId 7 0, 0%nat)].
End Runs.

(** An edge after the reclassification: as it was, or a link edge with
    another importance. *)
Definition reclassified (e e' : Edge) : Prop :=
  e' = e \/
  (e_link (attributes e) = true /\
   exists rc, e' = with_attributes e (set_importance (attributes e) rc)).

(** The position holds a link edge. *)
Definition link_at (edges : list Edge) (idx : nat) : Prop :=
  exists e, edges !! idx = Some e /\ e_link (attributes e) = true.

(** Ranges that follow one another from [from] to [to]. *)
Fixpoint consecutive (from : nat) (ranges : list (nat * nat)) (to : nat) : Prop :=
  match ranges with
  | [] => from = to
  | r :: ranges' => r.1 = from /\ (r.1 <= r.2)%nat /\ consecutive r.2 ranges' to
  end.

(** The statistics of the workers that did not fail. *)
Fixpoint successes (results : list (DataQuality + string)) : list DataQuality :=
  match results with
  | [] => []
  | inl stat :: results' => stat :: successes results'
  | inr _ :: results' => successes results'
  end.

Module RefSpec2.
Import Tag RefSpec.
Open Scope string_scope.

(** [s] without the delimiters it begins with. *)
Fixpoint drop_leading (c : ascii) (s : string) : string :=
  match s with
  | EmptyString => EmptyString
  | String c' s' => if Ascii.eqb c' c then drop_leading c s' else s
  end.

(** The relation gives no ref of the way a direction. *)
Definition undirected (way_ref relation_ref : string) : bool :=
  forallb (fun ref =>
    match direction (GetTagTokens relation_ref ";") ref with
    | None => true
    | Some _ => false
    end) (GetTagTokens way_ref ";").
End RefSpec2.

(** Every link edge of the list is the edge at [edgeindex]. *)
Definition only_link (edgeindex : nat) (es : list (Edge * nat)) : Prop :=
  Forall (fun pr => e_link (attributes pr.1) = true -> pr.2 = edgeindex) es.

(** What [OnewayPairEdgesExist] looks for: an edge other than [edgeindex],
    not a link, of another way than [wayid], whose way is open to cars in
    one direction only, towards the node (inbound) or away from it. *)
Definition counted (ways : list OSMWay) (edgeindex : nat) (wayid : Z)
    (pr : Edge * nat) (w : OSMWay) : Prop :=
  pr.2 <> edgeindex /\ ways !! Z.to_nat (wayindex_ pr.1) = Some w /\
  way_id w <> wayid /\ e_link (attributes pr.1) = false.

Definition oneway_inbound (node_index : nat) (e : Edge) (w : OSMWay) : bool :=
  if sourcenode_ e =? Z.of_nat node_index
  then negb (auto_forward w) && auto_backward w
  else auto_forward w && negb (auto_backward w).

Definition oneway_outbound (node_index : nat) (e : Edge) (w : OSMWay) : bool :=
  if sourcenode_ e =? Z.of_nat node_index
  then auto_forward w && negb (auto_backward w)
  else negb (auto_forward w) && auto_backward w.

(** A short edge (edge 0, way 100) between the two carriageways of a
    divided road: at each of its ends S and T a one-way edge of way 101
    comes in and a one-way edge of way 102 goes out.  S is the run at
    positions 0 to 3, T the run at positions 4 to 7. *)
Module Crossing.
Definition edw (s t : Z) (w : Z) : Edge :=
  mkEdge s w 0 (mkEdgeAttributes 2 5 true true false false false false) t.

Definition ways : list OSMWay :=
  [mkOSMWay 100 5 true true false 2; mkOSMWay 101 5 true false false 3;
   mkOSMWay 102 5 true false false 3].

Definition nodes : list Node :=
  [Inputs.nd 1 no_edge no_edge false true; Inputs.nd 1 0 no_edge false true;
   Inputs.nd 1 no_edge 1 false true; Inputs.nd 1 2 no_edge false true;
   Inputs.nd 2 no_edge no_edge false true; Inputs.nd 2 no_edge 0 false true;
   Inputs.nd 2 no_edge 3 false true; Inputs.nd 2 4 no_edge false true;
   Inputs.nd 3 1 no_edge false true; Inputs.nd 4 no_edge 2 false true;
   Inputs.nd 5 3 no_edge false true; Inputs.nd 6 no_edge 4 false true].

Definition edges : list Edge :=
  [edw 0 4 0; edw 8 0 1; edw 0 9 2; edw 10 4 1; edw 4 11 2].

(** The edges collected at S. *)
Definition at_S : node_bundle :=
  mkBundle (Inputs.nd 1 no_edge no_edge false true) 4
    [(edw 0 4 0, 0%nat); (edw 8 0 1, 1%nat); (edw 0 9 2, 2%nat)].
End Crossing.

(** A ramp that forks: the link edge 1 leaves the junction at position 0
    for the node at 3, from where the link edges 2 and 3 go on to the
    nodes at 7 and 10, and from there the link edges 4 and 5 to the
    junctions at 13 and 16, each of which starts a road; the nodes at 3, 7
    and 10 have link edges only, and those at 7 and 10 wait in [expandset]
    together. *)
Module RampFork.
Definition nodes : list Node :=
  [Inputs.nd 1 no_edge no_edge true true; Inputs.nd 1 0 no_edge true true;
   Inputs.nd 1 1 no_edge true true;
   Inputs.nd 2 no_edge no_edge true false; Inputs.nd 2 no_edge 1 true false;
   Inputs.nd 2 2 no_edge true false; Inputs.nd 2 3 no_edge true false;
   Inputs.nd 3 no_edge no_edge true false; Inputs.nd 3 no_edge 2 true false;
   Inputs.nd 3 4 no_edge true false;
   Inputs.nd 4 no_edge no_edge true false; Inputs.nd 4 no_edge 3 true false;
   Inputs.nd 4 5 no_edge true false;
   Inputs.nd 5 no_edge no_edge true true; Inputs.nd 5 no_edge 4 true true;
   Inputs.nd 5 6 no_edge true true;
   Inputs.nd 6 no_edge no_edge true true; Inputs.nd 6 no_edge 5 true true;
   Inputs.nd 6 7 no_edge true true;
   Inputs.nd 7 no_edge 0 false true; Inputs.nd 8 no_edge 6 false true;
   Inputs.nd 9 no_edge 7 false true].

Definition edges : list Edge :=
  [Inputs.ed 0 19 2 false; Inputs.ed 0 3 1 true; Inputs.ed 3 7 1 true;
   Inputs.ed 3 10 1 true; Inputs.ed 7 13 1 true; Inputs.ed 10 16 1 true;
   Inputs.ed 13 20 3 false; Inputs.ed 16 21 4 false].
End RampFork.

(** ** Choices of [begin()] *)

(** The member inserted last. *)
Definition last_inserted : USet.chooser := fun s => (length s - 1)%nat.

(** ** Statements about IsNoThroughEdge *)

(** The edge leaves [n] for a node of [region], is not of tertiary class
    or better, and does not lead to [startnode]; the start edge is left
    out. *)
Definition stays_inside (tertiary : Z) (startnode startedgeindex : nat)
    (region : list nat) (n : nat) (pr : Edge * nat) : Prop :=
  pr.2 <> startedgeindex ->
  nextendnode n pr.1 <> startnode /\
  tertiary < importance (attributes pr.1) /\
  nextendnode n pr.1 ∈ region.

(** Every edge collected at [n] stays inside the region. *)
Definition enclosed (tertiary : Z) (nodes : list Node) (edges : list Edge)
    (startnode startedgeindex : nat) (region : list nat) (n : nat) : Prop :=
  exists bundle,
    collect_node_edges n nodes edges = Some bundle /\
    Forall (stays_inside tertiary startnode startedgeindex region n)
      (b_edges bundle).

(** An edge that ends the search: another edge than the start edge that
    leads to [startnode] or is of tertiary class or better. *)
Definition way_out (tertiary : Z) (startnode startedgeindex : nat) (n : nat)
    (pr : Edge * nat) : Prop :=
  pr.2 <> startedgeindex /\
  (nextendnode n pr.1 = startnode \/ importance (attributes pr.1) <= tertiary).

(** ** Statements about CreateSimpleTurnRestriction *)

(** The restrictions of the way that go through [endnode]. *)
Definition through (restrictions : list (Z * OSMRestriction)) (wayid : Z)
    (endnode : nat) (tr : OSMRestriction) : Prop :=
  (wayid, tr) ∈ restrictions /\ via_graphid tr = endnode.

(** The restriction forbids the turn onto the edge at position [i] of the
    bundle: for a "no" restriction the first edge of the way [to], for an
    "only" restriction every edge of another way. *)
Definition forbids (tr : OSMRestriction) (wayids : list Z) (i : nat) : Prop :=
  match type_ tr with
  | kNoLeftTurn | kNoRightTurn | kNoStraightOn | kNoUTurn =>
      wayids !! i = Some (to tr) /\
      forall j, (j < i)%nat -> wayids !! j <> Some (to tr)
  | kOnlyRightTurn | kOnlyLeftTurn | kOnlyStraightOn =>
      exists w, wayids !! i = Some w /\ w <> to tr
  | kOtherRestriction => False
  end.

(** The way ids of the edges of a bundle. *)
Definition bundle_wayids (ways : list OSMWay) (wayids : list Z)
    (es : list (Edge * nat)) : Prop :=
  Forall2 (fun id (pr : Edge * nat) =>
             exists w, ways !! Z.to_nat (wayindex_ pr.1) = Some w /\ way_id w = id)
    wayids es.

(** Every restriction of the way through [endnode] is a timed one. *)
Definition only_timed (restrictions : list (Z * OSMRestriction)) (wayid : Z)
    (endnode : nat) : Prop :=
  Forall (fun r : Z * OSMRestriction =>
            r.1 = wayid -> via_graphid r.2 = endnode -> timed r.2 = true)
    restrictions.

(** The timed restrictions of the way through [endnode]. *)
Definition timed_through (wayid : Z) (endnode : nat) (r : Z * OSMRestriction) : bool :=
  (r.1 =? wayid) && (via_graphid r.2 =? endnode)%nat && timed r.2.

Module Turns.
(** From way 101 through S (position 0): no turn onto way 102, and a
    timed restriction; from way 100 through T (position 4) a timed
    restriction only. *)
Definition restrictions : list (Z * OSMRestriction) :=
  [(101, mkOSMRestriction 0 kNone kNoLeftTurn 102);
   (101, mkOSMRestriction 0 kSomeDay kNoRightTurn 100);
   (102, mkOSMRestriction 4 kNone kOnlyStraightOn 102);
   (100, mkOSMRestriction 4 kSomeDay kNoLeftTurn 102)].
End Turns.

(** ** Statements about CreateExitSignInfoList *)

Module SignSpec.
Import Signs.
Open Scope string_scope.

(** The way carries destination tags: branch or toward information. *)
Definition has_destination (way : WayTags) : bool :=
  negb (destination_ref_index way =? 0)%Z
  || negb (destination_street_index way =? 0)%Z
  || negb (destination_ref_to_index way =? 0)%Z
  || negb (destination_street_to_index way =? 0)%Z
  || negb (destination_index way =? 0)%Z.

(** The signs of the way's destination tags, in the order the function
    goes through them. *)
Definition destination_signs (way : WayTags) (osmdata : OSMData) : list SignInfo :=
  ((if negb (destination_ref_index way =? 0)%Z
    then emplace_tokens [] kExitBranch
           (ref_offset_map osmdata (destination_ref_index way)) else []) ++
   (if negb (destination_street_index way =? 0)%Z
    then emplace_tokens [] kExitBranch
           (name_offset_map osmdata (destination_street_index way)) else []) ++
   (if negb (destination_ref_to_index way =? 0)%Z
    then emplace_tokens [] kExitToward
           (ref_offset_map osmdata (destination_ref_to_index way)) else []) ++
   (if negb (destination_street_to_index way =? 0)%Z
    then emplace_tokens [] kExitToward
           (name_offset_map osmdata (destination_street_to_index way)) else []) ++
   (if negb (destination_index way =? 0)%Z
    then emplace_tokens [] kExitToward
           (name_offset_map osmdata (destination_index way)) else []))%list.

(** The exit number sign: the way's junction ref, else the node's ref. *)
Definition number_signs (node : NodeTags) (way : WayTags) (osmdata : OSMData)
    : option (list SignInfo) :=
  if negb (junction_ref_index way =? 0)%Z
  then Some [mkSignInfo kExitNumber
               (ref_offset_map osmdata (junction_ref_index way))]
  else if ref node
  then r ← node_ref osmdata (n_osmid node); Some [mkSignInfo kExitNumber r]
  else Some [].

(** The signs read from the node's [exit_to] tag. *)
Definition exit_to_part (node : NodeTags) (way : WayTags) (osmdata : OSMData)
    : option (list SignInfo) :=
  if has_destination way then Some []
  else if exit_to node
  then tag ← node_exit_to osmdata (n_osmid node);
       exit_to_loop (Tag.GetTagTokens tag ";") []
  else Some [].

(** The signs of the node's name. *)
Definition name_signs (node : NodeTags) (osmdata : OSMData)
    : option (list SignInfo) :=
  if name node
  then tag ← node_name osmdata (n_osmid node);
       Some (emplace_tokens [] kExitName tag)
  else Some [].

Definition branch_or_toward (s : SignInfo) : Prop :=
  sign_type s = kExitBranch \/ sign_type s = kExitToward.

Definition not_number (s : SignInfo) : Prop := sign_type s <> kExitNumber.

(** A map entry the function needs is missing. *)
Definition missing_entry (node : NodeTags) (way : WayTags) (osmdata : OSMData)
    : Prop :=
  (junction_ref_index way = 0 /\ ref node = true /\
   node_ref osmdata (n_osmid node) = None) \/
  (has_destination way = false /\ exit_to node = true /\
   node_exit_to osmdata (n_osmid node) = None) \/
  (name node = true /\ node_name osmdata (n_osmid node) = None).

Definition with_exit_to (node : NodeTags) (b : bool) : NodeTags :=
  mkNodeTags (n_osmid node) (ref node) b (name node).

Definition with_node_exit_to (osmdata : OSMData) (m : Z -> option string)
    : OSMData :=
  mkOSMData (ref_offset_map osmdata) (name_offset_map osmdata)
    (node_ref osmdata) m (node_name osmdata).

(** An exit node of a link way with a destination tag. *)
Definition exit_node : NodeTags := mkNodeTags 42 true true false.
Definition exit_way : WayTags := mkWayTags 0 0 0 0 0 3.
Definition exit_data : OSMData :=
  mkOSMData (fun _ => "") (fun i => if (i =? 3)%Z then "Harrisburg;Carlisle" else "")
    (fun o => if (o =? 42)%Z then Some "51A" else None)
    (fun o => if (o =? 42)%Z then Some "I 95 to I 695" else None)
    (fun _ => None).
End SignSpec.

(** ** Statements about the node loop of BuildTileSet *)

Definition finished {tile : Type} (r : tile_run tile) : Prop :=
  match r with Finished _ => True | _ => False end.

Definition still_running {tile : Type} (r : tile_run tile) : Prop :=
  match r with StillRunning _ => True | _ => False end.

(** * Properties *)

(** ** GetBestNonLinkClass *)

Lemma bits_range (n v : Z) : 0 <= n -> 0 <= bits n v < 2 ^ n.
Proof.
  intros Hn. unfold bits. apply Z.mod_pos_bound. apply Z.pow_pos_nonneg; lia.
Qed.

Lemma best_step_link (bestrc : Z) (edge : Edge * nat) :
  e_link (attributes edge.1) = true -> best_step bestrc edge = bestrc.
Proof. intros H. unfold best_step. now rewrite H. Qed.

Lemma fold_best_links (edges : list (Edge * nat)) (bestrc : Z) :
  Forall (fun p => e_link (attributes p.1) = true) edges ->
  fold_left best_step edges bestrc = bestrc.
Proof.
  intros H. revert bestrc.
  induction H as [|edge edges Hl _ IH]; intros bestrc; simpl.
  - reflexivity.
  - rewrite best_step_link by exact Hl. apply IH.
Qed.

(** C10: when every edge of the list is a link edge, [GetBestNonLinkClass]
    returns [kAbsurdRoadClass], which is 777777; whatever is stored in the
    3-bit importance field reads back as a value below 8, so the field cannot
    hold this value. *)
Theorem GetBestNonLinkClass_only_links (edges : list (Edge * nat)) :
  Forall (fun p => e_link (attributes p.1) = true) edges ->
  GetBestNonLinkClass edges = kAbsurdRoadClass /\
  kAbsurdRoadClass = 777777 /\
  forall a v, 0 <= importance (set_importance a v) < 2 ^ 3 /\
              importance (set_importance a v) < kAbsurdRoadClass.
Proof.
  intros H. split; [|split].
  - unfold GetBestNonLinkClass. now apply fold_best_links.
  - reflexivity.
  - intros a v. simpl. pose proof (bits_range 3 v ltac:(lia)) as Hb.
    unfold kAbsurdRoadClass. change (2 ^ 3) with 8 in *. lia.
Qed.

Lemma GetBestNonLinkClass_only_links_witness :
  GetBestNonLinkClass [(Inputs.ed 0 2 5 true, 0%nat)] = kAbsurdRoadClass /\
  kAbsurdRoadClass = 777777 /\
  forall a v, 0 <= importance (set_importance a v) < 2 ^ 3 /\
              importance (set_importance a v) < kAbsurdRoadClass.
Proof.
  apply (GetBestNonLinkClass_only_links [(Inputs.ed 0 2 5 true, 0%nat)]).
  repeat constructor.
Defined.

(** ** collect_node_edges *)

Lemma collect_one_refs (edges : list Edge) (n : Node) (acc acc' : list (Edge * nat)) :
  collect_one edges n acc = Some acc' -> acc' = acc ++ node_refs edges n.
Proof.
  unfold collect_one, node_refs. intros H.
  destruct (is_start n), (is_end n); simpl in H;
    repeat match type of H with
    | context [edge_ref edges ?i] => destruct (edge_ref edges i); simpl in H
    end;
    try discriminate; injection H as <-; simpl;
    rewrite ?app_nil_r, <- ?app_assoc; reflexivity.
Qed.

Lemma collect_loop_refs (edges : list Edge) (osm : Z) (rest : list Node) :
  forall acc steps es k,
    collect_loop rest osm edges acc steps = Some (es, k) ->
    es = acc ++ flat_map (node_refs edges) (same_id_prefix osm rest) /\
    k = (steps + length (same_id_prefix osm rest))%nat.
Proof.
  induction rest as [|n rest IH]; intros acc steps es k H; simpl in *.
  - injection H as <- <-. rewrite app_nil_r. split; [reflexivity | lia].
  - destruct (osmid (node n) =? osm).
    + destruct (collect_one edges n acc) as [acc'|] eqn:Hone; simpl in H;
        [|discriminate].
      apply collect_one_refs in Hone as ->.
      apply IH in H as [-> ->]. simpl. rewrite <- app_assoc. split; [reflexivity | lia].
    + injection H as <- <-. simpl. rewrite app_nil_r. split; [reflexivity | lia].
Qed.

(** What [collect_node_edges] returns in general: the count is the length of
    the run, and the edges are those of the records after the first. *)
Lemma collect_node_edges_run (p : nat) (nodes : list Node) (edges : list Edge)
    (b : node_bundle) :
  collect_node_edges p nodes edges = Some b ->
  nodes !! p = Some (b_node b) /\
  b_node_count b = length (run_at nodes p) /\
  b_edges b = flat_map (node_refs edges) (tail (run_at nodes p)).
Proof.
  unfold collect_node_edges, run_at, Seq.at_. intros H.
  destruct (nodes !! p) as [first|]; simpl in H; [|discriminate].
  destruct (collect_loop _ _ _ _ _) as [[es k]|] eqn:Hloop; simpl in H;
    [|discriminate].
  injection H as <-. apply collect_loop_refs in Hloop as [-> ->]. simpl.
  repeat split; reflexivity.
Qed.

(** C4: on a run of one record that starts edge 0, [collect_node_edges]
    returns the count 1 and an empty edge list, although the record of the
    run has one non-sentinel [start_of]; the position handed in is an
    argument by value and is the same after the call. *)
Theorem collect_node_edges_misses_first_record :
  let nodes := [Inputs.nd 1 0 no_edge false true; Inputs.nd 2 no_edge 0 false true] in
  let edges := [Inputs.ed 0 1 3 false] in
  collect_node_edges 0 nodes edges = Some (mkBundle (Inputs.nd 1 0 no_edge false true) 1 []) /\
  run_at nodes 0 = [Inputs.nd 1 0 no_edge false true] /\
  flat_map (node_refs edges) (run_at nodes 0) = [(Inputs.ed 0 1 3 false, 0%nat)].
Proof. vm_compute. repeat split; reflexivity. Qed.

(** ** SortGraph *)

(** C1: on the two ways A -> B and B -> C, after [SortGraph] edge 0 still
    has the positions its ends had before the sort: its target 1 is the
    second record of the run of B, not the first, and its source 0 is in the
    run of B although the edge starts at A, whose record is now at
    position 2.  With the two records of B in the other order there are
    again an edge end at a second record and an edge that does not follow
    its node. *)
Theorem SortGraph_leaves_stale_endpoints :
  (exists tiles nodes edges e0 a,
     SortGraph Inputs.path_nodes Inputs.path_edges = Some (tiles, nodes, edges) /\
     edges !! 0%nat = Some e0 /\
     targetnode_ e0 = 1 /\ run_first nodes 1 = 0%nat /\
     sourcenode_ e0 = 0 /\
     nodes !! 2%nat = Some a /\ start_of a = 0 /\ run_first nodes 2 = 2%nat /\
     endpoints_canonical nodes edges = false /\
     endpoints_follow_records nodes edges = false) /\
  (exists tiles nodes edges,
     SortGraph Inputs.path_nodes_swapped Inputs.path_edges_swapped
       = Some (tiles, nodes, edges) /\
     endpoints_canonical nodes edges = false /\
     endpoints_follow_records nodes edges = false).
Proof.
  split.
  - destruct (SortGraph Inputs.path_nodes Inputs.path_edges)
      as [[[tiles nodes] edges]|] eqn:H; vm_compute in H; [|discriminate].
    injection H as <- <- <-.
    do 5 eexists. split; [reflexivity|].
    split; [reflexivity|]. vm_compute. repeat split; reflexivity.
  - destruct (SortGraph Inputs.path_nodes_swapped Inputs.path_edges_swapped)
      as [[[tiles nodes] edges]|] eqn:H; vm_compute in H; [|discriminate].
    injection H as <- <- <-.
    do 3 eexists. split; [reflexivity|]. vm_compute. split; reflexivity.
Qed.

(** C5: on a link way X -> Y and a road Z -> Y the run of Y is the last one
    of the sorted sequence.  After [SortGraph] its second record has
    [non_link_edge] set and its first record, at position 2, has not; the
    records had the same flags before the pass.  With the two records of Y
    in the other order the first record of the run lacks [link_edge]. *)
Theorem SortGraph_last_run_not_written_back :
  (exists tiles nodes edges first second,
     SortGraph Inputs.fork_nodes Inputs.fork_edges = Some (tiles, nodes, edges) /\
     length nodes = 4%nat /\
     nodes !! 2%nat = Some first /\ nodes !! 3%nat = Some second /\
     run_first nodes 3 = 2%nat /\
     non_link_edge (node second) = true /\
     non_link_edge (node first) = false /\
     flags_reduced nodes = false /\
     (non_link_edge ∘ node) <$> SeqSort.sort node_less Inputs.fork_nodes
       = [false; true; false; true]) /\
  (exists tiles nodes edges first second,
     SortGraph Inputs.fork_nodes_swapped Inputs.fork_edges_swapped
       = Some (tiles, nodes, edges) /\
     nodes !! 2%nat = Some first /\ nodes !! 3%nat = Some second /\
     run_first nodes 3 = 2%nat /\
     link_edge (node second) = true /\
     link_edge (node first) = false /\
     flags_reduced nodes = false).
Proof.
  split.
  - destruct (SortGraph Inputs.fork_nodes Inputs.fork_edges)
      as [[[tiles nodes] edges]|] eqn:H; vm_compute in H; [|discriminate].
    injection H as <- <- <-.
    do 5 eexists. split; [reflexivity|]. vm_compute. repeat split; reflexivity.
  - destruct (SortGraph Inputs.fork_nodes_swapped Inputs.fork_edges_swapped)
      as [[[tiles nodes] edges]|] eqn:H; vm_compute in H; [|discriminate].
    injection H as <- <- <-.
    do 5 eexists. split; [reflexivity|]. vm_compute. repeat split; reflexivity.
Qed.

(** ** ConstructEdges: the edge references of the emitted nodes *)

Section NodeReferences.
Variable graph_id_predicate : OSMNode -> GraphId.
Variable ways : list OSMWay.
Variable way_nodes : list OSMWayNode.

Lemma patch_last_start_refs (nodes nodes' : list Node) :
  Forall (refs_way_count ways) nodes ->
  patch_last_start nodes (Z.of_nat (length ways)) = Some nodes' ->
  Forall (refs_way_count ways) nodes'.
Proof.
  unfold patch_last_start, Seq.set. intros Hall H.
  destruct (last nodes) as [n|] eqn:Hlast; simpl in H; [|discriminate].
  destruct (decide _); [|discriminate]. injection H as <-.
  apply Forall_insert; [exact Hall|].
  assert (Hn : refs_way_count ways n).
  { rewrite Forall_forall in Hall. apply Hall.
    rewrite last_lookup in Hlast. eapply list_elem_of_lookup_2; eauto. }
  destruct Hn as [_ He]. split; simpl; [|exact He].
  right. reflexivity.
Qed.

Lemma inner_loop_refs (fuel : nat) :
  forall way last_idx cur edge nodes edges cur' nodes' edges',
    Forall (refs_way_count ways) nodes ->
    inner_loop graph_id_predicate ways way_nodes fuel way last_idx cur edge nodes edges
      = Some (cur', nodes', edges') ->
    Forall (refs_way_count ways) nodes'.
Proof.
  induction fuel as [|fuel IH]; intros way last_idx cur edge nodes edges
    cur' nodes' edges' Hall H; simpl in H; [discriminate|].
  destruct (decide _); [|injection H as <- <- <-; exact Hall].
  destruct (Seq.at_ way_nodes (S cur)) as [way_node|]; simpl in H; [|discriminate].
  assert (Hpush : Forall (refs_way_count ways)
            (Seq.push_back nodes
               (mkNode (mark_link (wn_node way_node) way) no_edge
                  (u32 (Z.of_nat (length ways)))
                  (graph_id_predicate (mark_link (wn_node way_node) way))))).
  { apply Forall_app. split; [exact Hall|]. constructor; [|constructor].
    split; simpl; [left | right]; reflexivity. }
  destruct (intersection (wn_node way_node)).
  - destruct (negb _).
    + destruct (patch_last_start _ _) as [patched|] eqn:Hpatch; simpl in H;
        [|discriminate].
      eapply IH; [|exact H]. eapply patch_last_start_refs; eauto.
    + injection H as <- <- <-. exact Hpush.
  - eapply IH; [|exact H]. exact Hall.
Qed.

#[local] Arguments inner_loop : simpl never.

Lemma outer_loop_refs (fuel : nat) :
  forall cur nodes edges nodes' edges',
    Forall (refs_way_count ways) nodes ->
    outer_loop graph_id_predicate ways way_nodes fuel cur nodes edges
      = Some (nodes', edges') ->
    Forall (refs_way_count ways) nodes'.
Proof.
  induction fuel as [|fuel IH]; intros cur nodes edges nodes' edges' Hall H;
    simpl in H; [discriminate|].
  destruct (decide _); [|injection H as <- <-; exact Hall].
  destruct (Seq.at_ way_nodes cur) as [first|]; simpl in H; [|discriminate].
  destruct (Seq.at_ ways (way_index first)) as [way|]; simpl in H; [|discriminate].
  destruct (inner_loop _ _ _ _ _ _ _ _ _ _) as [[[cur1 nodes1] edges1]|] eqn:Hin;
    simpl in H; [|discriminate].
  eapply IH; [|exact H]. eapply inner_loop_refs; [|exact Hin].
  apply Forall_app. split; [exact Hall|]. constructor; [|constructor].
  split; simpl; [right | left]; reflexivity.
Qed.

(** Whatever the input, a non-sentinel [start_of] or [end_of] written by
    [ConstructEdges] is the number of ways, not the position of an edge. *)
Lemma ConstructEdges_refs (nodes : list Node) (edges : list Edge) :
  ConstructEdges graph_id_predicate ways way_nodes = Some (nodes, edges) ->
  Forall (refs_way_count ways) nodes.
Proof. apply outer_loop_refs. constructor. Qed.
End NodeReferences.

(** C2: for one way of two way-nodes, both intersections, the first node
    comes out with [start_of] = 1, the number of ways, and there is no edge
    at position 1; for one way of three way-nodes the middle node comes out
    with [start_of] = 1, and the edge at position 1 has source 2, not the
    position 1 of that node. *)
Theorem ConstructEdges_start_of_is_way_count :
  (exists nodes edges n0,
     ConstructEdges Inputs.in_tile [Inputs.way2]
       [Inputs.wn 1 true 0; Inputs.wn 2 true 0] = Some (nodes, edges) /\
     nodes !! 0%nat = Some n0 /\ is_start n0 = true /\ start_of n0 = 1 /\
     length edges = 1%nat /\ edges !! Z.to_nat (start_of n0) = None) /\
  (exists nodes edges n1 e1,
     ConstructEdges Inputs.in_tile [Inputs.way3]
       [Inputs.wn 1 true 0; Inputs.wn 2 true 0; Inputs.wn 3 true 0] = Some (nodes, edges) /\
     nodes !! 1%nat = Some n1 /\ is_start n1 = true /\
     edges !! Z.to_nat (start_of n1) = Some e1 /\ sourcenode_ e1 = 2).
Proof.
  split.
  - destruct (ConstructEdges _ _ _) as [[nodes edges]|] eqn:H;
      vm_compute in H; [|discriminate].
    injection H as <- <-. do 3 eexists. split; [reflexivity|].
    vm_compute. repeat split; reflexivity.
  - destruct (ConstructEdges _ _ _) as [[nodes edges]|] eqn:H;
      vm_compute in H; [|discriminate].
    injection H as <- <-. do 4 eexists. split; [reflexivity|].
    vm_compute. repeat split; reflexivity.
Qed.

(** ** ReclassifyLinks *)

(** The update loop is right as long as the class fits the field: no
    importance gets smaller. *)
Lemma raise_importance_fitting (rc : Z) (idxs : list nat) :
  0 <= rc < 2 ^ 3 ->
  forall edges count edges' count',
    raise_importance rc idxs edges count = Some (edges', count') ->
    forall i e, edges !! i = Some e ->
      exists e', edges' !! i = Some e' /\
                 importance (attributes e) <= importance (attributes e').
Proof.
  intros Hrc. induction idxs as [|idx idxs IH]; intros edges count edges' count' H i e Hi;
    simpl in H.
  - injection H as <- <-. exists e. split; [exact Hi | lia].
  - unfold Seq.at_, Seq.set in H.
    destruct (edges !! idx) as [edge|] eqn:Hidx; simpl in H; [|discriminate].
    destruct (rc >? importance (attributes edge)) eqn:Hgt.
    + destruct (decide _) as [Hlt|]; simpl in H; [|discriminate].
      destruct (decide (i = idx)) as [->|Hne].
      * assert (e = edge) as -> by congruence.
        eapply IH in H as (e' & He' & Hle);
          [|apply list_lookup_insert_eq; exact Hlt].
        exists e'. split; [exact He'|]. simpl in Hle.
        unfold bits in Hle. rewrite Z.mod_small in Hle by lia. lia.
      * eapply IH in H; [exact H|].
        rewrite list_lookup_insert_ne by congruence. exact Hi.
    + eapply IH in H; eauto.
Qed.

(** With fewer than two classes collected the start edge is reported and
    the edges stay as they are. *)
Lemma frontier_empty_unconnected ways (st st' : link_state) (startedge : Edge * nat) :
  (length (endrc st) < 2)%nat ->
  frontier_empty ways st startedge = Some st' ->
  l_edges st' = l_edges st /\
  exists way, ways !! Z.to_nat (wayindex_ startedge.1) = Some way /\
    issues (l_stats st')
    = issues (l_stats st) ++ [(kUnconnectedLinkEdge, way_id way)].
Proof.
  intros Hlen. unfold frontier_empty, Seq.at_.
  destruct (Nat.ltb_spec (length (endrc st)) 2) as [_|Hge]; [|lia].
  destruct (ways !! Z.to_nat (wayindex_ startedge.1)) as [way|]; simpl;
    [|discriminate].
  intros H. injection H as <-. simpl. split; [reflexivity|].
  exists way. split; reflexivity.
Qed.

(** C6: on the ramp between two junctions that each start a primary road,
    the frontier is empty at once with [endrc] = [777777; 777777]; the ramp
    (edge 0) had importance 5 and has importance 1 after [ReclassifyLinks],
    a smaller value, and not the 777777 taken from [endrc]. *)
Theorem ReclassifyLinks_lowers_importance
    (begin_ : nat -> nat -> nat -> USet.chooser) :
  exists edges stats before after,
    ReclassifyLinks [Inputs.way2] Inputs.ramp_nodes begin_ Inputs.ramp_edges
      (mkDataQuality []) = Some (edges, stats) /\
    Inputs.ramp_edges !! 0%nat = Some before /\ edges !! 0%nat = Some after /\
    e_link (attributes before) = true /\
    importance (attributes before) = 5 /\ importance (attributes after) = 1 /\
    (b_edges <$> collect_node_edges 0 Inputs.ramp_nodes Inputs.ramp_edges) ≫=
      (fun es => Some (GetBestNonLinkClass es)) = Some kAbsurdRoadClass.
Proof.
  destruct (ReclassifyLinks _ _ _ _ _) as [[edges stats]|] eqn:H;
    vm_compute in H; [|discriminate].
  injection H as <- <-. do 4 eexists. split; [reflexivity|].
  vm_compute. repeat split; reflexivity.
Qed.

(** ** BuildLocalTiles and Build *)

Lemma divvy_length (todo : nat) :
  forall i floor at_ceiling tile_end,
    length (divvy todo i floor at_ceiling tile_end) = todo.
Proof.
  induction todo as [|todo IH]; intros; simpl; [reflexivity|].
  now rewrite IH.
Qed.

(** The number of threads [BuildLocalTiles] starts is its first argument. *)
Lemma BuildLocalTiles_threads BuildTileSet AddStatistics
    (thread_count : Z) nodes edges tiles stats ranges out :
  BuildLocalTiles BuildTileSet AddStatistics thread_count nodes edges tiles stats
    = Some (ranges, out) ->
  length ranges = Z.to_nat (u32 thread_count).
Proof.
  unfold BuildLocalTiles. destruct (decide _); [discriminate|].
  intros H. injection H as <- _. apply divvy_length.
Qed.

(** The number of threads a run of [Build] starts is the level. *)
Lemma Build_threads_unused BuildTileSet AddStatistics graph_id_predicate begin_
    pt (hardware_concurrency level : Z) ways way_nodes ranges out :
  Build BuildTileSet AddStatistics graph_id_predicate begin_ pt hardware_concurrency
    level ways way_nodes = Some (ranges, out) ->
  length ranges = Z.to_nat (u32 level).
Proof.
  unfold Build. intros H.
  destruct (ConstructEdges _ _ _) as [[nodes edges]|]; simpl in H; [|discriminate].
  destruct (SortGraph _ _) as [[[tiles nodes'] edges']|]; simpl in H; [|discriminate].
  destruct (ReclassifyLinks _ _ _ _ _) as [[edges'' stats]|]; simpl in H; [|discriminate].
  eapply BuildLocalTiles_threads; exact H.
Qed.

(** C7: with [concurrency] = 4 in the configuration, 8 hardware threads and
    the tile level 2, [Build] computes 4 for its [threads] and starts two
    workers, one for each unit of the level. *)
Theorem Build_starts_level_many_workers
    (begin_ : nat -> nat -> nat -> USet.chooser) :
  let pt := mkPtree (Some 4) in
  exists ranges out,
    Build Inputs.quiet_worker Inputs.merge Inputs.in_tile begin_ pt 8 2 [Inputs.way2]
      [Inputs.wn 1 true 0; Inputs.wn 2 true 0] = Some (ranges, out) /\
    Build_threads pt 8 = 4 /\
    length ranges = 2%nat.
Proof.
  intros pt.
  destruct (Build _ _ _ _ _ _ _ _ _) as [[ranges out]|] eqn:H;
    vm_compute in H; [|discriminate].
  injection H as <- <-. do 2 eexists. split; [reflexivity|].
  vm_compute. split; reflexivity.
Qed.

(** No list of worker results makes the check of the outcomes throw. *)
Lemma check_outcomes_returns AddStatistics (results : list (DataQuality + string)) :
  forall stats, exists s, check_outcomes AddStatistics results stats = Returned s.
Proof.
  induction results as [|[stat|e] results IH]; intros stats; simpl; eauto.
Qed.

(** C8: two workers over two tiles that both end with a recorded exception:
    both are run, and [BuildLocalTiles] returns to its caller with the
    statistics it was given; no exception leaves it. *)
Theorem BuildLocalTiles_swallows_exceptions :
  let tiles := [(mkGraphId 1 0, 0%nat); (mkGraphId 2 0, 1%nat)] in
  let stats := mkDataQuality [] in
  BuildLocalTiles Inputs.failing_worker Inputs.merge 2 [] [] tiles stats
    = Some ([(0%nat, 1%nat); (1%nat, 2%nat)], Returned stats) /\
  map (fun r : nat * nat => Inputs.failing_worker [] [] r.1 r.2)
      [(0%nat, 1%nat); (1%nat, 2%nat)] = [inr "tile"%string; inr "tile"%string].
Proof. vm_compute. split; reflexivity. Qed.

(** ** ConstructEdges: where edges are closed *)

Lemma cut_bounds (rest : list OSMWayNode) :
  forall start len,
    Forall (fun sp : nat * nat =>
              (start <= sp.1 /\ sp.1 + sp.2 <= start + len + length rest)%nat)
           (cut start len rest).
Proof.
  induction rest as [|wn rest IH]; intros start len; simpl; [constructor|].
  destruct (intersection (wn_node wn)).
  - constructor; [simpl; lia|].
    eapply Forall_impl; [apply IH|]. simpl. intros sp. lia.
  - eapply Forall_impl; [apply IH|]. simpl. intros sp. lia.
Qed.

Lemma spans_of_cut_bounds (blocks : list (list OSMWayNode)) :
  Forall (fun b => b <> []) blocks ->
  forall offset,
    Forall (fun sp : nat * nat =>
              exists k b, blocks !! k = Some b /\
                (offset + length (concat (take k blocks)) <= sp.1 /\
                 sp.1 + sp.2 <= offset + length (concat (take k blocks)) + length b)%nat)
           (spans_of cut offset blocks).
Proof.
  induction 1 as [|b blocks Hb _ IH]; intros offset; simpl; [constructor|].
  apply Forall_app. split.
  - eapply Forall_impl; [apply cut_bounds|]. simpl. intros sp Hsp.
    exists 0%nat, b. split; [reflexivity|]. simpl.
    destruct b as [|first rest]; [congruence|]. simpl in *. lia.
  - eapply Forall_impl; [apply IH|]. simpl. intros sp (k & b' & Hk & Hsp).
    exists (S k), b'. split; [exact Hk|]. simpl. rewrite length_app. lia.
Qed.

Lemma blocks_length (ways : list OSMWay) (blocks : list (list OSMWayNode)) :
  Forall (way_block ways) blocks ->
  (length blocks <= length (concat blocks))%nat.
Proof.
  induction 1 as [|b blocks [Hb _] _ IH]; simpl; [lia|].
  rewrite length_app. lia.
Qed.

Lemma u32_small (v : Z) : 0 <= v < 2 ^ 32 -> u32 v = v.
Proof. intros H. unfold u32, bits. now apply Z.mod_small. Qed.

Section EdgeClosing.
Variable graph_id_predicate : OSMNode -> GraphId.
Variable ways : list OSMWay.
Variable way_nodes : list OSMWayNode.
Hypothesis way_nodes_fit : Z.of_nat (length way_nodes) < 2 ^ 32.

Lemma span_bump (e : Edge) (s len : nat) :
  span e = Zspan (s, len) -> Z.of_nat (S len) < 2 ^ 16 ->
  span (bump_llcount e) = Zspan (s, S len).
Proof.
  unfold span, Zspan. simpl. intros H Hlen. injection H as -> ->.
  unfold bits. rewrite Z.mod_small by lia. f_equal. lia.
Qed.

Lemma patch_last_start_length (nodes : list Node) (v : Z) :
  nodes <> [] ->
  exists nodes', patch_last_start nodes v = Some nodes' /\
                 length nodes' = length nodes.
Proof.
  intros Hne. unfold patch_last_start, Seq.set.
  destruct (last nodes) as [n|] eqn:Hlast.
  - simpl. destruct (decide _) as [|Hge].
    + eexists. split; [reflexivity|]. apply length_insert.
    + destruct nodes; [congruence|]. simpl in Hge. lia.
  - apply last_None in Hlast. congruence.
Qed.

(** One round of the inner loop, by the way-node it reads. *)

Lemma inner_loop_shape_point fuel way last_idx cur edge nodes edges wn :
  way_nodes !! S cur = Some wn -> intersection (wn_node wn) = false ->
  inner_loop graph_id_predicate ways way_nodes (S fuel) way last_idx cur edge nodes edges
  = inner_loop graph_id_predicate ways way_nodes fuel way last_idx (S cur)
      (signal_edge (bump_llcount edge) wn) nodes edges.
Proof.
  intros Hwn Hflag. pose proof (lookup_lt_Some _ _ _ Hwn) as Hlt.
  cbn [inner_loop]. unfold Seq.at_.
  destruct (decide (cur < length way_nodes)%nat); [|lia].
  rewrite Hwn. cbn [mbind option_bind]. rewrite Hflag. reflexivity.
Qed.

Lemma inner_loop_way_end fuel way cur edge nodes edges wn :
  way_nodes !! S cur = Some wn -> intersection (wn_node wn) = true ->
  inner_loop graph_id_predicate ways way_nodes (S fuel) way (Z.of_nat (S cur))
    cur edge nodes edges
  = Some (S (S cur), Seq.push_back nodes (end_node graph_id_predicate ways wn way),
          Seq.push_back edges (closed_edge edge nodes)).
Proof.
  intros Hwn Hflag. pose proof (lookup_lt_Some _ _ _ Hwn) as Hlt.
  cbn [inner_loop]. unfold Seq.at_.
  destruct (decide (cur < length way_nodes)%nat); [|lia].
  rewrite Hwn. cbn [mbind option_bind]. rewrite Hflag, Z.eqb_refl. reflexivity.
Qed.

Lemma inner_loop_joint fuel way last_idx cur edge nodes edges wn :
  way_nodes !! S cur = Some wn -> intersection (wn_node wn) = true ->
  Z.of_nat (S cur) <> last_idx ->
  inner_loop graph_id_predicate ways way_nodes (S fuel) way last_idx cur edge nodes edges
  = patched ← patch_last_start (Seq.push_back nodes (end_node graph_id_predicate ways wn way))
                (Z.of_nat (length ways));
    inner_loop graph_id_predicate ways way_nodes fuel way last_idx (S cur)
      (make_edge (Z.of_nat (length (Seq.push_back nodes (end_node graph_id_predicate ways wn way))))
         (Z.of_nat (way_index wn)) (Z.of_nat (S cur)) way)
      patched (Seq.push_back edges (closed_edge edge nodes)).
Proof.
  intros Hwn Hflag Hne. pose proof (lookup_lt_Some _ _ _ Hwn) as Hlt.
  cbn [inner_loop]. unfold Seq.at_.
  destruct (decide (cur < length way_nodes)%nat); [|lia].
  rewrite Hwn. cbn [mbind option_bind]. rewrite Hflag.
  apply Z.eqb_neq in Hne. rewrite Hne. reflexivity.
Qed.

Lemma span_closed_edge (e : Edge) (nodes : list Node) (s len : nat) :
  span e = Zspan (s, len) -> Z.of_nat (S len) < 2 ^ 16 ->
  span (closed_edge e nodes) = Zspan (s, S len).
Proof. intros. unfold closed_edge. now apply span_bump. Qed.

Lemma span_signal_edge (e : Edge) (wn : OSMWayNode) : span (signal_edge e wn) = span e.
Proof. unfold signal_edge. now destruct (traffic_signal (wn_node wn)). Qed.

Lemma closed_block_tail (wn wn' : OSMWayNode) (rest : list OSMWayNode) :
  closed_block (wn :: wn' :: rest) -> closed_block (wn' :: rest).
Proof. intros (l & Hl & Hfl). exists l. split; [exact Hl | exact Hfl]. Qed.

(** The inner loop on what is left of a block: [done] are the way-nodes
    up to position [cur], [rest] the ones of the block still ahead, the
    edge in hand covers [len] way-nodes from position [s]. *)
Lemma inner_loop_cut (rest : list OSMWayNode) :
  forall fuel way done post cur s len edge nodes edges,
    way_nodes = done ++ rest ++ post ->
    length done = S cur ->
    rest <> [] -> closed_block rest ->
    (length rest <= fuel)%nat ->
    span edge = Zspan (s, len) -> (s + len = S cur)%nat ->
    Z.of_nat (len + length rest) < 2 ^ 16 ->
    exists nodes' edges',
      inner_loop graph_id_predicate ways way_nodes fuel way
        (Z.of_nat (cur + length rest)) cur edge nodes edges
        = Some ((S cur + length rest)%nat, nodes', edges') /\
      map span edges' = map span edges ++ map Zspan (cut s len rest) /\
      length nodes' = (length nodes + length (cut s len rest))%nat.
Proof.
  induction rest as [|wn rest IH];
    intros fuel way done post cur s len edge nodes edges
      Hsplit Hdone Hne Hclosed Hfuel Hspan Hcover Hfit; [congruence|].
  destruct fuel as [|fuel]; [simpl in Hfuel; lia|].
  assert (Hlen : length way_nodes
                 = (S cur + S (length rest) + length post)%nat).
  { rewrite Hsplit, !length_app. simpl. lia. }
  assert (Hwn : way_nodes !! S cur = Some wn).
  { rewrite Hsplit, lookup_app_r by lia.
    replace (S cur - length done)%nat with 0%nat by lia. reflexivity. }
  assert (Hclose : span (closed_edge edge nodes) = Zspan (s, S len)).
  { apply span_closed_edge; [exact Hspan|]. simpl in Hfit. lia. }
  cbn [cut].
  destruct (intersection (wn_node wn)) eqn:Hflag.
  - destruct rest as [|wn' rest].
    + (* the last way-node of the block *)
      replace (cur + length [wn])%nat with (S cur) by (simpl; lia).
      rewrite (inner_loop_way_end _ _ _ _ _ _ wn) by assumption.
      eexists _, _. split; [do 3 f_equal; simpl; lia|].
      unfold Seq.push_back. rewrite map_app, length_app. simpl.
      rewrite Hclose. split; reflexivity.
    + rewrite (inner_loop_joint _ _ _ _ _ _ _ wn); try assumption;
        [|simpl; lia].
      set (pushed := Seq.push_back nodes _).
      destruct (patch_last_start_length pushed (Z.of_nat (length ways)))
        as (patched & -> & Hpatched).
      { unfold pushed, Seq.push_back. destruct nodes; discriminate. }
      cbn [mbind option_bind].
      edestruct (IH fuel way (done ++ [wn]) post (S cur) (S cur) 1%nat
                   (make_edge (Z.of_nat (length pushed)) (Z.of_nat (way_index wn))
                      (Z.of_nat (S cur)) way)
                   patched (Seq.push_back edges (closed_edge edge nodes)))
        as (nodes' & edges' & Hrun & Hspans & Hnodes).
      * rewrite Hsplit, <- app_assoc. reflexivity.
      * rewrite length_app. simpl. lia.
      * discriminate.
      * eapply closed_block_tail; eassumption.
      * simpl in Hfuel |- *. lia.
      * unfold span, Zspan, make_edge. cbn [llindex_ llcount attributes fst snd].
        rewrite u32_small by lia. reflexivity.
      * lia.
      * simpl in Hfit |- *. lia.
      * replace (Z.of_nat (cur + length (wn :: wn' :: rest)))
          with (Z.of_nat (S cur + length (wn' :: rest)))
          by (simpl; lia).
        rewrite Hrun. eexists _, _.
        split; [do 3 f_equal; simpl; lia|].
        replace (s + len)%nat with (S cur) by lia.
        split.
        -- rewrite Hspans. unfold Seq.push_back.
           rewrite map_app, <- app_assoc. simpl. rewrite Hclose. reflexivity.
        -- rewrite Hnodes, Hpatched. unfold pushed, Seq.push_back.
           rewrite length_app. simpl. lia.
  - (* a shape point: it cannot be the last way-node of the block *)
    destruct rest as [|wn' rest].
    { destruct Hclosed as (l & Hl & Hfl). simpl in Hl.
      injection Hl as <-. congruence. }
    rewrite (inner_loop_shape_point _ _ _ _ _ _ _ wn) by assumption.
    edestruct (IH fuel way (done ++ [wn]) post (S cur) s (S len)
                 (signal_edge (bump_llcount edge) wn))
      as (nodes' & edges' & Hrun & Hspans & Hnodes).
    * rewrite Hsplit, <- app_assoc. reflexivity.
    * rewrite length_app. simpl. lia.
    * discriminate.
    * eapply closed_block_tail; eassumption.
    * simpl in Hfuel |- *. lia.
    * rewrite span_signal_edge. apply span_bump; [exact Hspan|].
      simpl in Hfit. lia.
    * lia.
    * simpl in Hfit |- *. lia.
    * replace (Z.of_nat (cur + length (wn :: wn' :: rest)))
        with (Z.of_nat (S cur + length (wn' :: rest))) by (simpl; lia).
      rewrite Hrun. eexists _, _.
      split; [do 3 f_equal; simpl; lia|].
      split; [exact Hspans | exact Hnodes].
Qed.
Lemma outer_loop_done fuel cur nodes edges :
  (length way_nodes <= cur)%nat ->
  outer_loop graph_id_predicate ways way_nodes (S fuel) cur nodes edges
  = Some (nodes, edges).
Proof.
  intros Hge. cbn [outer_loop].
  destruct (decide (cur < length way_nodes)%nat); [lia | reflexivity].
Qed.

Lemma outer_loop_round fuel cur nodes edges first way cur' nodes' edges' :
  way_nodes !! cur = Some first -> ways !! way_index first = Some way ->
  inner_loop graph_id_predicate ways way_nodes (S (length way_nodes)) way
    (Z.of_nat cur + Z.of_nat (node_count way) - 1) cur
    (make_edge (Z.of_nat (length nodes)) (Z.of_nat (way_index first))
       (Z.of_nat cur) way)
    (Seq.push_back nodes (start_node graph_id_predicate ways first way)) edges
  = Some (cur', nodes', edges') ->
  outer_loop graph_id_predicate ways way_nodes (S fuel) cur nodes edges
  = outer_loop graph_id_predicate ways way_nodes fuel cur' nodes' edges'.
Proof.
  intros Hfirst Hway Hinner. pose proof (lookup_lt_Some _ _ _ Hfirst) as Hlt.
  cbn [outer_loop]. unfold Seq.at_.
  destruct (decide (cur < length way_nodes)%nat); [|lia].
  rewrite Hfirst. cbn [mbind option_bind]. rewrite Hway. cbn [mbind option_bind].
  unfold start_node in Hinner. rewrite Hinner. reflexivity.
Qed.

(** The outer loop on the blocks still ahead. *)
Lemma outer_loop_spans (blocks : list (list OSMWayNode)) :
  forall fuel done nodes edges,
    way_nodes = done ++ concat blocks ->
    Forall (way_block ways) blocks -> Forall closed_block blocks ->
    (length blocks < fuel)%nat ->
    exists nodes' edges',
      outer_loop graph_id_predicate ways way_nodes fuel (length done) nodes edges
        = Some (nodes', edges') /\
      map span edges'
        = map span edges ++ map Zspan (spans_of cut (length done) blocks) /\
      length nodes'
        = (length nodes + length blocks
           + length (spans_of cut (length done) blocks))%nat.
Proof.
  induction blocks as [|b blocks IH];
    intros fuel done nodes edges Hsplit Hways Hclosed Hfuel;
    (destruct fuel as [|fuel]; [simpl in Hfuel; lia|]).
  - rewrite outer_loop_done
      by (rewrite Hsplit, length_app; simpl; lia).
    exists nodes, edges. simpl. rewrite app_nil_r.
    split; [reflexivity|]. split; [reflexivity | lia].
  - apply Forall_cons_1 in Hways as [Hb Hways].
    apply Forall_cons_1 in Hclosed as [Hcb Hclosed].
    destruct Hb as (Hlen & Hfit & w & way & Hsame & Hway & Hcount).
    destruct b as [|first [|wn rest]]; [simpl in Hlen; lia..|].
    apply Forall_cons_1 in Hsame as [Hw _].
    assert (Hfirst : way_nodes !! length done = Some first).
    { rewrite Hsplit, lookup_app_r by lia.
      rewrite Nat.sub_diag. reflexivity. }
    edestruct (inner_loop_cut (wn :: rest) (S (length way_nodes)) way
                 (done ++ [first]) (concat blocks) (length done) (length done) 1%nat
                 (make_edge (Z.of_nat (length nodes)) (Z.of_nat (way_index first))
                    (Z.of_nat (length done)) way)
                 (Seq.push_back nodes (start_node graph_id_predicate ways first way)) edges)
      as (nodes1 & edges1 & Hrun & Hspans & Hnodes).
    + rewrite Hsplit, <- app_assoc. reflexivity.
    + rewrite length_app. simpl. lia.
    + discriminate.
    + eapply closed_block_tail; eassumption.
    + rewrite Hsplit, !length_app. simpl. rewrite length_app. lia.
    + unfold span, Zspan, make_edge. cbn [llindex_ llcount attributes fst snd].
      rewrite u32_small; [reflexivity|].
      pose proof (lookup_lt_Some _ _ _ Hfirst). lia.
    + lia.
    + simpl in Hfit |- *. lia.
    + rewrite (outer_loop_round fuel (length done) nodes edges first way
                 (S (length done) + length (wn :: rest))%nat nodes1 edges1);
        [|exact Hfirst|rewrite Hw; exact Hway|].
      2:{ rewrite <- Hrun. f_equal. rewrite Hcount. simpl. lia. }
      destruct (IH fuel (done ++ first :: wn :: rest) nodes1 edges1)
        as (nodes' & edges' & Hout & Hspans' & Hnodes').
      * rewrite Hsplit, <- app_assoc. reflexivity.
      * exact Hways.
      * exact Hclosed.
      * simpl in Hfuel. lia.
      * replace (S (length done) + length (wn :: rest))%nat
          with (length (done ++ first :: wn :: rest))
          by (rewrite length_app; simpl; lia).
        rewrite Hout. exists nodes', edges'. split; [reflexivity|].
        cbn [spans_of tail]. rewrite length_app in Hspans', Hnodes'.
        split.
        -- rewrite Hspans', Hspans, map_app, <- app_assoc. reflexivity.
        -- rewrite Hnodes', Hnodes. unfold Seq.push_back.
           rewrite !length_app. simpl. lia.
Qed.
End EdgeClosing.

(** C3, as amended: when the way-nodes are laid out way by way and the last
    way-node of every way carries the intersection flag, [ConstructEdges]
    ends, and it closes an edge at the way-nodes after the first of a way
    that carry the flag and nowhere else; the nodes are one per way and one
    per edge; every edge lies within the way-nodes of one way; a single way
    of two way-nodes gives one edge and two nodes. *)
Theorem ConstructEdges_closes_at_intersections
    (graph_id_predicate : OSMNode -> GraphId) (ways : list OSMWay)
    (blocks : list (list OSMWayNode)) :
  Forall (way_block ways) blocks -> Forall closed_block blocks ->
  Z.of_nat (length (concat blocks)) < 2 ^ 32 ->
  exists nodes edges,
    ConstructEdges graph_id_predicate ways (concat blocks) = Some (nodes, edges) /\
    map span edges = map Zspan (spans_of cut 0 blocks) /\
    length nodes = (length blocks + length edges)%nat /\
    Forall (fun e => within_block blocks (span e)) edges /\
    (forall a b, blocks = [[a; b]] -> length edges = 1%nat /\ length nodes = 2%nat).
Proof.
  intros Hways Hclosed Hfit.
  destruct (outer_loop_spans graph_id_predicate ways (concat blocks) Hfit blocks
              (S (length (concat blocks))) [] [] [])
    as (nodes & edges & Hrun & Hspans & Hnodes).
  - reflexivity.
  - exact Hways.
  - exact Hclosed.
  - pose proof (blocks_length ways blocks Hways). lia.
  - simpl in Hspans, Hnodes.
    assert (Hcount : length edges = length (spans_of cut 0 blocks)).
    { rewrite <- (length_map span edges), Hspans, length_map. reflexivity. }
    exists nodes, edges. split; [exact Hrun|]. split; [exact Hspans|].
    split; [lia|]. split.
    + rewrite <- Forall_map with (f := span) (P := within_block blocks).
      rewrite Hspans, Forall_map.
      eapply Forall_impl; [apply (spans_of_cut_bounds blocks)|].
      * eapply Forall_impl; [exact Hways|]. intros b (Hb & _) ->. simpl in Hb. lia.
      * intros [s l] (k & b & Hk & Hlo & Hhi). exists k, b. simpl in *.
        split; [exact Hk|]. lia.
    + intros a b ->. apply Forall_cons_1 in Hclosed as [(l & Hl & Hfl) _].
      simpl in Hl. injection Hl as <-.
      rewrite Hnodes, Hcount. simpl. rewrite Hfl. simpl. split; reflexivity.
Qed.

Lemma ConstructEdges_closes_at_intersections_witness :
  exists nodes edges,
    ConstructEdges Inputs.in_tile [Inputs.way2; Inputs.way3]
      (concat [[Inputs.wn 1 true 0; Inputs.wn 2 true 0];
               [Inputs.wn 3 false 1; Inputs.wn 4 true 1; Inputs.wn 5 true 1]])
      = Some (nodes, edges) /\
    map span edges
      = map Zspan (spans_of cut 0
          [[Inputs.wn 1 true 0; Inputs.wn 2 true 0];
           [Inputs.wn 3 false 1; Inputs.wn 4 true 1; Inputs.wn 5 true 1]]) /\
    length nodes = (2 + length edges)%nat /\
    Forall (fun e => within_block
              [[Inputs.wn 1 true 0; Inputs.wn 2 true 0];
               [Inputs.wn 3 false 1; Inputs.wn 4 true 1; Inputs.wn 5 true 1]]
              (span e)) edges /\
    (forall a b,
       [[Inputs.wn 1 true 0; Inputs.wn 2 true 0];
        [Inputs.wn 3 false 1; Inputs.wn 4 true 1; Inputs.wn 5 true 1]] = [[a; b]] ->
       length edges = 1%nat /\ length nodes = 2%nat).
Proof.
  apply (ConstructEdges_closes_at_intersections Inputs.in_tile
           [Inputs.way2; Inputs.way3]
           [[Inputs.wn 1 true 0; Inputs.wn 2 true 0];
            [Inputs.wn 3 false 1; Inputs.wn 4 true 1; Inputs.wn 5 true 1]]).
  - repeat constructor; simpl; try lia.
    + exists 0%nat, Inputs.way2. repeat constructor.
    + exists 1%nat, Inputs.way3. repeat constructor.
  - repeat constructor; eexists; split; reflexivity.
  - simpl. lia.
Defined.

(** C3 as it is stated fails: two ways of two way-nodes each, laid out one
    after the other, the last way-node of the first way without the
    intersection flag.  Closing at the flag or at the last way-node gives
    the edges (0,2) and (2,2); [ConstructEdges] reads on into the second way
    and off the end of the sequence, and gives no edges at all. *)
Lemma ConstructEdges_unflagged_way_end :
  let ways := [Inputs.way2; Inputs.way2] in
  let blocks := [[Inputs.wn 1 true 0; Inputs.wn 2 false 0];
                 [Inputs.wn 3 true 1; Inputs.wn 4 true 1]] in
  Forall (way_block ways) blocks /\
  spans_of cut_or_last 0 blocks = [(0, 2); (2, 2)]%nat /\
  ~ exists nodes edges,
      ConstructEdges Inputs.in_tile ways (concat blocks) = Some (nodes, edges) /\
      map span edges = map Zspan (spans_of cut_or_last 0 blocks).
Proof.
  intros ways blocks. split; [|split].
  - repeat constructor; simpl; try lia.
    + exists 0%nat, Inputs.way2. repeat constructor.
    + exists 1%nat, Inputs.way2. repeat constructor.
  - reflexivity.
  - intros (nodes & edges & Hrun & _). vm_compute in Hrun. discriminate.
Qed.

(** ** GetRef *)

Module RefProofs.
Import Tag RefSpec.
Open Scope string_scope.

Lemma append_assoc (a b c : string) : (a ++ b) ++ c = a ++ b ++ c.
Proof. induction a as [|x a IH]; simpl; [reflexivity | now rewrite IH]. Qed.

Lemma append_empty (a b : string) : empty (a ++ b) = empty a && empty b.
Proof. destruct a; reflexivity. Qed.


(** *** The tokens *)

Lemma tokens_not_nil (s : string) (d : ascii) : GetTagTokens s d <> [].
Proof.
  destruct s as [|c s]; simpl; [discriminate|].
  destruct (Ascii.eqb c d); [discriminate|].
  destruct (GetTagTokens s d); discriminate.
Qed.






(** *** The loop of [GetRef] *)

(** The inner loop finds the direction of the first pair naming the ref. *)
Lemma find_dir_direction (refdirs : list string) (ref : string) :
  find_dir refdirs ref = direction refdirs ref.
Proof.
  unfold direction. induction refdirs as [|refdir refdirs IH]; simpl; [reflexivity|].
  destruct (GetTagTokens refdir "|") as [|r [|d [|? ?]]]; try exact IH.
  simpl. destruct (String.eqb r ref); [reflexivity | exact IH].
Qed.

Lemma with_dir_find_dir (refdirs : list string) (ref : string) :
  with_dir refdirs ref
  = match find_dir refdirs ref with Some d => ref ++ " " ++ d | None => ref end.
Proof. unfold with_dir. now rewrite find_dir_direction. Qed.

Lemma add_ref_entry (refdirs : list string) (refs ref : string) :
  add_ref refdirs refs ref
  = if empty refs then with_dir refdirs ref
    else add_entry refs (with_dir refdirs ref).
Proof.
  rewrite with_dir_find_dir. unfold add_ref, add_entry.
  destruct (find_dir refdirs ref), (empty refs); reflexivity.
Qed.

Lemma fold_add_ref_filled (refdirs : list string) (way_refs : list string) :
  forall refs, empty refs = false ->
    fold_left (add_ref refdirs) way_refs refs
    = fold_left add_entry (map (with_dir refdirs) way_refs) refs.
Proof.
  induction way_refs as [|ref way_refs IH]; intros refs Hrefs; simpl;
    [reflexivity|].
  rewrite add_ref_entry, Hrefs. apply IH.
  unfold add_entry. rewrite append_empty, Hrefs. reflexivity.
Qed.

Lemma fold_add_ref (refdirs : list string) (way_refs : list string) :
  fold_left (add_ref refdirs) way_refs ""
  = join_refs (map (with_dir refdirs) way_refs).
Proof.
  induction way_refs as [|ref way_refs IH]; simpl; [reflexivity|].
  rewrite add_ref_entry. simpl empty. cbv iota.
  destruct (empty (with_dir refdirs ref)) eqn:He.
  - destruct (with_dir refdirs ref); [exact IH | discriminate].
  - now apply fold_add_ref_filled.
Qed.

(** [GetRef] is the join of the way's refs with their directions. *)
Lemma GetRef_join_refs (way_ref relation_ref : string) :
  GetRef way_ref relation_ref
  = join_refs (map (with_dir (GetTagTokens relation_ref ";"))
                 (GetTagTokens way_ref ";")).
Proof. apply fold_add_ref. Qed.

Lemma fold_add_entry_append (entries : list string) :
  forall a b, fold_left add_entry entries (a ++ b)
              = a ++ fold_left add_entry entries b.
Proof.
  induction entries as [|e entries IH]; intros a b; simpl; [reflexivity|].
  unfold add_entry at 2 4. rewrite append_assoc. apply IH.
Qed.

Lemma fold_add_entry_join (entries : list string) :
  forall e, fold_left add_entry entries e = join (e :: entries).
Proof.
  induction entries as [|e' entries IH]; intros e; [reflexivity|].
  simpl fold_left. unfold add_entry at 2.
  rewrite fold_add_entry_append.
  change (";" ++ e') with (String ";" e').
  change (String ";" e') with (";" ++ e').
  rewrite fold_add_entry_append, IH. reflexivity.
Qed.

Lemma join_refs_drop (entries : list string) :
  join_refs entries = join (drop_empties entries).
Proof.
  induction entries as [|e entries IH]; simpl; [reflexivity|].
  destruct (empty e); [exact IH|]. apply fold_add_entry_join.
Qed.




Lemma map_fixed {A} (f : A -> A) (l : list A) :
  Forall (fun x => f x = x) l -> map f l = l.
Proof. induction 1 as [|x l Hx _ IH]; simpl; [reflexivity | now rewrite Hx, IH]. Qed.

(** *** Directions *)






(** *** Merging twice *)





End RefProofs.

(** * Further properties *)

(** ** collect_node_edges *)

Lemma edge_ref_some (edges : list Edge) (i : Z) :
  (Z.to_nat i < length edges)%nat ->
  exists e, edge_ref edges i = Some (e, Z.to_nat i) /\ edges !! Z.to_nat i = Some e.
Proof.
  intros Hlt. unfold edge_ref, Seq.at_.
  destruct (lookup_lt_is_Some_2 edges _ Hlt) as [e He].
  exists e. rewrite He. split; reflexivity.
Qed.

Lemma edge_ref_inv (edges : list Edge) (i : Z) (pr : Edge * nat) :
  edge_ref edges i = Some pr ->
  at_position edges pr /\ (Z.to_nat i < length edges)%nat.
Proof.
  unfold edge_ref, Seq.at_, at_position.
  destruct (edges !! Z.to_nat i) as [e|] eqn:He; simpl; [|discriminate].
  intros H. injection H as <-. simpl. split; [exact He|].
  eapply lookup_lt_Some; exact He.
Qed.

Lemma node_refs_at_position (edges : list Edge) (n : Node) :
  Forall (at_position edges) (node_refs edges n).
Proof.
  unfold node_refs. apply Forall_app. split.
  - destruct (is_start n); [|constructor].
    destruct (edge_ref edges (start_of n)) as [pr|] eqn:H; simpl; [|constructor].
    constructor; [|constructor]. now apply edge_ref_inv in H.
  - destruct (is_end n); [|constructor].
    destruct (edge_ref edges (end_of n)) as [pr|] eqn:H; simpl; [|constructor].
    constructor; [|constructor]. now apply edge_ref_inv in H.
Qed.

Lemma collect_node_edges_at_position (p : nat) (nodes : list Node)
    (edges : list Edge) (b : node_bundle) :
  collect_node_edges p nodes edges = Some b ->
  Forall (at_position edges) (b_edges b).
Proof.
  intros H. apply collect_node_edges_run in H as (_ & _ & He).
  rewrite He. apply Forall_flat_map, Forall_forall. intros n _.
  apply node_refs_at_position.
Qed.

(** X1: when [collect_node_edges] returns a bundle, its node is the record
    at the position, its count is the number of records of the run that
    starts there, its edges are, in order, the [start_of] edge and then the
    [end_of] edge of each record of the run after the first, and every
    entry pairs an edge with the position that edge has in the sequence. *)
Theorem collect_node_edges_bundle (p : nat) (nodes : list Node)
    (edges : list Edge) (b : node_bundle) :
  collect_node_edges p nodes edges = Some b ->
  nodes !! p = Some (b_node b) /\
  b_node_count b = length (run_at nodes p) /\
  b_edges b = flat_map (node_refs edges) (tail (run_at nodes p)) /\
  Forall (at_position edges) (b_edges b).
Proof.
  intros H. pose proof (collect_node_edges_at_position _ _ _ _ H) as Hat.
  apply collect_node_edges_run in H as (Hn & Hc & He).
  repeat split; assumption.
Qed.

Lemma collect_node_edges_bundle_witness :
  let b := mkBundle (Inputs.nd 10 1 no_edge true true) 2 [(Inputs.ed 0 2 5 true, 0%nat)] in
  Inputs.ramp_nodes !! 0%nat = Some (b_node b) /\
  b_node_count b = length (run_at Inputs.ramp_nodes 0) /\
  b_edges b = flat_map (node_refs Inputs.ramp_edges) (tail (run_at Inputs.ramp_nodes 0)) /\
  Forall (at_position Inputs.ramp_edges) (b_edges b).
Proof.
  apply (collect_node_edges_bundle 0 Inputs.ramp_nodes Inputs.ramp_edges).
  reflexivity.
Defined.

Lemma collect_one_valid (edges : list Edge) (n : Node) (acc : list (Edge * nat)) :
  is_Some (collect_one edges n acc) <-> refs_valid edges n.
Proof.
  unfold collect_one, refs_valid. split.
  - intros [acc' H].
    destruct (is_start n), (is_end n); simpl in H;
      repeat match type of H with
      | context [edge_ref edges ?i] =>
          destruct (edge_ref edges i) as [?pr|] eqn:?Href; simpl in H
      end; try discriminate;
      repeat match goal with
      | Href : edge_ref _ _ = Some _ |- _ => apply edge_ref_inv in Href as [_ ?]
      end; split; intros; (assumption || discriminate).
  - intros [Hs He].
    destruct (is_start n), (is_end n); simpl;
      repeat match goal with
      | H : true = true -> _ |- _ => specialize (H eq_refl)
      | H : (Z.to_nat ?i < length edges)%nat |- _ =>
          destruct (edge_ref_some edges i H) as (? & -> & _); clear H; simpl
      end; eauto.
Qed.

Lemma collect_loop_valid (edges : list Edge) (osm : Z) (rest : list Node) :
  forall acc steps,
    is_Some (collect_loop rest osm edges acc steps) <->
    Forall (refs_valid edges) (same_id_prefix osm rest).
Proof.
  induction rest as [|n rest IH]; intros acc steps; simpl.
  - split; [constructor | eauto].
  - destruct (osmid (node n) =? osm); [|split; [constructor | eauto]].
    rewrite Forall_cons, <- (collect_one_valid edges n acc).
    destruct (collect_one edges n acc) as [acc'|]; simpl.
    + rewrite IH. split; [intros; split; eauto | tauto].
    + split; [intros [? ?]; discriminate | intros [[? ?] _]; discriminate].
Qed.

(** X2: [collect_node_edges] has a result exactly when the position is
    inside the node sequence and, in the records of the run after the
    first, every [start_of] and [end_of] that is not the sentinel is a
    position of the edge sequence; a dangling reference in the first record
    does no harm. *)
Theorem collect_node_edges_defined (p : nat) (nodes : list Node) (edges : list Edge) :
  is_Some (collect_node_edges p nodes edges) <->
  (p < length nodes)%nat /\
  Forall (refs_valid edges) (tail (run_at nodes p)).
Proof.
  unfold collect_node_edges, run_at, Seq.at_.
  destruct (nodes !! p) as [first|] eqn:Hp; simpl.
  - apply lookup_lt_Some in Hp as Hlt.
    rewrite <- (collect_loop_valid edges (osmid (node first)) (drop (S p) nodes) [] 0%nat).
    destruct (collect_loop _ _ _ _ _) as [[es k]|]; simpl.
    + split; [intros _; split; eauto | eauto].
    + split; [intros [? ?]; discriminate | intros [_ [? ?]]; discriminate].
  - apply lookup_ge_None in Hp.
    split; [intros [? ?]; discriminate | intros [? _]; lia].
Qed.

(** ** GetBestNonLinkClass *)

Lemma fold_best_step (edges : list (Edge * nat)) :
  forall best,
    let r := fold_left best_step edges best in
    r <= best /\
    Forall (fun pr => non_link pr -> r <= importance (attributes pr.1)) edges /\
    (r = best \/ exists pr, In pr edges /\ non_link pr /\
                            r = importance (attributes pr.1)).
Proof.
  induction edges as [|pr edges IH]; intros best; simpl.
  - split; [lia|]. split; [constructor | now left].
  - destruct (IH (best_step best pr)) as (Hle & Hall & Hex).
    assert (Hstep : best_step best pr <= best /\
                    (non_link pr -> best_step best pr <= importance (attributes pr.1)) /\
                    (best_step best pr = best \/
                     (non_link pr /\ best_step best pr = importance (attributes pr.1)))).
    { unfold best_step, non_link. destruct (e_link (attributes pr.1)); simpl.
      - split; [lia|]. split; [discriminate | now left].
      - destruct (Z.ltb_spec (importance (attributes pr.1)) best).
        + split; [lia|]. split; [lia | now right].
        + split; [lia|]. split; [lia | now left]. }
    destruct Hstep as (Hs1 & Hs2 & Hs3).
    split; [lia|]. split.
    + constructor; [intros Hn; specialize (Hs2 Hn); lia | exact Hall].
    + destruct Hex as [Heq | (pr' & Hin & Hn & Heq)].
      * destruct Hs3 as [Hb | [Hn Hb]].
        -- left. lia.
        -- right. exists pr. split; [now left|]. split; [exact Hn | lia].
      * right. exists pr'. split; [now right|]. now split.
Qed.

(** X3: [GetBestNonLinkClass] is never above [kAbsurdRoadClass] and never
    above the importance of a non-link edge of the list; and it is either
    [kAbsurdRoadClass] or the importance of one of the non-link edges: with
    a non-link edge in the list, whose importance fits its 3 bits, it is the
    smallest importance among the non-link edges. *)
Theorem GetBestNonLinkClass_is_minimum (edges : list (Edge * nat)) :
  GetBestNonLinkClass edges <= kAbsurdRoadClass /\
  Forall (fun pr => non_link pr ->
            GetBestNonLinkClass edges <= importance (attributes pr.1)) edges /\
  (GetBestNonLinkClass edges = kAbsurdRoadClass \/
   exists pr, In pr edges /\ non_link pr /\
              GetBestNonLinkClass edges = importance (attributes pr.1)) /\
  forall pr, In pr edges -> non_link pr ->
             importance (attributes pr.1) < 2 ^ 3 ->
             GetBestNonLinkClass edges < 2 ^ 3.
Proof.
  destruct (fold_best_step edges kAbsurdRoadClass) as (Hle & Hall & Hex).
  unfold GetBestNonLinkClass. repeat split; try assumption.
  intros pr Hin Hn Hfit. rewrite Forall_forall in Hall.
  specialize (Hall pr (proj2 (list_elem_of_In _ _) Hin) Hn). lia.
Qed.

(** ** ConstructEdges *)

Section RoundInvariants.
Variable graph_id_predicate : OSMNode -> GraphId.
Variable ways : list OSMWay.
Variable way_nodes : list OSMWayNode.

(** What a round of the inner loop can be. *)
Lemma inner_loop_cases fuel way last_idx cur edge nodes edges r :
  inner_loop graph_id_predicate ways way_nodes (S fuel) way last_idx cur edge nodes edges
    = Some r ->
  (~ (cur < length way_nodes)%nat /\ r = (cur, nodes, edges)) \/
  exists wn, way_nodes !! S cur = Some wn /\
    ((intersection (wn_node wn) = false /\
      inner_loop graph_id_predicate ways way_nodes fuel way last_idx (S cur)
        (signal_edge (bump_llcount edge) wn) nodes edges = Some r) \/
     (intersection (wn_node wn) = true /\ Z.of_nat (S cur) = last_idx /\
      r = (S (S cur), Seq.push_back nodes (end_node graph_id_predicate ways wn way),
           Seq.push_back edges (closed_edge edge nodes))) \/
     (intersection (wn_node wn) = true /\ Z.of_nat (S cur) <> last_idx /\
      exists patched,
        patch_last_start (Seq.push_back nodes (end_node graph_id_predicate ways wn way))
          (Z.of_nat (length ways)) = Some patched /\
        inner_loop graph_id_predicate ways way_nodes fuel way last_idx (S cur)
          (make_edge
             (Z.of_nat (length (Seq.push_back nodes
                                  (end_node graph_id_predicate ways wn way))))
             (Z.of_nat (way_index wn)) (Z.of_nat (S cur)) way)
          patched (Seq.push_back edges (closed_edge edge nodes)) = Some r)).
Proof.
  intros H.
  destruct (decide (cur < length way_nodes)%nat) as [Hlt|Hge].
  - destruct (way_nodes !! S cur) as [wn|] eqn:Hwn.
    + right. exists wn. split; [reflexivity|].
      destruct (intersection (wn_node wn)) eqn:Hflag.
      * destruct (decide (Z.of_nat (S cur) = last_idx)) as [Heq|Hne].
        -- right. left. subst last_idx.
           rewrite (inner_loop_way_end _ _ _ _ _ _ _ _ _ wn) in H by assumption.
           injection H as ?; subst. auto.
        -- right. right.
           rewrite (inner_loop_joint _ _ _ _ _ _ _ _ _ _ wn) in H by assumption.
           destruct (patch_last_start _ _) as [patched|]; simpl in H; [|discriminate].
           split; [reflexivity|]. split; [exact Hne|]. exists patched. auto.
      * left. rewrite (inner_loop_shape_point _ _ _ _ _ _ _ _ _ _ wn) in H by assumption.
        auto.
    + cbn [inner_loop] in H. unfold Seq.at_ in H.
      destruct (decide (cur < length way_nodes)%nat); [|lia].
      rewrite Hwn in H. discriminate.
  - left. cbn [inner_loop] in H.
    destruct (decide (cur < length way_nodes)%nat); [lia|].
    injection H as ?; subst. auto.
Qed.

(** What a round of the outer loop can be. *)
Lemma outer_loop_cases fuel cur nodes edges r :
  outer_loop graph_id_predicate ways way_nodes (S fuel) cur nodes edges = Some r ->
  (~ (cur < length way_nodes)%nat /\ r = (nodes, edges)) \/
  exists first way cur' nodes' edges',
    way_nodes !! cur = Some first /\ ways !! way_index first = Some way /\
    inner_loop graph_id_predicate ways way_nodes (S (length way_nodes)) way
      (Z.of_nat cur + Z.of_nat (node_count way) - 1) cur
      (make_edge (Z.of_nat (length nodes)) (Z.of_nat (way_index first))
         (Z.of_nat cur) way)
      (Seq.push_back nodes (start_node graph_id_predicate ways first way)) edges
      = Some (cur', nodes', edges') /\
    outer_loop graph_id_predicate ways way_nodes fuel cur' nodes' edges' = Some r.
Proof.
  intros H.
  destruct (decide (cur < length way_nodes)%nat) as [Hlt|Hge].
  - right.
    destruct (way_nodes !! cur) as [first|] eqn:Hfirst.
    + destruct (ways !! way_index first) as [way|] eqn:Hway.
      * destruct (inner_loop graph_id_predicate ways way_nodes (S (length way_nodes)) way
                    (Z.of_nat cur + Z.of_nat (node_count way) - 1) cur
                    (make_edge (Z.of_nat (length nodes)) (Z.of_nat (way_index first))
                       (Z.of_nat cur) way)
                    (Seq.push_back nodes (start_node graph_id_predicate ways first way))
                    edges) as [[[cur' nodes'] edges']|] eqn:Hin.
        -- rewrite (outer_loop_round _ _ _ _ _ _ _ _ _ _ _ _ Hfirst Hway Hin) in H.
           exists first, way, cur', nodes', edges'. auto.
        -- cbn [outer_loop] in H. unfold Seq.at_ in H.
           destruct (decide (cur < length way_nodes)%nat); [|lia].
           rewrite Hfirst in H. cbn [mbind option_bind] in H.
           rewrite Hway in H. cbn [mbind option_bind] in H.
           unfold start_node in Hin. rewrite Hin in H. discriminate.
      * cbn [outer_loop] in H. unfold Seq.at_ in H.
        destruct (decide (cur < length way_nodes)%nat); [|lia].
        rewrite Hfirst in H. cbn [mbind option_bind] in H.
        rewrite Hway in H. discriminate.
    + cbn [outer_loop] in H. unfold Seq.at_ in H.
      destruct (decide (cur < length way_nodes)%nat); [|lia].
      rewrite Hfirst in H. discriminate.
  - left. split; [exact Hge|].
    rewrite outer_loop_done in H by lia. injection H as ?; subst. reflexivity.
Qed.

Lemma patch_last_start_same_length (nodes nodes' : list Node) (v : Z) :
  patch_last_start nodes v = Some nodes' -> length nodes' = length nodes.
Proof.
  unfold patch_last_start, Seq.set.
  destruct (last nodes); simpl; [|discriminate].
  destruct (decide _); [|discriminate].
  intros H. injection H as <-. apply length_insert.
Qed.

(** Neither loop takes a node away. *)
Lemma inner_loop_grows (fuel : nat) :
  forall way last_idx cur edge nodes edges cur' nodes' edges',
    inner_loop graph_id_predicate ways way_nodes fuel way last_idx cur edge nodes edges
      = Some (cur', nodes', edges') ->
    (length nodes <= length nodes')%nat.
Proof.
  induction fuel as [|fuel IH]; intros way last_idx cur edge nodes edges
    cur' nodes' edges' H; [discriminate|].
  apply inner_loop_cases in H
    as [[_ H] | (wn & _ & [[_ H] | [(_ & _ & H) | (_ & _ & patched & Hp & H)]])].
  - injection H as ? ? ?; subst. lia.
  - eapply IH; exact H.
  - injection H as ? ? ?; subst. unfold Seq.push_back. rewrite length_app. lia.
  - apply IH in H. apply patch_last_start_same_length in Hp.
    unfold Seq.push_back in Hp. rewrite length_app in Hp. lia.
Qed.

Lemma endpoints_in_mono (a b : nat) (e : Edge) :
  (a <= b)%nat -> endpoints_in a e -> endpoints_in b e.
Proof. unfold endpoints_in. lia. Qed.

Lemma source_signal_edge (e : Edge) (wn : OSMWayNode) :
  sourcenode_ (signal_edge e wn) = sourcenode_ e.
Proof. unfold signal_edge. now destruct (traffic_signal (wn_node wn)). Qed.

Lemma closed_edge_endpoints (edge : Edge) (nodes : list Node) :
  0 <= sourcenode_ edge <= Z.of_nat (length nodes) ->
  Z.of_nat (length nodes) < 2 ^ 32 ->
  endpoints_in (S (length nodes)) (closed_edge edge nodes).
Proof.
  intros Hs Hfit. unfold endpoints_in, closed_edge. simpl.
  rewrite u32_small by lia. lia.
Qed.

Lemma inner_loop_endpoints (fuel : nat) :
  forall way last_idx cur edge nodes edges cur' nodes' edges',
    inner_loop graph_id_predicate ways way_nodes fuel way last_idx cur edge nodes edges
      = Some (cur', nodes', edges') ->
    Z.of_nat (length nodes') < 2 ^ 32 ->
    0 <= sourcenode_ edge <= Z.of_nat (length nodes) ->
    Forall (endpoints_in (length nodes)) edges ->
    Forall (endpoints_in (length nodes')) edges'.
Proof.
  induction fuel as [|fuel IH]; intros way last_idx cur edge nodes edges
    cur' nodes' edges' H Hfit Hsrc Hall; [discriminate|].
  apply inner_loop_cases in H
    as [[_ H] | (wn & _ & [[_ H] | [(_ & _ & H) | (_ & _ & patched & Hp & H)]])].
  - injection H as ? ? ?; subst. exact Hall.
  - eapply IH; eauto. now rewrite source_signal_edge.
  - injection H as ? ? ?; subst. unfold Seq.push_back in *.
    rewrite length_app in *. simpl in *.
    replace (length nodes + 1)%nat with (S (length nodes)) by lia.
    apply Forall_app. split.
    + eapply Forall_impl; [exact Hall|]. intros e. apply endpoints_in_mono. lia.
    + constructor; [|constructor]. apply closed_edge_endpoints; lia.
  - pose proof (inner_loop_grows _ _ _ _ _ _ _ _ _ _ H) as Hgrow.
    pose proof (patch_last_start_same_length _ _ _ Hp) as Hlen.
    unfold Seq.push_back in Hlen, Hgrow. rewrite length_app in Hlen. simpl in Hlen.
    eapply IH; [exact H | exact Hfit | |].
    + unfold make_edge, Seq.push_back. simpl. rewrite length_app. simpl.
      rewrite u32_small by lia. lia.
    + rewrite Hlen. replace (length nodes + 1)%nat with (S (length nodes)) by lia.
      apply Forall_app. split.
      * eapply Forall_impl; [exact Hall|]. intros e. apply endpoints_in_mono. lia.
      * constructor; [|constructor]. apply closed_edge_endpoints; lia.
Qed.

Lemma outer_loop_grows (fuel : nat) :
  forall cur nodes edges nodes' edges',
    outer_loop graph_id_predicate ways way_nodes fuel cur nodes edges
      = Some (nodes', edges') ->
    (length nodes <= length nodes')%nat.
Proof.
  induction fuel as [|fuel IH]; intros cur nodes edges nodes' edges' H;
    [discriminate|].
  apply outer_loop_cases in H
    as [[_ H] | (first & way & cur1 & nodes1 & edges1 & _ & _ & Hin & H)].
  - injection H as ? ?; subst. lia.
  - apply IH in H. apply inner_loop_grows in Hin.
    unfold Seq.push_back in Hin. rewrite length_app in Hin. lia.
Qed.

Lemma outer_loop_endpoints (fuel : nat) :
  forall cur nodes edges nodes' edges',
    outer_loop graph_id_predicate ways way_nodes fuel cur nodes edges
      = Some (nodes', edges') ->
    Z.of_nat (length nodes') < 2 ^ 32 ->
    Forall (endpoints_in (length nodes)) edges ->
    Forall (endpoints_in (length nodes')) edges'.
Proof.
  induction fuel as [|fuel IH]; intros cur nodes edges nodes' edges' H Hfit Hall;
    [discriminate|].
  apply outer_loop_cases in H
    as [[_ H] | (first & way & cur1 & nodes1 & edges1 & _ & _ & Hin & H)].
  - injection H as ? ?; subst. exact Hall.
  - pose proof (outer_loop_grows _ _ _ _ _ _ H) as Hgrow.
    pose proof (inner_loop_grows _ _ _ _ _ _ _ _ _ _ Hin) as Hgrow1.
    unfold Seq.push_back in Hgrow1. rewrite length_app in Hgrow1. simpl in Hgrow1.
    eapply IH; [exact H | exact Hfit |].
    eapply inner_loop_endpoints; [exact Hin | lia | |].
    + unfold make_edge, Seq.push_back. simpl. rewrite length_app. simpl.
      rewrite u32_small by lia. lia.
    + eapply Forall_impl; [exact Hall|]. intros e. apply endpoints_in_mono.
      unfold Seq.push_back. rewrite length_app. lia.
Qed.
End RoundInvariants.

(** X4: whatever the ways and way-nodes, every [start_of] and [end_of] that
    [ConstructEdges] leaves in a node is the sentinel or the number of ways
    (as a 32-bit value); none depends on the position of an edge. *)
Theorem ConstructEdges_references_count_ways
    (graph_id_predicate : OSMNode -> GraphId) (ways : list OSMWay)
    (way_nodes : list OSMWayNode) (nodes : list Node) (edges : list Edge) :
  ConstructEdges graph_id_predicate ways way_nodes = Some (nodes, edges) ->
  Forall (fun n =>
    (start_of n = no_edge \/ start_of n = u32 (Z.of_nat (length ways))) /\
    (end_of n = no_edge \/ end_of n = u32 (Z.of_nat (length ways)))) nodes.
Proof. apply ConstructEdges_refs. Qed.

Lemma ConstructEdges_references_count_ways_witness :
  Forall (fun n =>
    (start_of n = no_edge \/ start_of n = u32 (Z.of_nat (length [Inputs.way3]))) /\
    (end_of n = no_edge \/ end_of n = u32 (Z.of_nat (length [Inputs.way3]))))
    [mkNode (Inputs.osm 1 false false) 1 no_edge (mkGraphId 7 0);
     mkNode (Inputs.osm 2 false false) 1 1 (mkGraphId 7 0);
     mkNode (Inputs.osm 3 false false) no_edge 1 (mkGraphId 7 0)].
Proof.
  apply (ConstructEdges_references_count_ways Inputs.in_tile [Inputs.way3]
           [Inputs.wn 1 true 0; Inputs.wn 2 true 0; Inputs.wn 3 true 0] _
           [mkEdge 0 0 0 (mkEdgeAttributes 2 2 true true false false false false) 1;
            mkEdge 2 0 1 (mkEdgeAttributes 2 2 true true false false false false) 2]).
  reflexivity.
Defined.

(** X5: when [ConstructEdges] ends with fewer than 2^32 nodes, every edge it
    made has both ends inside the node sequence, the source at or before the
    target. *)
Theorem ConstructEdges_endpoints_in_range
    (graph_id_predicate : OSMNode -> GraphId) (ways : list OSMWay)
    (way_nodes : list OSMWayNode) (nodes : list Node) (edges : list Edge) :
  ConstructEdges graph_id_predicate ways way_nodes = Some (nodes, edges) ->
  Z.of_nat (length nodes) < 2 ^ 32 ->
  Forall (fun e => 0 <= sourcenode_ e <= targetnode_ e /\
                   targetnode_ e < Z.of_nat (length nodes)) edges.
Proof.
  intros H Hfit.
  apply (outer_loop_endpoints _ _ _ _ _ _ _ _ _ H Hfit). constructor.
Qed.

Lemma ConstructEdges_endpoints_in_range_witness :
  Forall (fun e => 0 <= sourcenode_ e <= targetnode_ e /\
                   targetnode_ e < Z.of_nat 3)
    [mkEdge 0 0 0 (mkEdgeAttributes 2 2 true true false false false false) 1;
     mkEdge 2 0 1 (mkEdgeAttributes 2 2 true true false false false false) 2].
Proof.
  apply (ConstructEdges_endpoints_in_range Inputs.in_tile [Inputs.way3]
           [Inputs.wn 1 true 0; Inputs.wn 2 true 0; Inputs.wn 3 true 0]
           [mkNode (Inputs.osm 1 false false) 1 no_edge (mkGraphId 7 0);
            mkNode (Inputs.osm 2 false false) 1 1 (mkGraphId 7 0);
            mkNode (Inputs.osm 3 false false) no_edge 1 (mkGraphId 7 0)]).
  - reflexivity.
  - simpl. lia.
Defined.

(** ** SortGraph *)

Lemma sort_insert_length {A} (less : A -> A -> bool) (x : A) (l : list A) :
  length (SeqSort.insert less x l) = S (length l).
Proof.
  induction l as [|y l IH]; simpl; [reflexivity|].
  destruct (less y x); simpl; [now rewrite IH | reflexivity].
Qed.

Lemma sort_length {A} (less : A -> A -> bool) (l : list A) :
  length (SeqSort.sort less l) = length l.
Proof.
  induction l as [|x l IH]; simpl; [reflexivity|].
  unfold SeqSort.sort in *. simpl. now rewrite sort_insert_length, IH.
Qed.

Lemma same_but_ends_refl (edges : list Edge) : Forall2 same_but_ends edges edges.
Proof. induction edges; constructor; [repeat split | assumption]. Qed.

Lemma same_but_ends_trans (a b c : list Edge) :
  Forall2 same_but_ends a b -> Forall2 same_but_ends b c -> Forall2 same_but_ends a c.
Proof.
  intros Hab. revert c. induction Hab as [|x y a b Hxy _ IH]; intros c Hbc.
  - inversion Hbc. constructor.
  - inversion Hbc as [|y' z b' c' Hyz Hbc']; subst. constructor; [|now apply IH].
    destruct Hxy as (? & ? & ?), Hyz as (? & ? & ?). repeat split; congruence.
Qed.

Lemma relink_spec (edges edges' : list Edge) (ref : Z) (upd : Edge -> Edge)
    (last n n' : Node) :
  (forall e, same_but_ends e (upd e)) ->
  relink edges ref upd last n = Some (edges', n') ->
  Forall2 same_but_ends edges edges' /\
  osmid (node n') = osmid (node n) /\
  graph_id n' = graph_id n /\ start_of n' = start_of n /\ end_of n' = end_of n.
Proof.
  intros Hupd. unfold relink, Seq.at_, Seq.set.
  destruct (edges !! Z.to_nat ref) as [e|] eqn:He; simpl; [|discriminate].
  destruct (decide _); simpl; [|discriminate].
  intros H. injection H as <- <-. split; [|repeat split].
  rewrite <- (list_insert_id edges (Z.to_nat ref) e He) at 1.
  apply Forall2_insert; [apply same_but_ends_refl | apply Hupd].
Qed.

#[local] Arguments relink : simpl never.
#[local] Arguments Seq.set : simpl never.
#[local] Arguments TileMap.insert : simpl never.
#[local] Arguments TileMap.last_key : simpl never.
#[local] Arguments u32 : simpl never.

Ltac finish_step :=
  simpl; repeat split;
  eauto using same_but_ends_refl, same_but_ends_trans;
  try congruence; try (left; repeat split; auto; congruence).

(** What one call of the function given to [transform] does. *)
Lemma sort_step_spec (st st' : sort_state) (n n' : Node) :
  sort_step st n = Some (n', st') ->
  osmid (node n') = osmid (node n) /\
  last_node st' = n' /\
  node_index st' = u32 (node_index st + 1) /\
  Forall2 same_but_ends (s_edges st) (s_edges st') /\
  ((s_nodes st' = s_nodes st /\ run_index st' = run_index st /\
    (node_index st = 0 \/ osmid (node (last_node st)) = osmid (node n))) \/
   (Seq.set (s_nodes st) (Z.to_nat (run_index st)) (last_node st) = Some (s_nodes st') /\
    run_index st' = node_index st /\ node_index st <> 0)).
Proof.
  unfold sort_step. intros H.
  destruct (node_index st =? 0) eqn:Hzero.
  - simpl in H. injection H as <- <-. simpl.
    apply Z.eqb_eq in Hzero.
    repeat split; auto using same_but_ends_refl.
  - apply Z.eqb_neq in Hzero.
    destruct (TileMap.last_key (tiles st)) as [k|]; simpl in H; [|discriminate].
    destruct (negb (GraphId_eqb (graph_id n) k)); simpl in H.
    { destruct (Seq.set (s_nodes st) _ _) as [nodes'|] eqn:Hset; simpl in H;
        [|discriminate].
      injection H as <- <-. simpl. repeat split; auto using same_but_ends_refl. }
    destruct (negb (osmid (node (last_node st)) =? osmid (node n))) eqn:Hosm;
      simpl in H.
    { destruct (Seq.set (s_nodes st) _ _) as [nodes'|] eqn:Hset; simpl in H;
        [|discriminate].
      injection H as <- <-. simpl. repeat split; auto using same_but_ends_refl. }
    apply negb_false_iff, Z.eqb_eq in Hosm.
    set (n0 := with_id n (id (graph_id (last_node st)))) in H.
    assert (Hn0 : osmid (node n0) = osmid (node n)) by reflexivity.
    destruct (is_start n0).
    + destruct (relink (s_edges st) _ _ _ n0) as [[edges1 n1]|] eqn:Hr1;
        simpl in H; [|discriminate].
      apply relink_spec in Hr1 as (He1 & Hn1 & _); [|intros e; repeat split].
      destruct (is_end n1).
      * destruct (relink edges1 _ _ _ n1) as [[edges2 n2]|] eqn:Hr2;
          simpl in H; [|discriminate].
        apply relink_spec in Hr2 as (He2 & Hn2 & _); [|intros e; repeat split].
        injection H as <- <-. finish_step.
      * simpl in H. injection H as <- <-. finish_step.
    + simpl in H. destruct (is_end n0).
      * destruct (relink (s_edges st) _ _ _ n0) as [[edges2 n2]|] eqn:Hr2;
          simpl in H; [|discriminate].
        apply relink_spec in Hr2 as (He2 & Hn2 & _); [|intros e; repeat split].
        injection H as <- <-. finish_step.
      * simpl in H. injection H as <- <-. finish_step.
Qed.

Lemma seq_set_length {A} (l l' : list A) (i : nat) (x : A) :
  Seq.set l i x = Some l' -> length l' = length l.
Proof.
  unfold Seq.set. destruct (decide _); [|discriminate].
  intros H. injection H as <-. apply length_insert.
Qed.

Lemma seq_set_insert {A} (l l' : list A) (i : nat) (x : A) :
  Seq.set l i x = Some l' -> l' = <[i := x]> l.
Proof.
  unfold Seq.set. destruct (decide _); [|discriminate]. congruence.
Qed.

(** The forward pass keeps the number of nodes and everything of an edge
    but its ends. *)
Lemma transform_loop_frame (count : nat) :
  forall i st st',
    transform_loop count i st = Some st' ->
    length (s_nodes st') = length (s_nodes st) /\
    Forall2 same_but_ends (s_edges st) (s_edges st').
Proof.
  induction count as [|count IH]; intros i st st' H; simpl in H.
  - injection H as <-. split; [reflexivity | apply same_but_ends_refl].
  - unfold Seq.at_ in H.
    destruct (s_nodes st !! i) as [n|]; simpl in H; [|discriminate].
    destruct (sort_step st n) as [[n' st1]|] eqn:Hstep; simpl in H; [|discriminate].
    destruct (Seq.set (s_nodes st1) i n') as [nodes'|] eqn:Hset; simpl in H;
      [|discriminate].
    apply IH in H as [Hlen Hedges]. simpl in Hlen, Hedges.
    apply sort_step_spec in Hstep as (_ & _ & _ & He & Hnodes).
    apply seq_set_length in Hset. split.
    + rewrite Hlen, Hset.
      destruct Hnodes as [(-> & _) | (Hback & _)]; [reflexivity|].
      now apply seq_set_length in Hback.
    + eapply same_but_ends_trans; eassumption.
Qed.

(** X6: [SortGraph] gives back as many nodes and edges as it was given, and
    an edge differs from what it was at most in its source and its target:
    way index, position of the shape and attributes are the same. *)
Theorem SortGraph_frame (nodes nodes' : list Node) (edges edges' : list Edge)
    (tiles : TileMap.t) :
  SortGraph nodes edges = Some (tiles, nodes', edges') ->
  length nodes' = length nodes /\
  Forall2 same_but_ends edges edges'.
Proof.
  unfold SortGraph. intros H.
  destruct (transform_loop _ _ _) as [st|] eqn:Hloop; simpl in H; [|discriminate].
  injection H as <- <- <-.
  apply transform_loop_frame in Hloop as [Hlen Hedges]. simpl in Hlen, Hedges.
  split; [|exact Hedges]. rewrite Hlen. apply sort_length.
Qed.

Lemma SortGraph_frame_witness :
  length Runs.path_sorted = length Inputs.path_nodes /\
  Forall2 same_but_ends Inputs.path_edges Runs.path_relinked.
Proof.
  apply (SortGraph_frame Inputs.path_nodes Runs.path_sorted Inputs.path_edges
           Runs.path_relinked Runs.path_tiles).
  vm_compute. reflexivity.
Defined.

(** The original ids along the sequence. *)
Lemma transform_loop_ids (count : nat) :
  forall i st st',
    transform_loop count i st = Some st' ->
    node_index st = Z.of_nat i ->
    Z.of_nat (i + count) < 2 ^ 32 ->
    (exists r, run_index st = Z.of_nat r /\
       ((i = 0 /\ r = 0)%nat \/
        ((r < i)%nat /\
         (osmid ∘ node <$> s_nodes st) !! r = Some (osmid (node (last_node st)))))) ->
    osmid ∘ node <$> s_nodes st' = osmid ∘ node <$> s_nodes st.
Proof.
  induction count as [|count IH]; intros i st st' H Hidx Hfit (r & Hr & Hrun);
    simpl in H.
  - now injection H as <-.
  - unfold Seq.at_ in H.
    destruct (s_nodes st !! i) as [n|] eqn:Hn; simpl in H; [|discriminate].
    destruct (sort_step st n) as [[n' st1]|] eqn:Hstep; simpl in H; [|discriminate].
    destruct (Seq.set (s_nodes st1) i n') as [nodes'|] eqn:Hset; simpl in H;
      [|discriminate].
    apply sort_step_spec in Hstep as (Hosm & Hlast & Hnext & _ & Hnodes).
    apply seq_set_insert in Hset.
    assert (Hids1 : osmid ∘ node <$> s_nodes st1 = osmid ∘ node <$> s_nodes st).
    { destruct Hnodes as [(-> & _) | (Hback & _ & Hnz)]; [reflexivity|].
      apply seq_set_insert in Hback. rewrite Hback, list_fmap_insert.
      destruct Hrun as [[-> _] | [_ Hlook]]; [lia|].
      rewrite Hr, Nat2Z.id. now apply list_insert_id. }
    assert (Hids' : osmid ∘ node <$> nodes' = osmid ∘ node <$> s_nodes st).
    { rewrite Hset, list_fmap_insert, Hids1. apply list_insert_id.
      rewrite list_lookup_fmap, Hn. simpl. now rewrite Hosm. }
    apply IH with (i := S i) in H; simpl.
    + simpl in H. now rewrite H.
    + rewrite Hnext, Hidx. unfold u32, bits. rewrite Z.mod_small by lia. lia.
    + lia.
    + assert (Hat : (osmid ∘ node <$> nodes') !! i = Some (osmid (node n'))).
      { rewrite Hids', list_lookup_fmap, Hn. simpl. now rewrite Hosm. }
      destruct Hnodes as [(_ & Hsame & Hdup) | (_ & Hnew & _)].
      * exists r. split; [congruence|]. right.
        destruct Hrun as [[-> ->] | [Hlt Hlook]].
        -- split; [lia|]. now rewrite Hlast.
        -- split; [lia|]. rewrite Hids', Hlook, Hlast. f_equal.
           destruct Hdup as [Hz | Heq]; [lia | congruence].
      * exists i. split; [congruence|]. right. split; [lia|]. now rewrite Hlast.
Qed.

(** X7: with fewer than 2^32 nodes, the forward pass of [SortGraph] leaves
    at every position a record of the original id the sort put there; what is
    written back over the first record of a run is a record of the same id. *)
Theorem SortGraph_keeps_ids (nodes nodes' : list Node) (edges edges' : list Edge)
    (tiles : TileMap.t) :
  SortGraph nodes edges = Some (tiles, nodes', edges') ->
  Z.of_nat (length nodes) < 2 ^ 32 ->
  osmid ∘ node <$> nodes' = osmid ∘ node <$> SeqSort.sort node_less nodes.
Proof.
  unfold SortGraph. intros H Hfit.
  destruct (transform_loop _ _ _) as [st|] eqn:Hloop; simpl in H; [|discriminate].
  injection H as <- <- <-.
  apply transform_loop_ids in Hloop; simpl; [exact Hloop | reflexivity | |].
  - rewrite sort_length. lia.
  - exists 0%nat. split; [reflexivity|]. now left.
Qed.

Lemma SortGraph_keeps_ids_witness :
  osmid ∘ node <$> Runs.path_sorted
  = osmid ∘ node <$> SeqSort.sort node_less Inputs.path_nodes.
Proof.
  apply (SortGraph_keeps_ids Inputs.path_nodes Runs.path_sorted Inputs.path_edges
           Runs.path_relinked Runs.path_tiles).
  - vm_compute. reflexivity.
  - simpl. lia.
Defined.

(** ** ReclassifyLinks *)

Lemma reclassified_refl (edges : list Edge) : Forall2 reclassified edges edges.
Proof. induction edges; constructor; [now left | assumption]. Qed.

Lemma reclassified_step (a b c : Edge) :
  reclassified a b -> reclassified b c -> reclassified a c.
Proof.
  intros [-> | (Hl & rc & ->)] [-> | (Hl' & rc' & ->)].
  - now left.
  - right. split; [exact Hl'|]. now exists rc'.
  - right. split; [exact Hl|]. now exists rc.
  - right. split; [exact Hl|]. exists rc'. reflexivity.
Qed.

Lemma reclassified_trans (a b c : list Edge) :
  Forall2 reclassified a b -> Forall2 reclassified b c -> Forall2 reclassified a c.
Proof.
  intros Hab. revert c. induction Hab as [|x y a b Hxy _ IH]; intros c Hbc.
  - inversion Hbc. constructor.
  - inversion Hbc as [|y' z b' c' Hyz Hbc']; subst.
    constructor; [eapply reclassified_step; eassumption | now apply IH].
Qed.

Lemma reclassified_link (e e' : Edge) :
  reclassified e e' -> e_link (attributes e') = e_link (attributes e).
Proof. intros [-> | (_ & rc & ->)]; reflexivity. Qed.

Lemma reclassified_link_at (a b : list Edge) (idx : nat) :
  Forall2 reclassified a b -> link_at a idx -> link_at b idx.
Proof.
  intros Hab (e & He & Hl).
  destruct (Forall2_lookup_l _ _ _ _ _ Hab He) as (e' & He' & Hr).
  exists e'. split; [exact He'|]. now rewrite (reclassified_link _ _ Hr).
Qed.

Section LinkFrame.
Variable ways : list OSMWay.
Variable nodes : list Node.
Variable begin_ : nat -> nat -> nat -> USet.chooser.

Lemma raise_importance_frame (rc : Z) (idxs : list nat) :
  forall edges count edges' count',
    raise_importance rc idxs edges count = Some (edges', count') ->
    Forall (link_at edges) idxs ->
    Forall2 reclassified edges edges'.
Proof.
  induction idxs as [|idx idxs IH]; intros edges count edges' count' H Hlinks;
    simpl in H.
  - injection H as <- <-. apply reclassified_refl.
  - apply Forall_cons_1 in Hlinks as [(e & He & Hl) Hlinks].
    unfold Seq.at_ in H. rewrite He in H. simpl in H.
    destruct (rc >? importance (attributes e)).
    + destruct (Seq.set edges idx _) as [edges1|] eqn:Hset; simpl in H;
        [|discriminate].
      apply seq_set_insert in Hset.
      assert (Hstep : Forall2 reclassified edges edges1).
      { rewrite Hset. rewrite <- (list_insert_id edges idx e He) at 1.
        apply Forall2_insert; [apply reclassified_refl|].
        right. split; [exact Hl|]. now exists rc. }
      eapply reclassified_trans; [exact Hstep|].
      eapply IH; [exact H|].
      eapply Forall_impl; [exact Hlinks|]. intros i.
      now apply reclassified_link_at.
    + eapply IH; eassumption.
Qed.

Lemma frontier_empty_frame (st st' : link_state) (startedge : Edge * nat) :
  frontier_empty ways st startedge = Some st' ->
  Forall (link_at (l_edges st)) (linkedgeindexes st) ->
  Forall2 reclassified (l_edges st) (l_edges st').
Proof.
  unfold frontier_empty. intros H Hlinks.
  destruct (length (endrc st) <? 2)%nat.
  - destruct (Seq.at_ ways _); simpl in H; [|discriminate].
    injection H as <-. apply reclassified_refl.
  - destruct (SeqSort.sort Z.ltb (endrc st) !! 1%nat) as [rc|]; simpl in H;
      [|discriminate].
    destruct (raise_importance _ _ _ _) as [[edges' count']|] eqn:Hraise;
      simpl in H; [|discriminate].
    injection H as <-. simpl. eapply raise_importance_frame; eassumption.
Qed.

Lemma expand_frame (st st' : link_state) (edge : Edge) (node_itr : nat) :
  expand nodes st edge node_itr = Some st' ->
  l_edges st' = l_edges st /\ linkedgeindexes st' = linkedgeindexes st.
Proof.
  unfold expand. intros H.
  destruct (Seq.at_ nodes _) as [end_node|]; simpl in H; [|discriminate].
  destruct (non_link_edge (node end_node)).
  - destruct (collect_node_edges _ _ _); simpl in H; [|discriminate].
    injection H as <-. split; reflexivity.
  - injection H as <-. split; reflexivity.
Qed.

Lemma expand_edges_frame (startedge : Edge * nat) (expandnode : nat)
    (es : list (Edge * nat)) :
  forall st st',
    expand_edges nodes st startedge expandnode es = Some st' ->
    l_edges st' = l_edges st /\ linkedgeindexes st' = linkedgeindexes st.
Proof.
  induction es as [|pr es IH]; intros st st' H; simpl in H.
  - injection H as <-. split; reflexivity.
  - destruct (pr.2 =? startedge.2)%nat; [now apply IH|].
    destruct (negb (e_link (attributes pr.1))); [now apply IH|].
    destruct (expand nodes st pr.1 expandnode) as [st1|] eqn:Hex; simpl in H;
      [|discriminate].
    apply expand_frame in Hex as [He Hi]. apply IH in H as [He' Hi'].
    split; congruence.
Qed.

Lemma expand_loop_frame (begin_at : nat -> USet.chooser) (rounds : nat)
    (startedge : Edge * nat) :
  forall st st',
    expand_loop ways nodes begin_at rounds st startedge = Some st' ->
    Forall (link_at (l_edges st)) (linkedgeindexes st) ->
    Forall2 reclassified (l_edges st) (l_edges st').
Proof.
  induction rounds as [|rounds IH]; intros st st' H Hlinks; simpl in H.
  - injection H as <-. apply reclassified_refl.
  - destruct (USet.pop _ (expandset st)) as [[expandnode others]|].
    + destruct (collect_node_edges expandnode nodes _) as [expanded|];
        simpl in H; [|discriminate].
      destruct (expand_edges nodes _ startedge expandnode (b_edges expanded))
        as [st1|] eqn:Hex; simpl in H; [|discriminate].
      apply expand_edges_frame in Hex as [He Hi]. simpl in He, Hi.
      apply IH in H; [|now rewrite He, Hi].
      now rewrite He in H.
    + eapply frontier_empty_frame; eassumption.
Qed.

Lemma from_link_edges_frame (node_itr : nat) (es : list (Edge * nat)) :
  forall st st',
    from_link_edges ways nodes begin_ st node_itr es = Some st' ->
    Forall (fun pr => e_link (attributes pr.1) = true -> link_at (l_edges st) pr.2) es ->
    Forall2 reclassified (l_edges st) (l_edges st').
Proof.
  induction es as [|startedge es IH]; intros st st' H Hes;
    cbn [from_link_edges] in H.
  - injection H as <-. apply reclassified_refl.
  - apply Forall_cons_1 in Hes as [Hstart Hes].
    destruct (e_link (attributes startedge.1)) eqn:Hl; cbn [negb] in H; cbv iota in H.
    + destruct (expand nodes (start_expansion st startedge.2) startedge.1 node_itr)
        as [st1|] eqn:Hex; cbn [mbind option_bind] in H; [|discriminate].
      apply expand_frame in Hex as [He Hi]. simpl in He, Hi.
      destruct (expand_loop ways nodes _ 512 st1 startedge) as [st2|] eqn:Hloop;
        cbn [mbind option_bind] in H; [|discriminate].
      apply expand_loop_frame in Hloop;
        [|rewrite He, Hi; constructor; [now apply Hstart | constructor]].
      rewrite He in Hloop.
      eapply reclassified_trans; [exact Hloop|].
      apply IH; [exact H|].
      eapply Forall_impl; [exact Hes|]. intros pr Hpr Hlink.
      eapply reclassified_link_at; [exact Hloop | now apply Hpr].
    + now apply IH.
Qed.

Lemma bundle_links (edges : list Edge) (b : node_bundle) (p : nat) :
  collect_node_edges p nodes edges = Some b ->
  Forall (fun pr => e_link (attributes pr.1) = true -> link_at edges pr.2) (b_edges b).
Proof.
  intros H. apply collect_node_edges_at_position in H as Hat.
  eapply Forall_impl; [exact Hat|]. intros pr Hpr Hl. now exists pr.1.
Qed.

Lemma nodes_loop_frame (fuel : nat) :
  forall node_itr st st',
    nodes_loop ways nodes begin_ fuel node_itr st = Some st' ->
    Forall2 reclassified (l_edges st) (l_edges st').
Proof.
  induction fuel as [|fuel IH]; intros node_itr st st' H;
    cbn [nodes_loop] in H; [discriminate|].
  destruct (decide _); [|injection H as <-; apply reclassified_refl].
  destruct (collect_node_edges node_itr nodes (l_edges st)) as [bundle|] eqn:Hb;
    cbn [mbind option_bind] in H; [|discriminate].
  destruct (link_edge (node (b_node bundle)) && non_link_edge (node (b_node bundle))).
  - destruct (from_link_edges ways nodes begin_ _ node_itr (b_edges bundle)) as [st1|] eqn:Hfrom;
      cbn [mbind option_bind] in H; [|discriminate].
    apply from_link_edges_frame in Hfrom; [|now apply (bundle_links _ _ node_itr)].
    simpl in Hfrom. eapply reclassified_trans; [exact Hfrom|]. eapply IH; exact H.
  - cbn [mbind option_bind] in H. eapply IH; exact H.
Qed.
End LinkFrame.

(** X8: whichever member [begin()] hands out of [expandset],
    [ReclassifyLinks] gives back as many edges as it was given, each of
    them either as it was or, when it is a link edge, with another
    importance; a non-link edge is never changed, and of a link edge nothing
    but the importance is. *)
Theorem ReclassifyLinks_frame (ways : list OSMWay) (nodes : list Node)
    (begin_ : nat -> nat -> nat -> USet.chooser) (edges edges' : list Edge)
    (stats stats' : DataQuality) :
  ReclassifyLinks ways nodes begin_ edges stats = Some (edges', stats') ->
  Forall2 (fun e e' =>
    e' = e \/
    (e_link (attributes e) = true /\
     exists rc, e' = with_attributes e (set_importance (attributes e) rc)))
    edges edges'.
Proof.
  unfold ReclassifyLinks. intros H.
  destruct (nodes_loop _ _ _ _ _ _) as [st|] eqn:Hloop; simpl in H; [|discriminate].
  injection H as <- <-.
  apply nodes_loop_frame in Hloop. exact Hloop.
Qed.

Lemma ReclassifyLinks_frame_witness :
  Forall2 (fun e e' =>
    e' = e \/
    (e_link (attributes e) = true /\
     exists rc, e' = with_attributes e (set_importance (attributes e) rc)))
    RampFork.edges
    [Inputs.ed 0 19 2 false; Inputs.ed 0 3 1 true; Inputs.ed 3 7 1 true;
     Inputs.ed 3 10 1 true; Inputs.ed 7 13 3 true; Inputs.ed 10 16 4 true;
     Inputs.ed 13 20 3 false; Inputs.ed 16 21 4 false].
Proof.
  apply (ReclassifyLinks_frame [Inputs.way2] RampFork.nodes (fun _ _ _ => last_inserted)
           RampFork.edges _ (mkDataQuality []) (mkDataQuality [])).
  vm_compute. reflexivity.
Defined.




(** ** BuildLocalTiles *)

Lemma divvy_consecutive (todo : nat) :
  forall i floor at_ceiling tile_end,
    consecutive tile_end (divvy todo i floor at_ceiling tile_end)
      (tile_end + todo * floor + (Nat.min (i + todo) at_ceiling - Nat.min i at_ceiling)).
Proof.
  induction todo as [|todo IH]; intros i floor at_ceiling tile_end; simpl.
  - lia.
  - split; [reflexivity|]. split; [lia|].
    specialize (IH (S i) floor at_ceiling
                  (tile_end + (if decide (i < at_ceiling)%nat then S floor else floor))%nat).
    destruct (decide (i < at_ceiling)%nat).
    + replace (tile_end + (floor + todo * floor)
               + (Nat.min (i + S todo) at_ceiling - Nat.min i at_ceiling))%nat
        with (tile_end + S floor + todo * floor
              + (Nat.min (S i + todo) at_ceiling - Nat.min (S i) at_ceiling))%nat
        by lia.
      exact IH.
    + replace (tile_end + (floor + todo * floor)
               + (Nat.min (i + S todo) at_ceiling - Nat.min i at_ceiling))%nat
        with (tile_end + floor + todo * floor
              + (Nat.min (S i + todo) at_ceiling - Nat.min (S i) at_ceiling))%nat
        by lia.
      exact IH.
Qed.

Lemma divvy_sizes (todo : nat) :
  forall i floor at_ceiling tile_end j r,
    divvy todo i floor at_ceiling tile_end !! j = Some r ->
    (r.2 - r.1 = if decide (i + j < at_ceiling) then S floor else floor)%nat.
Proof.
  induction todo as [|todo IH]; intros i floor at_ceiling tile_end j r H; simpl in H.
  - discriminate.
  - destruct j as [|j]; simpl in H.
    + injection H as <-. simpl. rewrite Nat.add_0_r.
      destruct (decide (i < at_ceiling)%nat); lia.
    + apply IH in H. rewrite H.
      replace (S i + j)%nat with (i + S j)%nat by lia. reflexivity.
Qed.

(** X10: when [BuildLocalTiles] starts its threads (the thread count is not
    0), there is one range per thread, the ranges follow one another from
    the first tile to the last, so that every tile is in exactly one of
    them, and with T tiles and n threads the first T mod n ranges hold
    T / n + 1 tiles and the others T / n. *)
Theorem BuildLocalTiles_divides_tiles
    (BuildTileSet : list Node -> list Edge -> nat -> nat -> DataQuality + string)
    (AddStatistics : DataQuality -> DataQuality -> DataQuality)
    (thread_count : Z) (nodes : list Node) (edges : list Edge)
    (tiles : TileMap.t) (stats : DataQuality)
    (ranges : list (nat * nat)) (out : outcome DataQuality) :
  BuildLocalTiles BuildTileSet AddStatistics thread_count nodes edges tiles stats
    = Some (ranges, out) ->
  let n := Z.to_nat (u32 thread_count) in
  length ranges = n /\
  consecutive 0 ranges (length tiles) /\
  forall j r, ranges !! j = Some r ->
    (r.2 - r.1 = if decide (j < length tiles mod n) then S (length tiles / n)
                 else length tiles / n)%nat.
Proof.
  intros H n. unfold BuildLocalTiles in H. fold n in H.
  destruct (decide (n = 0)%nat) as [|Hn]; [discriminate|].
  injection H as <- _.
  assert (Hmod : (length tiles - n * (length tiles / n) = length tiles mod n)%nat).
  { rewrite (Nat.div_mod_eq (length tiles) n) at 1. lia. }
  rewrite Hmod.
  pose proof (Nat.mod_upper_bound (length tiles) n Hn) as Hlt.
  split; [apply divvy_length|]. split.
  - pose proof (divvy_consecutive n 0 (length tiles / n) (length tiles mod n) 0) as Hc.
    replace (0 + n * (length tiles / n)
             + (Nat.min (0 + n) (length tiles mod n) - Nat.min 0 (length tiles mod n)))%nat
      with (length tiles) in Hc; [exact Hc|].
    rewrite (Nat.div_mod_eq (length tiles) n) at 1. lia.
  - intros j r Hj. apply divvy_sizes in Hj. exact Hj.
Qed.

Lemma BuildLocalTiles_divides_tiles_witness :
  let tiles := [(mkGraphId 1 0, 0%nat); (mkGraphId 2 0, 1%nat); (mkGraphId 3 0, 2%nat);
                (mkGraphId 4 0, 3%nat); (mkGraphId 5 0, 4%nat)] in
  let ranges := [(0, 2); (2, 4); (4, 5)]%nat in
  let n := Z.to_nat (u32 3) in
  length ranges = n /\
  consecutive 0 ranges (length tiles) /\
  forall j r, ranges !! j = Some r ->
    (r.2 - r.1 = if decide (j < length tiles mod n) then S (length tiles / n)
                 else length tiles / n)%nat.
Proof.
  intros tiles ranges.
  apply (BuildLocalTiles_divides_tiles Inputs.quiet_worker Inputs.merge 3 [] []
           tiles (mkDataQuality []) ranges (Returned (mkDataQuality []))).
  vm_compute. reflexivity.
Defined.

(** X11: the check of the outcomes never throws: it returns the statistics
    it was given with those of the workers that did not fail merged in, in
    the order of the workers; a worker that failed adds nothing. *)
Theorem check_outcomes_merges_successes
    (AddStatistics : DataQuality -> DataQuality -> DataQuality)
    (results : list (DataQuality + string)) (stats : DataQuality) :
  check_outcomes AddStatistics results stats
  = Returned (fold_left AddStatistics (successes results) stats).
Proof.
  revert stats. induction results as [|[stat|e] results IH]; intros stats; simpl.
  - reflexivity.
  - apply IH.
  - apply IH.
Qed.

(** ** GetRef without directions *)

Module RefPlain.
Import Tag RefSpec RefSpec2 RefProofs.
Open Scope string_scope.

Lemma join_cons_char (c : ascii) (t : string) (ts : list string) :
  join (String c t :: ts) = String c (join (t :: ts)).
Proof. destruct ts; reflexivity. Qed.

(** Joining the tokens gives the value back. *)
Lemma join_tokens (s : string) : join (GetTagTokens s ";") = s.
Proof.
  induction s as [|c s IH]; [reflexivity|]. simpl GetTagTokens.
  destruct (Ascii.eqb_spec c ";") as [->|Hc].
  - pose proof (tokens_not_nil s ";") as Hne.
    destruct (GetTagTokens s ";") as [|t ts]; [congruence|].
    change (join ("" :: t :: ts)) with ("" ++ ";" ++ join (t :: ts)).
    now rewrite IH.
  - pose proof (tokens_not_nil s ";") as Hne.
    destruct (GetTagTokens s ";") as [|t ts]; [congruence|].
    now rewrite join_cons_char, IH.
Qed.

Lemma join_drop_tokens (s : string) :
  join (drop_empties (GetTagTokens s ";")) = drop_leading ";" s.
Proof.
  induction s as [|c s IH]; [reflexivity|].
  simpl GetTagTokens. simpl drop_leading.
  destruct (Ascii.eqb_spec c ";") as [->|Hc].
  - simpl. exact IH.
  - pose proof (tokens_not_nil s ";") as Hne.
    pose proof (join_tokens s) as Hj.
    destruct (GetTagTokens s ";") as [|t ts]; [congruence|].
    simpl drop_empties. now rewrite join_cons_char, Hj.
Qed.

Lemma drop_leading_absent (s : string) :
  (match s with String ";" _ => false | _ => true end) = true ->
  drop_leading ";" s = s.
Proof.
  destruct s as [|c s]; [reflexivity|]. simpl.
  destruct (Ascii.eqb_spec c ";") as [->|]; [discriminate | reflexivity].
Qed.

(** X12: when the relation gives none of the way's refs a direction,
    [GetRef] returns the way ref without the [';'] it begins with; a way
    ref that does not begin with [';'] comes back as it is. *)
Theorem GetRef_without_directions (way_ref relation_ref : string) :
  undirected way_ref relation_ref = true ->
  GetRef way_ref relation_ref = drop_leading ";" way_ref /\
  ((match way_ref with String ";" _ => false | _ => true end) = true ->
   GetRef way_ref relation_ref = way_ref).
Proof.
  intros Hun.
  assert (H : GetRef way_ref relation_ref = drop_leading ";" way_ref).
  { rewrite GetRef_join_refs, join_refs_drop, <- join_drop_tokens.
    do 2 f_equal. apply map_fixed.
    unfold undirected in Hun. rewrite forallb_forall in Hun.
    apply Forall_forall. intros ref Hin. apply list_elem_of_In, Hun in Hin.
    unfold with_dir. now destruct (direction _ ref). }
  split; [exact H|]. intros Hfirst. rewrite H. now apply drop_leading_absent.
Qed.

Lemma GetRef_without_directions_witness :
  GetRef "US 51;I 57" "I 55|south" = drop_leading ";" "US 51;I 57" /\
  ((match "US 51;I 57" with String ";" _ => false | _ => true end) = true ->
   GetRef "US 51;I 57" "I 55|south" = "US 51;I 57").
Proof.
  apply (GetRef_without_directions "US 51;I 57" "I 55|south").
  reflexivity.
Defined.
End RefPlain.

(** ** GetLinkUse and UpdateLinkSpeed *)

Lemma other_link_false (edgeindex : nat) (es : list (Edge * nat)) :
  other_link edgeindex es = false <-> only_link edgeindex es.
Proof.
  unfold only_link. induction es as [|pr es IH]; simpl.
  - split; [constructor | reflexivity].
  - rewrite Forall_cons, <- IH.
    destruct (Nat.eqb_spec pr.2 edgeindex) as [Heq|Hne]; simpl.
    + split; [intros H; split; [auto | exact H] | tauto].
    + destruct (e_link (attributes pr.1)); simpl.
      * split; [discriminate | intros [H _]; specialize (H eq_refl); congruence].
      * split; [intros H; split; [discriminate | exact H] | tauto].
Qed.

Lemma RoadClass_eqb_eq (a b : RoadClass) : RoadClass_eqb a b = true <-> a = b.
Proof. destruct a, b; simpl; split; congruence. Qed.

Section LinkUseFacts.
Variable float : Type.
Variable fgt : float -> float -> bool.
Variable fmul : float -> float -> float.
Variable tenths : Z -> float.
Variable kMaxTurnChannelLength : float.

Lemma GetLinkUse_range (edgeindex : nat) (rc : RoadClass) (length_ : float)
    (startnode endnode : nat) (nodes : list Node) (edges : list Edge) (use : Use) :
  GetLinkUse float fgt kMaxTurnChannelLength edgeindex rc length_
    startnode endnode nodes edges = Some use ->
  use = kRamp \/ use = kTurnChannel.
Proof.
  unfold GetLinkUse. intros H.
  destruct (_ || _ || _); [injection H as <-; now left|].
  destruct (collect_node_edges startnode nodes edges) as [startnd|];
    simpl in H; [|discriminate].
  destruct (collect_node_edges endnode nodes edges) as [endnd|];
    simpl in H; [|discriminate].
  destruct (_ && _); [|injection H as <-; now left].
  destruct (other_link edgeindex (b_edges startnd)); [injection H as <-; now left|].
  destruct (other_link edgeindex (b_edges endnd)); injection H as <-; auto.
Qed.

(** X13: [GetLinkUse] answers [kRamp] or [kTurnChannel] and nothing else;
    for a motorway or trunk class or a length above the limit it answers
    [kRamp] without reading a node; and it answers [kTurnChannel] exactly
    when the class is neither motorway nor trunk, the length is not above
    the limit, both end nodes carry [non_link_edge], and no link edge
    other than the edge itself is among the edges collected at either
    end. *)
Theorem GetLinkUse_turn_channel (edgeindex : nat) (rc : RoadClass) (length_ : float)
    (startnode endnode : nat) (nodes : list Node) (edges : list Edge) :
  (forall use,
     GetLinkUse float fgt kMaxTurnChannelLength edgeindex rc length_
       startnode endnode nodes edges = Some use ->
     use = kRamp \/ use = kTurnChannel) /\
  (rc = kMotorway \/ rc = kTrunk \/ fgt length_ kMaxTurnChannelLength = true ->
   GetLinkUse float fgt kMaxTurnChannelLength edgeindex rc length_
     startnode endnode nodes edges = Some kRamp) /\
  (GetLinkUse float fgt kMaxTurnChannelLength edgeindex rc length_
     startnode endnode nodes edges = Some kTurnChannel <->
   rc <> kMotorway /\ rc <> kTrunk /\ fgt length_ kMaxTurnChannelLength = false /\
   exists startnd endnd,
     collect_node_edges startnode nodes edges = Some startnd /\
     collect_node_edges endnode nodes edges = Some endnd /\
     non_link_edge (node (b_node startnd)) = true /\
     non_link_edge (node (b_node endnd)) = true /\
     only_link edgeindex (b_edges startnd) /\
     only_link edgeindex (b_edges endnd)).
Proof.
  split; [|unfold GetLinkUse; split].
  - intros use. apply GetLinkUse_range.
  - intros [-> | [-> | ->]]; simpl; [reflexivity | reflexivity |].
    now rewrite orb_true_r.
  - split.
    + intros H.
      destruct (RoadClass_eqb rc kMotorway) eqn:Hm; [discriminate|].
      destruct (RoadClass_eqb rc kTrunk) eqn:Ht; [discriminate|].
      destruct (fgt length_ kMaxTurnChannelLength) eqn:Hl; [discriminate|].
      simpl in H.
      destruct (collect_node_edges startnode nodes edges) as [startnd|];
        simpl in H; [|discriminate].
      destruct (collect_node_edges endnode nodes edges) as [endnd|];
        simpl in H; [|discriminate].
      destruct (non_link_edge (node (b_node startnd))) eqn:Hs; [|discriminate].
      destruct (non_link_edge (node (b_node endnd))) eqn:He; [|discriminate].
      simpl in H.
      destruct (other_link edgeindex (b_edges startnd)) eqn:Ho1; [discriminate|].
      destruct (other_link edgeindex (b_edges endnd)) eqn:Ho2; [discriminate|].
      split; [intros ->; discriminate|]. split; [intros ->; discriminate|].
      split; [reflexivity|]. exists startnd, endnd.
      repeat split; try assumption; try reflexivity; now apply other_link_false.
    + intros (Hm & Ht & Hl & startnd & endnd & -> & -> & Hs & He & Ho1 & Ho2).
      apply other_link_false in Ho1, Ho2.
      destruct (RoadClass_eqb rc kMotorway) eqn:Hm';
        [apply RoadClass_eqb_eq in Hm'; congruence|].
      destruct (RoadClass_eqb rc kTrunk) eqn:Ht';
        [apply RoadClass_eqb_eq in Ht'; congruence|].
      rewrite Hl. simpl. now rewrite Hs, He, Ho1, Ho2.
Qed.

(** X14: [UpdateLinkSpeed] on the answer of [GetLinkUse] is, for a turn
    channel, the speed of the way times [0.9f], and for a ramp a constant
    that is the same for every speed of the way and that the road class
    alone decides: 95 for a motorway, 80 for a trunk road, and between 25
    and 65 for the other classes. *)
Theorem link_speed_by_use (edgeindex : nat) (rc : RoadClass) (length_ : float)
    (startnode endnode : nat) (nodes : list Node) (edges : list Edge)
    (use : Use) :
  GetLinkUse float fgt kMaxTurnChannelLength edgeindex rc length_
    startnode endnode nodes edges = Some use ->
  (use = kTurnChannel /\
   forall spd, UpdateLinkSpeed float fmul tenths use rc spd
               = fmul spd (tenths 9)) \/
  (use = kRamp /\
   exists v,
     (forall spd, UpdateLinkSpeed float fmul tenths use rc spd = tenths v) /\
     (rc = kMotorway -> v = 950) /\ (rc = kTrunk -> v = 800) /\
     (rc <> kMotorway -> rc <> kTrunk -> 250 <= v <= 650)).
Proof.
  intros H.
  destruct (GetLinkUse_range _ _ _ _ _ _ _ _ H) as [-> | ->].
  - right. split; [reflexivity|]. unfold UpdateLinkSpeed. simpl.
    destruct rc; simpl; eexists; (split; [intros spd; reflexivity|]);
      repeat split; intros; (reflexivity || discriminate || congruence || lia).
  - left. split; [reflexivity|]. intros spd. reflexivity.
Qed.
End LinkUseFacts.

Lemma link_speed_by_use_witness :
  (kRamp = kTurnChannel /\
   forall spd, UpdateLinkSpeed Z Z.mul (fun t => t) kRamp kPrimary spd
               = Z.mul spd 9) \/
  (kRamp = kRamp /\
   exists v,
     (forall spd, UpdateLinkSpeed Z Z.mul (fun t => t) kRamp kPrimary spd = v) /\
     (kPrimary = kMotorway -> v = 950) /\ (kPrimary = kTrunk -> v = 800) /\
     (kPrimary <> kMotorway -> kPrimary <> kTrunk -> 250 <= v <= 650)).
Proof.
  apply (link_speed_by_use Z Z.gtb Z.mul (fun t => t) 300 0 kPrimary 500 0 2
           Inputs.ramp_nodes Inputs.ramp_edges kRamp).
  vm_compute. reflexivity.
Defined.

(** ** OnewayPairEdgesExist and IsIntersectionInternal *)

Lemma oneway_exclusive (node_index : nat) (e : Edge) (w : OSMWay) :
  oneway_inbound node_index e w = true -> oneway_outbound node_index e w = false.
Proof.
  unfold oneway_inbound, oneway_outbound.
  destruct (sourcenode_ e =? Z.of_nat node_index), (auto_forward w), (auto_backward w);
    simpl; congruence.
Qed.

Section InternalFacts.
Variable float : Type.
Variable fgt : float -> float -> bool.
Variable kMaxInternalLength : float.
Variable ways : list OSMWay.

Lemma oneway_flags_found (node_index edgeindex : nat) (wayid : Z)
    (es : list (Edge * nat)) :
  forall inbound outbound inbound' outbound',
    oneway_flags ways node_index edgeindex wayid es inbound outbound
      = Some (inbound', outbound') ->
    (inbound' = true ->
     inbound = true \/
     exists i pr w, es !! i = Some pr /\ counted ways edgeindex wayid pr w /\
                    oneway_inbound node_index pr.1 w = true) /\
    (outbound' = true ->
     outbound = true \/
     exists i pr w, es !! i = Some pr /\ counted ways edgeindex wayid pr w /\
                    oneway_outbound node_index pr.1 w = true).
Proof.
  induction es as [|pr es IH]; intros inbound outbound inbound' outbound' H;
    simpl in H.
  - injection H as <- <-. auto.
  - assert (Hshift : forall (P : Edge * nat -> OSMWay -> Prop),
              (exists i pr' w, es !! i = Some pr' /\ P pr' w) ->
              exists i pr' w, (pr :: es) !! i = Some pr' /\ P pr' w).
    { intros P (i & pr' & w & Hi & HP). exists (S i), pr', w. auto. }
    destruct (Nat.eqb_spec pr.2 edgeindex) as [Heq|Hne].
    { apply IH in H as [Hin Hout]. split; intros Ht.
      - destruct (Hin Ht) as [?|Hex]; [now left|]. right.
        apply (Hshift (fun pr' w => counted ways edgeindex wayid pr' w /\
                                     oneway_inbound node_index pr'.1 w = true)).
        destruct Hex as (i & pr' & w & ? & ? & ?). eauto 6.
      - destruct (Hout Ht) as [?|Hex]; [now left|]. right.
        apply (Hshift (fun pr' w => counted ways edgeindex wayid pr' w /\
                                     oneway_outbound node_index pr'.1 w = true)).
        destruct Hex as (i & pr' & w & ? & ? & ?). eauto 6. }
    unfold Seq.at_ in H.
    destruct (ways !! Z.to_nat (wayindex_ pr.1)) as [w|] eqn:Hw; simpl in H;
      [|discriminate].
    destruct (Z.eqb_spec (way_id w) wayid) as [Hid|Hid]; simpl in H.
    { apply IH in H as [Hin Hout]. split; intros Ht.
      - destruct (Hin Ht) as [?|Hex]; [now left|]. right.
        apply (Hshift (fun pr' w => counted ways edgeindex wayid pr' w /\
                                     oneway_inbound node_index pr'.1 w = true)).
        destruct Hex as (i & pr' & w' & ? & ? & ?). eauto 6.
      - destruct (Hout Ht) as [?|Hex]; [now left|]. right.
        apply (Hshift (fun pr' w => counted ways edgeindex wayid pr' w /\
                                     oneway_outbound node_index pr'.1 w = true)).
        destruct Hex as (i & pr' & w' & ? & ? & ?). eauto 6. }
    destruct (e_link (attributes pr.1)) eqn:Hl; simpl in H.
    { apply IH in H as [Hin Hout]. split; intros Ht.
      - destruct (Hin Ht) as [?|Hex]; [now left|]. right.
        apply (Hshift (fun pr' w => counted ways edgeindex wayid pr' w /\
                                     oneway_inbound node_index pr'.1 w = true)).
        destruct Hex as (i & pr' & w' & ? & ? & ?). eauto 6.
      - destruct (Hout Ht) as [?|Hex]; [now left|]. right.
        apply (Hshift (fun pr' w => counted ways edgeindex wayid pr' w /\
                                     oneway_outbound node_index pr'.1 w = true)).
        destruct Hex as (i & pr' & w' & ? & ? & ?). eauto 6. }
    assert (Hc : counted ways edgeindex wayid pr w) by (repeat split; assumption).
    apply IH in H as [Hin Hout]. split; intros Ht.
    + destruct (Hin Ht) as [Hnow|Hex].
      * destruct (_ || _) eqn:Hcond in Hnow.
        -- right. exists 0%nat, pr, w. split; [reflexivity|]. split; [exact Hc|].
           unfold oneway_inbound.
           destruct (sourcenode_ pr.1 =? Z.of_nat node_index), (auto_forward w),
             (auto_backward w); simpl in *; congruence.
        -- now left.
      * right.
        apply (Hshift (fun pr' w => counted ways edgeindex wayid pr' w /\
                                     oneway_inbound node_index pr'.1 w = true)).
        destruct Hex as (i & pr' & w' & ? & ? & ?). eauto 6.
    + destruct (Hout Ht) as [Hnow|Hex].
      * destruct (_ || _) eqn:Hcond in Hnow.
        -- right. exists 0%nat, pr, w. split; [reflexivity|]. split; [exact Hc|].
           unfold oneway_outbound.
           destruct (sourcenode_ pr.1 =? Z.of_nat node_index), (auto_forward w),
             (auto_backward w); simpl in *; congruence.
        -- now left.
      * right.
        apply (Hshift (fun pr' w => counted ways edgeindex wayid pr' w /\
                                     oneway_outbound node_index pr'.1 w = true)).
        destruct Hex as (i & pr' & w' & ? & ? & ?). eauto 6.
Qed.

(** X15: when [OnewayPairEdgesExist] answers true, the bundle holds two
    different entries, neither the edge at [edgeindex] nor a link nor of
    the way [wayid], one on a way open to cars only towards the node and
    the other on a way open only away from it; one edge alone never makes
    the pair. *)
Theorem OnewayPairEdgesExist_two_edges (bundle : node_bundle)
    (node_index edgeindex : nat) (wayid : Z) :
  OnewayPairEdgesExist ways bundle node_index edgeindex wayid = Some true ->
  exists i j pi pj wi wj,
    i <> j /\
    b_edges bundle !! i = Some pi /\ b_edges bundle !! j = Some pj /\
    counted ways edgeindex wayid pi wi /\ counted ways edgeindex wayid pj wj /\
    oneway_inbound node_index pi.1 wi = true /\
    oneway_outbound node_index pj.1 wj = true.
Proof.
  unfold OnewayPairEdgesExist. intros H.
  destruct (oneway_flags _ _ _ _ _ _ _) as [[inbound outbound]|] eqn:Hflags;
    simpl in H; [|discriminate].
  injection H as H. apply andb_true_iff in H as [-> ->].
  apply oneway_flags_found in Hflags as [Hin Hout].
  destruct (Hin eq_refl) as [?|(i & pi & wi & Hi & Hci & Hini)]; [discriminate|].
  destruct (Hout eq_refl) as [?|(j & pj & wj & Hj & Hcj & Houtj)]; [discriminate|].
  exists i, j, pi, pj, wi, wj.
  split; [|repeat (split; [assumption|]); assumption].
  intros ->. assert (pi = pj) as -> by congruence.
  destruct Hci as (_ & Hwi & _), Hcj as (_ & Hwj & _).
  assert (wi = wj) as -> by congruence.
  apply oneway_exclusive in Hini. congruence.
Qed.

Lemma node_refs_length (edges : list Edge) (n : Node) :
  (length (node_refs edges n) <= 2)%nat.
Proof.
  unfold node_refs. rewrite length_app.
  destruct (is_start n), (is_end n); simpl;
    repeat match goal with
    | |- context [edge_ref edges ?i] => destruct (edge_ref edges i); simpl
    end; lia.
Qed.

Lemma flat_map_refs_length (edges : list Edge) (ns : list Node) :
  (length (flat_map (node_refs edges) ns) <= 2 * length ns)%nat.
Proof.
  induction ns as [|n ns IH]; simpl; [lia|].
  rewrite length_app. pose proof (node_refs_length edges n). lia.
Qed.

(** X16: when [IsIntersectionInternal] answers true, the length is not
    above [kMaxInternalLength], each end node has at least three edges in
    its bundle, which takes a run of at least three records, since a
    record adds two edges at most and the first record none, and at each
    end [OnewayPairEdgesExist] answers true for the bundle. *)
Theorem IsIntersectionInternal_true (startnode endnode edgeindex : nat)
    (wayid : Z) (length_ : float) (nodes : list Node) (edges : list Edge) :
  IsIntersectionInternal float fgt kMaxInternalLength ways startnode endnode
    edgeindex wayid length_ nodes edges = Some true ->
  fgt length_ kMaxInternalLength = false /\
  exists bundle1 bundle2,
    collect_node_edges startnode nodes edges = Some bundle1 /\
    collect_node_edges endnode nodes edges = Some bundle2 /\
    (3 <= length (b_edges bundle1))%nat /\ (3 <= length (b_edges bundle2))%nat /\
    (3 <= length (run_at nodes startnode))%nat /\
    (3 <= length (run_at nodes endnode))%nat /\
    OnewayPairEdgesExist ways bundle1 startnode edgeindex wayid = Some true /\
    OnewayPairEdgesExist ways bundle2 endnode edgeindex wayid = Some true.
Proof.
  unfold IsIntersectionInternal. intros H.
  destruct (fgt length_ kMaxInternalLength); [discriminate|].
  split; [reflexivity|].
  destruct (collect_node_edges startnode nodes edges) as [bundle1|] eqn:Hb1;
    simpl in H; [|discriminate].
  destruct (Nat.ltb_spec (length (b_edges bundle1)) 3) as [|Hl1]; [discriminate|].
  destruct (collect_node_edges endnode nodes edges) as [bundle2|] eqn:Hb2;
    simpl in H; [|discriminate].
  destruct (Nat.ltb_spec (length (b_edges bundle2)) 3) as [|Hl2]; [discriminate|].
  destruct (OnewayPairEdgesExist ways bundle1 startnode edgeindex wayid)
    as [[|]|] eqn:Hp1; simpl in H; try discriminate.
  destruct (OnewayPairEdgesExist ways bundle2 endnode edgeindex wayid)
    as [[|]|] eqn:Hp2; simpl in H; try discriminate.
  exists bundle1, bundle2. repeat split; try assumption; try reflexivity.
  - apply collect_node_edges_run in Hb1 as (_ & _ & He).
    rewrite He in Hl1.
    pose proof (flat_map_refs_length edges (tail (run_at nodes startnode))) as Hle.
    destruct (run_at nodes startnode); simpl in *; lia.
  - apply collect_node_edges_run in Hb2 as (_ & _ & He).
    rewrite He in Hl2.
    pose proof (flat_map_refs_length edges (tail (run_at nodes endnode))) as Hle.
    destruct (run_at nodes endnode); simpl in *; lia.
Qed.
End InternalFacts.

Lemma OnewayPairEdgesExist_two_edges_witness :
  exists i j pi pj wi wj,
    i <> j /\
    b_edges Crossing.at_S !! i = Some pi /\ b_edges Crossing.at_S !! j = Some pj /\
    counted Crossing.ways 0 100 pi wi /\ counted Crossing.ways 0 100 pj wj /\
    oneway_inbound 0 pi.1 wi = true /\
    oneway_outbound 0 pj.1 wj = true.
Proof.
  apply (OnewayPairEdgesExist_two_edges Crossing.ways Crossing.at_S 0 0 100).
  vm_compute. reflexivity.
Defined.

Lemma IsIntersectionInternal_true_witness :
  Z.gtb 10 20 = false /\
  exists bundle1 bundle2,
    collect_node_edges 0 Crossing.nodes Crossing.edges = Some bundle1 /\
    collect_node_edges 4 Crossing.nodes Crossing.edges = Some bundle2 /\
    (3 <= length (b_edges bundle1))%nat /\ (3 <= length (b_edges bundle2))%nat /\
    (3 <= length (run_at Crossing.nodes 0))%nat /\
    (3 <= length (run_at Crossing.nodes 4))%nat /\
    OnewayPairEdgesExist Crossing.ways bundle1 0 0 100 = Some true /\
    OnewayPairEdgesExist Crossing.ways bundle2 4 0 100 = Some true.
Proof.
  apply (IsIntersectionInternal_true Z Z.gtb 20 Crossing.ways 0 4 0 100 10
           Crossing.nodes Crossing.edges).
  vm_compute. reflexivity.
Defined.

(** ** IsNoThroughEdge *)

Lemma USet_insert_elem (x y : nat) (s : USet.t) :
  y ∈ USet.insert x s <-> y = x \/ y ∈ s.
Proof.
  unfold USet.insert. destruct (decide (x ∈ s)) as [Hin|Hnot].
  - split; [auto | intros [-> | H]; assumption].
  - rewrite elem_of_app, list_elem_of_singleton. tauto.
Qed.

Lemma USet_pop_elem (begin_ : USet.chooser) (s s' : USet.t) (x : nat) :
  USet.pop begin_ s = Some (x, s') ->
  x ∈ s /\ forall n, n ∈ s -> n = x \/ n ∈ s'.
Proof.
  unfold USet.pop, USet.t in *.
  destruct s as [|y s0] eqn:Hs; [discriminate|]. rewrite <- Hs.
  generalize (begin_ s mod length s)%nat. intros i.
  destruct (s !! i) as [z|] eqn:Hi; simpl; [|discriminate].
  intros H. injection H as <- <-. split.
  - eapply list_elem_of_lookup_2. exact Hi.
  - intros n Hn. apply list_elem_of_lookup_1 in Hn as [j Hj].
    destruct (decide (j = i)) as [->|Hne]; [left; congruence|].
    right. destruct (decide (j < i)%nat) as [Hlt|Hge].
    + eapply list_elem_of_lookup_2. rewrite list_lookup_delete_lt by exact Hlt.
      exact Hj.
    + eapply (list_elem_of_lookup_2 _ (j - 1)).
      rewrite list_lookup_delete_ge by lia.
      replace (S (j - 1)) with j by lia. exact Hj.
Qed.

Lemma USet_pop_none (begin_ : USet.chooser) (s : USet.t) :
  USet.pop begin_ s = None -> s = [].
Proof.
  unfold USet.pop, USet.t in *. destruct s as [|y s0] eqn:Hs; [reflexivity|].
  rewrite <- Hs.
  destruct (lookup_lt_is_Some_2 s (begin_ s mod length s)%nat) as [z Hz].
  { apply Nat.mod_upper_bound. rewrite Hs. discriminate. }
  rewrite Hz. discriminate.
Qed.

Lemma USet_pop_single (begin_ : USet.chooser) (x : nat) :
  USet.pop begin_ [x] = Some (x, []).
Proof. unfold USet.pop. simpl length. now rewrite Nat.mod_1_r. Qed.

Section NoThroughFacts.
Variable tertiary : Z.
Variable nodes : list Node.
Variable edges : list Edge.
Variable begin_ : nat -> USet.chooser.

Lemma scan_edges_frontier (startnode node_index startedgeindex : nat)
    (es : list (Edge * nat)) (visitedset : USet.t) :
  forall expandset expandset',
    scan_edges tertiary startnode node_index startedgeindex es visitedset expandset
      = Frontier expandset' ->
    (forall n, n ∈ expandset -> n ∈ expandset') /\
    Forall (fun pr => pr.2 <> startedgeindex ->
              nextendnode node_index pr.1 <> startnode /\
              tertiary < importance (attributes pr.1) /\
              (nextendnode node_index pr.1 ∈ visitedset \/
               nextendnode node_index pr.1 ∈ expandset')) es.
Proof.
  induction es as [|pr es IH]; intros expandset expandset' H; simpl in H.
  - injection H as <-. split; [auto | constructor].
  - destruct (Nat.eqb_spec pr.2 startedgeindex) as [Heq|Hne].
    + apply IH in H as [Hsub Hall]. split; [exact Hsub|].
      constructor; [intros Hc; contradiction | exact Hall].
    + destruct (Nat.eqb_spec (nextendnode node_index pr.1) startnode) as [|Hns];
        [discriminate|].
      destruct (Z.leb_spec (importance (attributes pr.1)) tertiary) as [|Himp];
        [discriminate|].
      simpl in H. apply IH in H as [Hsub Hall].
      destruct (decide (nextendnode node_index pr.1 ∈ visitedset)) as [Hv|Hv].
      * split; [exact Hsub|]. constructor; [|exact Hall].
        intros _. repeat split; auto.
      * split.
        -- intros n Hn. apply Hsub, USet_insert_elem. now right.
        -- constructor; [|exact Hall].
           intros _. repeat split; auto.
           right. apply Hsub, USet_insert_elem. now left.
Qed.

Lemma scan_edges_back (startnode node_index startedgeindex : nat)
    (es : list (Edge * nat)) (visitedset : USet.t) :
  forall expandset,
    Exists (way_out tertiary startnode startedgeindex node_index) es ->
    scan_edges tertiary startnode node_index startedgeindex es visitedset expandset
      = Back.
Proof.
  induction es as [|pr es IH]; intros expandset Hex; [inversion Hex|].
  simpl.
  destruct (Nat.eqb_spec pr.2 startedgeindex) as [Heq|Hne].
  - inversion Hex as [? ? [Hc _]|? ? Hrest]; subst; [contradiction|]. now apply IH.
  - destruct (Nat.eqb_spec (nextendnode node_index pr.1) startnode) as [|Hns];
      [reflexivity|].
    destruct (Z.leb_spec (importance (attributes pr.1)) tertiary) as [|Himp];
      [reflexivity|]. simpl.
    inversion Hex as [? ? [_ [Hc|Hc]]|? ? Hrest]; subst;
      [contradiction | lia | now apply IH].
Qed.

Lemma scan_edges_skip (startnode node_index startedgeindex : nat)
    (es : list (Edge * nat)) (visitedset expandset : USet.t) :
  Forall (fun pr => pr.2 = startedgeindex) es ->
  scan_edges tertiary startnode node_index startedgeindex es visitedset expandset
    = Frontier expandset.
Proof.
  induction 1 as [|pr es Hpr _ IH]; simpl; [reflexivity|].
  rewrite Hpr, Nat.eqb_refl. exact IH.
Qed.

Lemma thru_loop_true (startnode startedgeindex : nat) (tries : nat) :
  forall visitedset expandset,
    thru_loop tertiary nodes edges begin_ tries startnode startedgeindex
      visitedset expandset = Some true ->
    exists region,
      (forall n, n ∈ visitedset -> n ∈ region) /\
      (forall n, n ∈ expandset -> n ∈ region) /\
      (forall n, n ∈ region ->
         n ∈ visitedset \/
         enclosed tertiary nodes edges startnode startedgeindex region n).
Proof.
  induction tries as [|tries IH]; intros visitedset expandset H;
    cbn [thru_loop] in H; [discriminate|].
  destruct (USet.pop _ expandset) as [[node_index others]|] eqn:Hpop.
  2:{ apply USet_pop_none in Hpop as ->.
      exists visitedset. split; [auto|]. split; [|auto].
      intros n Hn. inversion Hn. }
  apply USet_pop_elem in Hpop as [Hmem Hrest].
  - destruct (collect_node_edges node_index nodes edges) as [bundle|] eqn:Hb;
      cbn [mbind option_bind] in H; [|discriminate].
    destruct (scan_edges _ _ _ _ _ _ _) as [|expandset'] eqn:Hscan; [discriminate|].
    apply scan_edges_frontier in Hscan as [Hsub Hall].
    apply IH in H as (region & Hvis & Hexp & Hreg).
    exists region. split; [|split].
    + intros n Hn. apply Hvis, USet_insert_elem. now right.
    + intros n Hn. destruct (Hrest n Hn) as [->|Hn'].
      * apply Hvis, USet_insert_elem. now left.
      * apply Hexp, Hsub, Hn'.
    + intros n Hn. destruct (Hreg n Hn) as [Hin|Henc]; [|now right].
      apply USet_insert_elem in Hin as [->|Hin]; [|now left].
      right. exists bundle. split; [exact Hb|].
      eapply Forall_impl; [exact Hall|].
      intros pr Hpr Hne. destruct (Hpr Hne) as (Hns & Himp & Hnext).
      repeat split; auto.
      destruct Hnext as [Hnext|Hnext]; [apply Hvis | apply Hexp]; exact Hnext.
Qed.

(** X17: whichever member [begin()] hands out of [expandset], when
    [IsNoThroughEdge] answers true there is a region of nodes
    around [endnode] that nothing leaves: the edges of every node of the
    region can be collected, and each of them other than the start edge
    leads to a node of the region, does not lead to [startnode], and has
    an importance above tertiary. *)
Theorem IsNoThroughEdge_encloses (startnode endnode startedgeindex : nat) :
  IsNoThroughEdge tertiary nodes edges begin_ startnode endnode startedgeindex
    = Some true ->
  exists region,
    endnode ∈ region /\
    forall n, n ∈ region ->
      enclosed tertiary nodes edges startnode startedgeindex region n.
Proof.
  unfold IsNoThroughEdge. intros H.
  apply thru_loop_true in H as (region & _ & Hexp & Hreg).
  exists region. split.
  - apply Hexp, USet_insert_elem. now left.
  - intros n Hn. destruct (Hreg n Hn) as [Hin|Henc]; [inversion Hin | exact Henc].
Qed.

(** X18: the first expansion decides the two plain cases, there being
    one member for [begin()] to hand out.  When the edges
    collected at [endnode] are all the start edge (a dead end), the answer
    is true; when one of them, not the start edge, leads back to
    [startnode] or is of tertiary class or better, the answer is false. *)
Theorem IsNoThroughEdge_first_expansion (startnode endnode startedgeindex : nat)
    (bundle : node_bundle) :
  collect_node_edges endnode nodes edges = Some bundle ->
  (Forall (fun pr => pr.2 = startedgeindex) (b_edges bundle) ->
   IsNoThroughEdge tertiary nodes edges begin_ startnode endnode startedgeindex
     = Some true) /\
  (Exists (way_out tertiary startnode startedgeindex endnode) (b_edges bundle) ->
   IsNoThroughEdge tertiary nodes edges begin_ startnode endnode startedgeindex
     = Some false).
Proof.
  intros Hb. unfold IsNoThroughEdge, kMaxNoThruTries.
  change (USet.insert endnode []) with [endnode].
  split; intros H.
  - cbn [thru_loop]. rewrite USet_pop_single, Hb. cbn [mbind option_bind].
    rewrite scan_edges_skip by exact H. cbn [USet.pop]. reflexivity.
  - cbn [thru_loop]. rewrite USet_pop_single, Hb. cbn [mbind option_bind].
    rewrite scan_edges_back by exact H. reflexivity.
Qed.
End NoThroughFacts.

Lemma IsNoThroughEdge_encloses_witness :
  exists region,
    0%nat ∈ region /\
    forall n, n ∈ region ->
      enclosed 4 Crossing.nodes Crossing.edges 8 1 region n.
Proof.
  apply (IsNoThroughEdge_encloses 4 Crossing.nodes Crossing.edges
           (fun _ => last_inserted) 8 0 1).
  vm_compute. reflexivity.
Defined.

Lemma IsNoThroughEdge_first_expansion_witness :
  (Forall (fun pr : Edge * nat => pr.2 = 1%nat) (b_edges Crossing.at_S) ->
   IsNoThroughEdge 4 Crossing.nodes Crossing.edges (fun _ => last_inserted) 9 0 1
   = Some true) /\
  (Exists (way_out 4 9 1 0) (b_edges Crossing.at_S) ->
   IsNoThroughEdge 4 Crossing.nodes Crossing.edges (fun _ => last_inserted) 9 0 1
   = Some false).
Proof.
  apply (IsNoThroughEdge_first_expansion 4 Crossing.nodes Crossing.edges
           (fun _ => last_inserted) 9 0 1 Crossing.at_S).
  vm_compute. reflexivity.
Defined.

(** ** CreateSimpleTurnRestriction *)

Lemma lor_below (a b : Z) :
  0 <= a < 2 ^ 32 -> 0 <= b < 2 ^ 32 -> 0 <= Z.lor a b < 2 ^ 32.
Proof.
  intros Ha Hb. assert (Hn : 0 <= Z.lor a b) by (apply Z.lor_nonneg; lia).
  split; [exact Hn|].
  destruct (Z.eq_dec (Z.lor a b) 0) as [->|Hz]; [lia|].
  apply Z.log2_lt_pow2; [lia|]. rewrite Z.log2_lor by lia.
  apply Z.max_lub_lt.
  - destruct (Z.eq_dec a 0) as [->|]; [simpl; lia | apply Z.log2_lt_pow2; lia].
  - destruct (Z.eq_dec b 0) as [->|]; [simpl; lia | apply Z.log2_lt_pow2; lia].
Qed.

Lemma set_bit_spec (mask : Z) (idx : nat) (m : Z) :
  set_bit mask idx = Some m -> 0 <= mask < 2 ^ 32 ->
  0 <= m < 2 ^ 32 /\
  forall i : nat,
    Z.testbit m (Z.of_nat i) = true <->
    Z.testbit mask (Z.of_nat i) = true \/ i = idx.
Proof.
  unfold set_bit. intros H Hmask.
  destruct (Nat.ltb_spec idx 32) as [Hlt|]; [|discriminate].
  injection H as <-.
  assert (Hpow : 0 <= 2 ^ Z.of_nat idx < 2 ^ 32).
  { split; [apply Z.pow_nonneg; lia | apply Z.pow_lt_mono_r; lia]. }
  rewrite Z.shiftl_1_l, u32_small by exact Hpow.
  split; [apply lor_below; assumption|].
  intros i. rewrite Z.lor_spec, orb_true_iff, Z.pow2_bits_eqb by lia.
  rewrite Z.eqb_eq. split; (intros [H|H]; [now left | right; lia]).
Qed.

Lemma restrict_first_spec (to_ : Z) (wayids : list Z) :
  forall idx mask m,
    restrict_first to_ wayids idx mask = Some m -> 0 <= mask < 2 ^ 32 ->
    0 <= m < 2 ^ 32 /\
    forall i : nat,
      Z.testbit m (Z.of_nat i) = true <->
      Z.testbit mask (Z.of_nat i) = true \/
      exists k, i = (idx + k)%nat /\ wayids !! k = Some to_ /\
                forall j, (j < k)%nat -> wayids !! j <> Some to_.
Proof.
  induction wayids as [|wayid wayids IH]; intros idx mask m H Hmask; simpl in H.
  - injection H as <-. split; [exact Hmask|].
    intros i. split; [auto | intros [H|(k & _ & H & _)]; [exact H | discriminate]].
  - destruct (Z.eqb_spec wayid to_) as [->|Hne].
    + apply set_bit_spec in H as [Hm Hbits]; [|exact Hmask]. split; [exact Hm|].
      intros i. rewrite Hbits. split; (intros [H|H]; [now left | right]).
      * exists 0%nat. split; [lia|]. split; [reflexivity|]. intros j Hj; lia.
      * destruct H as (k & -> & Hk & Hfirst).
        destruct k as [|k]; [lia|]. exfalso. apply (Hfirst 0%nat); [lia | reflexivity].
    + apply IH in H as [Hm Hbits]; [|exact Hmask]. split; [exact Hm|].
      intros i. rewrite Hbits. split; (intros [H|(k & -> & Hk & Hfirst)]; [now left | right]).
      * exists (S k). split; [lia|]. split; [exact Hk|].
        intros [|j] Hj; simpl; [congruence | apply Hfirst; lia].
      * destruct k as [|k]; [simpl in Hk; congruence|].
        exists k. split; [lia|]. split; [exact Hk|].
        intros j Hj. apply (Hfirst (S j)). lia.
Qed.

Lemma restrict_others_spec (to_ : Z) (wayids : list Z) :
  forall idx mask m,
    restrict_others to_ wayids idx mask = Some m -> 0 <= mask < 2 ^ 32 ->
    0 <= m < 2 ^ 32 /\
    forall i : nat,
      Z.testbit m (Z.of_nat i) = true <->
      Z.testbit mask (Z.of_nat i) = true \/
      exists k w, i = (idx + k)%nat /\ wayids !! k = Some w /\ w <> to_.
Proof.
  induction wayids as [|wayid wayids IH]; intros idx mask m H Hmask; simpl in H.
  - injection H as <-. split; [exact Hmask|].
    intros i. split; [auto | intros [H|(k & w & _ & H & _)]; [exact H | discriminate]].
  - destruct (Z.eqb_spec wayid to_) as [->|Hne]; simpl in H.
    + apply IH in H as [Hm Hbits]; [|exact Hmask]. split; [exact Hm|].
      intros i. rewrite Hbits.
      split; (intros [H|(k & w & -> & Hk & Hw)]; [now left | right]).
      * exists (S k), w. split; [lia|]; split; [exact Hk | exact Hw].
      * destruct k as [|k]; [simpl in Hk; congruence|].
        exists k, w. split; [lia|]; split; [exact Hk | exact Hw].
    + destruct (set_bit mask idx) as [mask'|] eqn:Hset; simpl in H; [|discriminate].
      apply set_bit_spec in Hset as [Hmask' Hbits']; [|exact Hmask].
      apply IH in H as [Hm Hbits]; [|exact Hmask']. split; [exact Hm|].
      intros i. rewrite Hbits, Hbits'. split.
      * intros [[H| ->]|(k & w & -> & Hk & Hw)]; [now left | right | right].
        -- exists 0%nat, wayid. split; [lia|]; split; [reflexivity | exact Hne].
        -- exists (S k), w. split; [lia|]; split; [exact Hk | exact Hw].
      * intros [H|(k & w & -> & Hk & Hw)]; [now left; left|].
        destruct k as [|k]; [left; right; lia|].
        right. exists k, w. split; [lia|]; split; [exact Hk | exact Hw].
Qed.

Lemma restrict_first_forbids (to_ : Z) (wayids : list Z) (mask m : Z) :
  restrict_first to_ wayids 0 mask = Some m -> 0 <= mask < 2 ^ 32 ->
  0 <= m < 2 ^ 32 /\
  forall i : nat,
    Z.testbit m (Z.of_nat i) = true <->
    Z.testbit mask (Z.of_nat i) = true \/
    (wayids !! i = Some to_ /\ forall j, (j < i)%nat -> wayids !! j <> Some to_).
Proof.
  intros H Hmask. apply restrict_first_spec in H as [Hm Hbits]; [|exact Hmask].
  split; [exact Hm|]. intros i. rewrite Hbits.
  split; (intros [H|H]; [now left | right]).
  - destruct H as (k & -> & Hk & Hfirst). auto.
  - exists i. destruct H. auto.
Qed.

Lemma restrict_others_forbids (to_ : Z) (wayids : list Z) (mask m : Z) :
  restrict_others to_ wayids 0 mask = Some m -> 0 <= mask < 2 ^ 32 ->
  0 <= m < 2 ^ 32 /\
  forall i : nat,
    Z.testbit m (Z.of_nat i) = true <->
    Z.testbit mask (Z.of_nat i) = true \/
    (exists w, wayids !! i = Some w /\ w <> to_).
Proof.
  intros H Hmask. apply restrict_others_spec in H as [Hm Hbits]; [|exact Hmask].
  split; [exact Hm|]. intros i. rewrite Hbits.
  split; (intros [H|H]; [now left | right]).
  - destruct H as (k & w & -> & Hk & Hw). eauto.
  - destruct H as (w & Hk & Hw). exists i, w. auto.
Qed.

Lemma restriction_mask_spec (wayids : list Z) (trs : list OSMRestriction) :
  forall mask m,
    restriction_mask trs wayids mask = Some m -> 0 <= mask < 2 ^ 32 ->
    0 <= m < 2 ^ 32 /\
    forall i : nat,
      Z.testbit m (Z.of_nat i) = true <->
      Z.testbit mask (Z.of_nat i) = true \/
      exists tr, tr ∈ trs /\ forbids tr wayids i.
Proof.
  induction trs as [|tr trs IH]; intros mask m H Hmask; cbn [restriction_mask] in H.
  - injection H as <-. split; [exact Hmask|].
    intros i. split; [auto | intros [H|(tr & Hin & _)]; [exact H | inversion Hin]].
  - assert (Hstep : exists mask',
              0 <= mask' < 2 ^ 32 /\
              restriction_mask trs wayids mask' = Some m /\
              forall i : nat,
                Z.testbit mask' (Z.of_nat i) = true <->
                Z.testbit mask (Z.of_nat i) = true \/ forbids tr wayids i).
    { unfold forbids.
      destruct (type_ tr).
      1-4: destruct (restrict_first (to tr) wayids 0 mask) as [mask'|] eqn:Hr;
        cbn [mbind option_bind] in H; [|discriminate];
        apply restrict_first_forbids in Hr as [Hm' Hbits']; [|exact Hmask];
        exists mask'; auto.
      1-3: destruct (restrict_others (to tr) wayids 0 mask) as [mask'|] eqn:Hr;
        cbn [mbind option_bind] in H; [|discriminate];
        apply restrict_others_forbids in Hr as [Hm' Hbits']; [|exact Hmask];
        exists mask'; auto.
      cbn [mbind option_bind] in H. exists mask.
      split; [exact Hmask|]. split; [exact H|]. intros i. tauto. }
    destruct Hstep as (mask' & Hmask' & Hrest & Hbits').
    apply IH in Hrest as [Hm Hbits]; [|exact Hmask']. split; [exact Hm|].
    intros i. rewrite Hbits, Hbits'. split.
    + intros [[H'|H']|(tr' & Hin & Hf)]; [now left | right | right].
      * exists tr. split; [apply elem_of_cons; now left | exact H'].
      * exists tr'. split; [apply elem_of_cons; now right | exact Hf].
    + intros [H'|(tr' & Hin & Hf)]; [now left; left|].
      apply elem_of_cons in Hin as [->|Hin]; [left; now right|].
      right. exists tr'. auto.
Qed.

Lemma through_node_spec (endnode : nat) (res : list (Z * OSMRestriction)) :
  forall trs t,
    through_node endnode res trs t =
    (trs ++ List.filter (fun tr => (via_graphid tr =? endnode)%nat && negb (timed tr))
              (List.map snd res),
     t + Z.of_nat (length (List.filter
                             (fun r : Z * OSMRestriction =>
                                (via_graphid r.2 =? endnode)%nat && timed r.2) res))).
Proof.
  induction res as [|r res IH]; intros trs t; simpl.
  - rewrite app_nil_r. f_equal. lia.
  - destruct (via_graphid r.2 =? endnode)%nat; simpl.
    + destruct (timed r.2); simpl; rewrite IH.
      * f_equal. simpl. lia.
      * rewrite <- app_assoc. reflexivity.
    + apply IH.
Qed.

Lemma edge_wayids_spec (ways : list OSMWay) (es : list (Edge * nat)) :
  forall wayids, edge_wayids ways es = Some wayids -> bundle_wayids ways wayids es.
Proof.
  unfold bundle_wayids.
  induction es as [|pr es IH]; intros wayids H; simpl in H.
  - injection H as <-. constructor.
  - unfold Seq.at_ in H.
    destruct (ways !! Z.to_nat (wayindex_ pr.1)) as [w|] eqn:Hw; simpl in H;
      [|discriminate].
    destruct (edge_wayids ways es) as [ids|]; simpl in H; [|discriminate].
    injection H as <-. constructor; [exists w; auto | now apply IH].
Qed.

Section TurnRestrictionFacts.
Variable restrictions : list (Z * OSMRestriction).
Variable ways : list OSMWay.
Variable nodes : list Node.
Variable edges : list Edge.

Lemma kept_through (wayid : Z) (endnode : nat) (tr : OSMRestriction) :
  tr ∈ List.filter (fun tr => (via_graphid tr =? endnode)%nat && negb (timed tr))
         (List.map snd
            (List.filter (fun r : Z * OSMRestriction => r.1 =? wayid) restrictions))
  <-> through restrictions wayid endnode tr /\ timed tr = false.
Proof.
  unfold through.
  rewrite list_elem_of_In, filter_In, in_map_iff, andb_true_iff, Nat.eqb_eq,
    negb_true_iff.
  split.
  - intros [([k tr'] & Heq & Hin) [Hvia Ht]]. simpl in Heq. subst tr'.
    apply filter_In in Hin as [Hin Hk]. simpl in Hk. apply Z.eqb_eq in Hk as ->.
    apply list_elem_of_In in Hin. auto.
  - intros [[Hin Hvia] Ht]. split; [|auto].
    exists (wayid, tr). split; [reflexivity|].
    apply filter_In. split; [now apply list_elem_of_In | simpl; apply Z.eqb_refl].
Qed.

(** X19: the turn restriction mask fits 32 bits, and bit [i] is set
    exactly when an untimed restriction of the way through [endnode]
    forbids the turn onto the [i]-th edge collected at [endnode]: for a
    "no" restriction the first edge of the way [to], for an "only"
    restriction every edge of another way; a restriction of another
    type sets nothing. *)
Theorem CreateSimpleTurnRestriction_bits (wayid edgeindex : Z) (endnode : nat)
    (mask t : Z) :
  CreateSimpleTurnRestriction restrictions ways nodes edges wayid edgeindex endnode
    = Some (mask, t) ->
  0 <= mask < 2 ^ 32 /\
  forall i : nat,
    Z.testbit mask (Z.of_nat i) = true <->
    exists tr bundle wayids,
      through restrictions wayid endnode tr /\ timed tr = false /\
      collect_node_edges endnode nodes edges = Some bundle /\
      bundle_wayids ways wayids (b_edges bundle) /\
      forbids tr wayids i.
Proof.
  unfold CreateSimpleTurnRestriction. rewrite through_node_spec.
  cbn [app]. intros H.
  pose proof (kept_through wayid endnode) as Hkept.
  destruct (List.filter _ (List.map snd _)) as [|tr0 trs].
  - injection H as <- _. split; [lia|]. intros i. rewrite Z.bits_0.
    split; [discriminate|]. intros (tr & _ & _ & Hth & Ht & _).
    assert (Hin : tr ∈ @nil OSMRestriction) by (apply Hkept; auto).
    inversion Hin.
  - destruct (collect_node_edges endnode nodes edges) as [bundle|];
      cbn [mbind option_bind] in H; [|discriminate].
    destruct (edge_wayids ways (b_edges bundle)) as [wayids|] eqn:Hids;
      cbn [mbind option_bind] in H; [|discriminate].
    destruct (restriction_mask (tr0 :: trs) wayids 0) as [m|] eqn:Hmask;
      cbn [mbind option_bind] in H; [|discriminate].
    injection H as <- _.
    apply restriction_mask_spec in Hmask as [Hm Hbits]; [|lia].
    split; [exact Hm|]. intros i. rewrite Hbits, Z.bits_0.
    pose proof (edge_wayids_spec _ _ _ Hids) as Hw.
    split.
    + intros [?|(tr & Hin & Hf)]; [discriminate|].
      apply Hkept in Hin as [Hth Ht]. exists tr, bundle, wayids. auto.
    + intros (tr & bundle' & wayids' & Hth & Ht & Hb & Hw' & Hf).
      injection Hb as <-. right. exists tr. split; [apply Hkept; auto|].
      assert (wayids' = wayids) as <-; [|exact Hf].
      clear -Hw Hw'. unfold bundle_wayids in *.
      revert wayids Hw. induction Hw' as [|id pr ids es (w & Hw1 & Hw2) _ IH];
        intros wayids Hw; inversion Hw as [|id' ? ids' ? (w' & Hw1' & Hw2') Hrest];
        subst; [reflexivity|].
      f_equal; [congruence | now apply IH].
Qed.

(** X20: when every restriction of the way through [endnode] is a timed
    one (and so when the way has none), the mask is 0 whatever the nodes
    and edges are, no node is read, and the statistics count one timed
    restriction for each of them. *)
Theorem CreateSimpleTurnRestriction_timed (wayid edgeindex : Z) (endnode : nat) :
  only_timed restrictions wayid endnode ->
  CreateSimpleTurnRestriction restrictions ways nodes edges wayid edgeindex endnode
    = Some (0, Z.of_nat (length (List.filter (timed_through wayid endnode)
                                   restrictions))).
Proof.
  unfold CreateSimpleTurnRestriction, only_timed. rewrite through_node_spec.
  cbn [app]. intros H.
  assert (Hnone : List.filter
                    (fun tr => (via_graphid tr =? endnode)%nat && negb (timed tr))
                    (List.map snd
                       (List.filter (fun r : Z * OSMRestriction => r.1 =? wayid)
                          restrictions)) = []).
  { induction H as [|r rs Hr _ IH]; simpl; [reflexivity|].
    destruct (Z.eqb_spec r.1 wayid) as [Hid|]; simpl; [|exact IH].
    destruct (Nat.eqb_spec (via_graphid r.2) endnode) as [Hvia|]; simpl; [|exact IH].
    rewrite (Hr Hid Hvia). simpl. exact IH. }
  rewrite Hnone, Z.add_0_l. do 4 f_equal.
  clear. induction restrictions as [|r rs IH]; simpl; [reflexivity|].
  unfold timed_through at 1.
  destruct (r.1 =? wayid); simpl; [|exact IH].
  destruct ((via_graphid r.2 =? endnode)%nat && timed r.2); simpl; congruence.
Qed.
End TurnRestrictionFacts.

Lemma CreateSimpleTurnRestriction_bits_witness :
  0 <= 4 < 2 ^ 32 /\
  forall i : nat,
    Z.testbit 4 (Z.of_nat i) = true <->
    exists tr bundle wayids,
      through Turns.restrictions 101 0 tr /\ timed tr = false /\
      collect_node_edges 0 Crossing.nodes Crossing.edges = Some bundle /\
      bundle_wayids Crossing.ways wayids (b_edges bundle) /\
      forbids tr wayids i.
Proof.
  apply (CreateSimpleTurnRestriction_bits Turns.restrictions Crossing.ways
           Crossing.nodes Crossing.edges 101 1 0 4 1).
  vm_compute. reflexivity.
Defined.

Lemma CreateSimpleTurnRestriction_timed_witness :
  CreateSimpleTurnRestriction Turns.restrictions Crossing.ways [] [] 100 0 4
    = Some (0, 1).
Proof.
  apply (CreateSimpleTurnRestriction_timed Turns.restrictions Crossing.ways [] [] 100 0 4).
  repeat constructor; vm_compute; congruence.
Defined.

(** ** CreateExitSignInfoList *)

Module SignProofs.
Import Signs SignSpec.
Open Scope string_scope.

Lemma substring_length (s : string) :
  forall n m,
    String.length (String.substring n m s) = Nat.min m (String.length s - n).
Proof.
  induction s as [|c s IH]; intros [|n] [|m]; simpl; try rewrite IH; try lia.
  destruct (String.length s - n)%nat; lia.
Qed.

Lemma substring_all (s : string) : String.substring 0 (String.length s) s = s.
Proof. induction s as [|c s IH]; simpl; [reflexivity | now rewrite IH]. Qed.

Lemma substring_append (s : string) :
  forall n, (n <= String.length s)%nat ->
    String.substring 0 n s ++ String.substring n (String.length s - n) s = s.
Proof.
  induction s as [|c s IH]; intros [|n] Hn; simpl in *.
  - reflexivity.
  - lia.
  - now rewrite substring_all.
  - rewrite IH by lia. reflexivity.
Qed.

Lemma substring_cut (s : string) :
  forall n m k,
    String.substring n (m + k) s
    = String.substring n m s ++ String.substring (n + m) k s.
Proof.
  induction s as [|c s IH]; intros n m k.
  - destruct n, m, k; reflexivity.
  - destruct n as [|n].
    + destruct m as [|m]; [reflexivity|].
      simpl. now rewrite (IH 0%nat).
    + simpl. apply IH.
Qed.

Lemma to_lower_substring (s : string) :
  forall n m,
    to_lower (String.substring n m s) = String.substring n m (to_lower s).
Proof.
  induction s as [|c s IH]; intros [|n] [|m]; simpl; try reflexivity;
    now rewrite IH.
Qed.

Lemma to_lower_length (s : string) : String.length (to_lower s) = String.length s.
Proof. induction s as [|c s IH]; simpl; [reflexivity | now rewrite IH]. Qed.

(** A piece found in the lower-case copy can be cut out of the token: what
    is before it, the piece as the token spells it, and [substr] of what
    follows, which does not throw. *)
Lemma cut_at (token piece : string) (found : nat) :
  (0 < String.length piece)%nat ->
  String.substring found (String.length piece) (to_lower token) = piece ->
  exists t,
    substr token (found + String.length piece) = Some t /\
    token = substr_to token found
            ++ String.substring found (String.length piece) token ++ t /\
    to_lower (String.substring found (String.length piece) token) = piece.
Proof.
  intros Hpos H.
  assert (Hle : (found + String.length piece <= String.length token)%nat).
  { pose proof (substring_length (to_lower token) found (String.length piece)) as Hl.
    rewrite H, to_lower_length in Hl. lia. }
  unfold substr.
  destruct (Nat.ltb_spec (String.length token) (found + String.length piece));
    [lia|].
  eexists. split; [reflexivity|]. split.
  - unfold substr_to. rewrite <- substring_cut.
    replace (String.length piece
             + (String.length token - (found + String.length piece)))%nat
      with (String.length token - found)%nat by lia.
    symmetry. apply substring_append. lia.
  - rewrite to_lower_substring. exact H.
Qed.

Lemma cut_prefix (token pre : string) :
  (0 < String.length pre)%nat ->
  starts_with (to_lower token) pre = true ->
  exists t,
    substr token (String.length pre) = Some t /\
    token = String.substring 0 (String.length pre) token ++ t /\
    to_lower (String.substring 0 (String.length pre) token) = pre.
Proof.
  intros Hpos H. apply prefix_correct in H.
  destruct (cut_at token pre 0 Hpos H) as (t & Hs & Ht & Hl).
  exists t. split; [exact Hs|]. split; [|exact Hl].
  unfold substr_to in Ht. simpl in Ht. destruct token; exact Ht.
Qed.

Lemma cut_found (token sep : string) (pos found : nat) :
  (0 < String.length sep)%nat ->
  find (to_lower token) sep pos = Some found ->
  exists t,
    substr token (found + String.length sep) = Some t /\
    token = substr_to token found
            ++ String.substring found (String.length sep) token ++ t /\
    to_lower (String.substring found (String.length sep) token) = sep.
Proof.
  intros Hpos H. apply index_correct1 in H. now apply cut_at.
Qed.

(** X21: a token of [exit_to] is never cut short and never makes [substr]
    throw.  It gives either one toward sign, whose text is the token or
    the token without a leading [to ] or [toward ] in any mix of upper and
    lower case, or a branch sign and a toward sign, whose texts are what
    stands before and after a [ to ] or a [ toward ] of the token. *)
Theorem exit_to_signs_split (token : string) :
  (exists pre t,
     token = pre ++ t /\
     exit_to_signs token = Some [mkSignInfo kExitToward t] /\
     (pre = "" \/ to_lower pre = "to " \/ to_lower pre = "toward ")) \/
  (exists b sep t,
     token = b ++ sep ++ t /\
     exit_to_signs token =
       Some [mkSignInfo kExitBranch b; mkSignInfo kExitToward t] /\
     (to_lower sep = " to " \/ to_lower sep = " toward ")).
Proof.
  assert (Hdefault :
    exists pre t,
      token = pre ++ t /\
      Some [mkSignInfo kExitToward token] = Some [mkSignInfo kExitToward t] /\
      (pre = "" \/ to_lower pre = "to " \/ to_lower pre = "toward ")).
  { exists "", token. auto. }
  unfold exit_to_signs.
  destruct (starts_with (to_lower token) "to ") eqn:Hto.
  { left. apply cut_prefix in Hto as (t & Hs & Ht & Hl); [|simpl; lia].
    simpl String.length in *. rewrite Hs. cbn [mbind option_bind].
    exists (String.substring 0 3 token), t. auto. }
  destruct (starts_with (to_lower token) "toward ") eqn:Htoward.
  { left. apply cut_prefix in Htoward as (t & Hs & Ht & Hl); [|simpl; lia].
    simpl String.length in *. rewrite Hs. cbn [mbind option_bind].
    exists (String.substring 0 7 token), t. auto. }
  assert (Hsecond :
    (exists pre t,
       token = pre ++ t /\
       match find (to_lower token) " toward " 0 with
       | Some found =>
           if npos (find (to_lower token) " toward " (found + 8))
              && npos (find (to_lower token) " to " 0)
           then t ← substr token (found + 8);
                Some [mkSignInfo kExitBranch (substr_to token found);
                      mkSignInfo kExitToward t]
           else Some [mkSignInfo kExitToward token]
       | None => Some [mkSignInfo kExitToward token]
       end = Some [mkSignInfo kExitToward t] /\
       (pre = "" \/ to_lower pre = "to " \/ to_lower pre = "toward ")) \/
    (exists b sep t,
       token = b ++ sep ++ t /\
       match find (to_lower token) " toward " 0 with
       | Some found =>
           if npos (find (to_lower token) " toward " (found + 8))
              && npos (find (to_lower token) " to " 0)
           then t ← substr token (found + 8);
                Some [mkSignInfo kExitBranch (substr_to token found);
                      mkSignInfo kExitToward t]
           else Some [mkSignInfo kExitToward token]
       | None => Some [mkSignInfo kExitToward token]
       end = Some [mkSignInfo kExitBranch b; mkSignInfo kExitToward t] /\
       (to_lower sep = " to " \/ to_lower sep = " toward "))).
  { destruct (find (to_lower token) " toward " 0) as [found|] eqn:Hfound;
      [|left; exact Hdefault].
    destruct (npos _ && npos _); [|left; exact Hdefault].
    right. apply cut_found in Hfound as (t & Hs & Ht & Hl); [|simpl; lia].
    simpl String.length in *. rewrite Hs. cbn [mbind option_bind].
    exists (substr_to token found), (String.substring found 8 token), t. auto. }
  destruct (find (to_lower token) " to " 0) as [found|] eqn:Hfound;
    [|exact Hsecond].
  destruct (npos _ && npos _); [|exact Hsecond].
  right. apply cut_found in Hfound as (t & Hs & Ht & Hl); [|simpl; lia].
  simpl String.length in *. rewrite Hs. cbn [mbind option_bind].
  exists (substr_to token found), (String.substring found 4 token), t. auto.
Qed.

Lemma exit_to_signs_kinds (token : string) :
  exists signs,
    exit_to_signs token = Some signs /\ Forall branch_or_toward signs.
Proof.
  assert (Hone : forall t, Forall branch_or_toward [mkSignInfo kExitToward t]).
  { intros t. constructor; [now right | constructor]. }
  assert (Htwo : forall b t, Forall branch_or_toward
                   [mkSignInfo kExitBranch b; mkSignInfo kExitToward t]).
  { intros b t. constructor; [now left|].
    constructor; [now right | constructor]. }
  unfold exit_to_signs.
  destruct (starts_with (to_lower token) "to ") eqn:Hto.
  { apply cut_prefix in Hto as (t & Hs & _); [|simpl; lia].
    simpl String.length in Hs. rewrite Hs. cbn [mbind option_bind]. eauto. }
  destruct (starts_with (to_lower token) "toward ") eqn:Htoward.
  { apply cut_prefix in Htoward as (t & Hs & _); [|simpl; lia].
    simpl String.length in Hs. rewrite Hs. cbn [mbind option_bind]. eauto. }
  assert (Hsecond :
    exists signs,
      match find (to_lower token) " toward " 0 with
      | Some found =>
          if npos (find (to_lower token) " toward " (found + 8))
             && npos (find (to_lower token) " to " 0)
          then t ← substr token (found + 8);
               Some [mkSignInfo kExitBranch (substr_to token found);
                     mkSignInfo kExitToward t]
          else Some [mkSignInfo kExitToward token]
      | None => Some [mkSignInfo kExitToward token]
      end = Some signs /\ Forall branch_or_toward signs).
  { destruct (find (to_lower token) " toward " 0) as [found|] eqn:Hfound;
      [|eauto].
    destruct (npos _ && npos _); [|eauto].
    apply cut_found in Hfound as (t & Hs & _); [|simpl; lia].
    simpl String.length in Hs. rewrite Hs. cbn [mbind option_bind]. eauto. }
  destruct (find (to_lower token) " to " 0) as [found|] eqn:Hfound;
    [|exact Hsecond].
  destruct (npos _ && npos _); [|exact Hsecond].
  apply cut_found in Hfound as (t & Hs & _); [|simpl; lia].
  simpl String.length in Hs. rewrite Hs. cbn [mbind option_bind]. eauto.
Qed.

Lemma exit_to_loop_kinds (exit_tos : list string) :
  forall exit_list,
    exists signs,
      exit_to_loop exit_tos exit_list = Some (exit_list ++ signs)%list /\
      Forall branch_or_toward signs.
Proof.
  induction exit_tos as [|token exit_tos IH]; intros exit_list; simpl.
  - exists []. rewrite app_nil_r. auto.
  - destruct (exit_to_signs_kinds token) as (signs & -> & Hk).
    cbn [mbind option_bind].
    destruct (IH (exit_list ++ signs)%list) as (signs' & -> & Hk').
    exists (signs ++ signs')%list. rewrite app_assoc.
    split; [reflexivity | now apply Forall_app].
Qed.

Lemma exit_to_loop_acc (exit_tos : list string) (exit_list : list SignInfo) :
  exit_to_loop exit_tos exit_list
  = option_map (app exit_list) (exit_to_loop exit_tos []).
Proof.
  revert exit_list.
  induction exit_tos as [|token exit_tos IH]; intros exit_list; simpl.
  - now rewrite app_nil_r.
  - destruct (exit_to_signs token) as [signs|]; cbn [mbind option_bind];
      [|reflexivity].
    rewrite (IH (exit_list ++ signs)%list), (IH signs).
    destruct (exit_to_loop exit_tos []); simpl; [|reflexivity].
    now rewrite app_assoc.
Qed.

(** The function as the four parts it goes through. *)
Lemma CreateExitSignInfoList_parts (node : NodeTags) (way : WayTags)
    (osmdata : OSMData) :
  CreateExitSignInfoList node way osmdata =
  (number ← number_signs node way osmdata;
   exits ← exit_to_part node way osmdata;
   names ← name_signs node osmdata;
   Some (number ++ destination_signs way osmdata ++ exits ++ names)%list).
Proof.
  unfold CreateExitSignInfoList, number_signs, exit_to_part, name_signs,
    destination_signs, has_destination, emplace_tokens.
  destruct (negb (junction_ref_index way =? 0)%Z);
    [|destruct (ref node); [destruct (node_ref osmdata (n_osmid node))|]];
    cbn [mbind option_bind app]; try reflexivity;
    destruct (destination_ref_index way =? 0)%Z;
    destruct (destination_street_index way =? 0)%Z;
    destruct (destination_ref_to_index way =? 0)%Z;
    destruct (destination_street_to_index way =? 0)%Z;
    destruct (destination_index way =? 0)%Z;
    cbn [negb orb andb];
    (destruct (exit_to node);
     [destruct (node_exit_to osmdata (n_osmid node)) as [tag|]|]);
    cbn [mbind option_bind]; try reflexivity;
    try (rewrite exit_to_loop_acc;
         destruct (exit_to_loop (Tag.GetTagTokens tag ";") []);
         cbn [option_map mbind option_bind]; [|reflexivity]);
    (destruct (name node);
     [destruct (node_name osmdata (n_osmid node))|]);
    cbn [mbind option_bind app]; try reflexivity;
    rewrite ?app_nil_r, <- ?app_assoc; reflexivity.
Qed.

Lemma tokens_kind (P : SignInfo -> Prop) (t : SignType) (tag : string) :
  (forall text, P (mkSignInfo t text)) ->
  Forall P (emplace_tokens [] t tag).
Proof.
  intros H. unfold emplace_tokens. cbn [app].
  induction (Tag.GetTagTokens tag ";") as [|token tokens IH]; simpl;
    constructor; auto.
Qed.

Lemma destination_kinds (way : WayTags) (osmdata : OSMData) :
  Forall branch_or_toward (destination_signs way osmdata).
Proof.
  unfold destination_signs.
  repeat apply Forall_app_2;
    match goal with
    | |- Forall _ (if ?c then _ else _) => destruct c; [|constructor]
    end; apply tokens_kind; intros text; (now left) || (now right).
Qed.

Lemma number_signs_none (node : NodeTags) (way : WayTags) (osmdata : OSMData) :
  number_signs node way osmdata = None <->
  junction_ref_index way = 0 /\ ref node = true /\
  node_ref osmdata (n_osmid node) = None.
Proof.
  unfold number_signs.
  destruct (Z.eqb_spec (junction_ref_index way) 0) as [Hj|Hj]; cbn [negb].
  - destruct (ref node); [destruct (node_ref osmdata (n_osmid node))|];
      cbn [mbind option_bind]; split; try discriminate; auto;
      intros (_ & ? & ?); discriminate.
  - split; [discriminate | intros (? & _); contradiction].
Qed.

Lemma exit_to_part_none (node : NodeTags) (way : WayTags) (osmdata : OSMData) :
  exit_to_part node way osmdata = None <->
  has_destination way = false /\ exit_to node = true /\
  node_exit_to osmdata (n_osmid node) = None.
Proof.
  unfold exit_to_part.
  destruct (has_destination way);
    [split; [discriminate | intros (? & _); discriminate]|].
  destruct (exit_to node);
    [|split; [discriminate | intros (_ & ? & _); discriminate]].
  destruct (node_exit_to osmdata (n_osmid node)) as [tag|];
    cbn [mbind option_bind]; [|split; auto].
  destruct (exit_to_loop_kinds (Tag.GetTagTokens tag ";") []) as (signs & -> & _).
  split; [discriminate | intros (_ & _ & ?); discriminate].
Qed.

Lemma name_signs_none (node : NodeTags) (osmdata : OSMData) :
  name_signs node osmdata = None <->
  name node = true /\ node_name osmdata (n_osmid node) = None.
Proof.
  unfold name_signs.
  destruct (name node); [destruct (node_name osmdata (n_osmid node))|];
    cbn [mbind option_bind]; split; try discriminate; auto;
    intros (? & ?); discriminate.
Qed.

(** X22: when the way carries a destination tag, the [exit_to] tag of the
    node plays no part: the list is the same whatever the node's
    [exit_to] flag is and whatever the [exit_to] map holds, a missing
    entry included. *)
Theorem CreateExitSignInfoList_ignores_exit_to (node : NodeTags) (way : WayTags)
    (osmdata : OSMData) (b : bool) (m : Z -> option string) :
  has_destination way = true ->
  CreateExitSignInfoList (with_exit_to node b) way (with_node_exit_to osmdata m)
  = CreateExitSignInfoList node way osmdata.
Proof.
  intros H. rewrite !CreateExitSignInfoList_parts.
  unfold exit_to_part. rewrite H. reflexivity.
Qed.

Lemma CreateExitSignInfoList_ignores_exit_to_witness :
  CreateExitSignInfoList (with_exit_to exit_node false) exit_way
    (with_node_exit_to exit_data (fun _ => None))
  = CreateExitSignInfoList exit_node exit_way exit_data.
Proof.
  apply (CreateExitSignInfoList_ignores_exit_to exit_node exit_way exit_data
           false (fun _ => None)).
  vm_compute. reflexivity.
Defined.

(** X23: the list holds at most one exit number sign, and it is the first
    sign: the junction ref of the way when the way has one, else the ref
    of the node when the node is flagged, else there is none; the ref of
    the node is never used beside the junction ref of the way. *)
Theorem CreateExitSignInfoList_number (node : NodeTags) (way : WayTags)
    (osmdata : OSMData) (exit_list : list SignInfo) :
  CreateExitSignInfoList node way osmdata = Some exit_list ->
  exists rest,
    Forall not_number rest /\
    ((junction_ref_index way <> 0 /\
      exit_list = mkSignInfo kExitNumber
                    (ref_offset_map osmdata (junction_ref_index way)) :: rest) \/
     (junction_ref_index way = 0 /\ ref node = true /\
      exists r, node_ref osmdata (n_osmid node) = Some r /\
                exit_list = mkSignInfo kExitNumber r :: rest) \/
     (junction_ref_index way = 0 /\ ref node = false /\ exit_list = rest)).
Proof.
  rewrite CreateExitSignInfoList_parts. intros H.
  destruct (number_signs node way osmdata) as [number|] eqn:Hnumber;
    cbn [mbind option_bind] in H; [|discriminate].
  destruct (exit_to_part node way osmdata) as [exits|] eqn:Hexits;
    cbn [mbind option_bind] in H; [|discriminate].
  destruct (name_signs node osmdata) as [names|] eqn:Hnames;
    cbn [mbind option_bind] in H; [|discriminate].
  injection H as <-.
  assert (Hweak : forall s, branch_or_toward s -> not_number s).
  { intros s [Hs|Hs]; unfold not_number; rewrite Hs; discriminate. }
  exists (destination_signs way osmdata ++ exits ++ names)%list. split.
  - apply Forall_app_2; [|apply Forall_app_2].
    + eapply Forall_impl; [apply destination_kinds | exact Hweak].
    + unfold exit_to_part in Hexits.
      destruct (has_destination way); [injection Hexits as <-; constructor|].
      destruct (exit_to node); [|injection Hexits as <-; constructor].
      destruct (node_exit_to osmdata (n_osmid node)) as [tag|];
        cbn [mbind option_bind] in Hexits; [|discriminate].
      destruct (exit_to_loop_kinds (Tag.GetTagTokens tag ";") [])
        as (signs & Hloop & Hk).
      rewrite Hloop in Hexits. injection Hexits as <-.
      eapply Forall_impl; [exact Hk | exact Hweak].
    + unfold name_signs in Hnames.
      destruct (name node); [|injection Hnames as <-; constructor].
      destruct (node_name osmdata (n_osmid node)) as [tag|];
        cbn [mbind option_bind] in Hnames; [|discriminate].
      injection Hnames as <-. apply tokens_kind. intros text. discriminate.
  - unfold number_signs in Hnumber.
    destruct (Z.eqb_spec (junction_ref_index way) 0) as [Hj|Hj];
      cbn [negb] in Hnumber.
    + right. destruct (ref node).
      * destruct (node_ref osmdata (n_osmid node)) as [r|];
          cbn [mbind option_bind] in Hnumber; [|discriminate].
        injection Hnumber as <-. left. repeat split; auto. exists r. auto.
      * injection Hnumber as <-. right. auto.
    + injection Hnumber as <-. left. auto.
Qed.

Lemma CreateExitSignInfoList_number_witness :
  exists rest,
    Forall not_number rest /\
    ((junction_ref_index exit_way <> 0 /\
      [mkSignInfo kExitNumber "51A"; mkSignInfo kExitToward "Harrisburg";
       mkSignInfo kExitToward "Carlisle"]
      = mkSignInfo kExitNumber
          (ref_offset_map exit_data (junction_ref_index exit_way)) :: rest) \/
     (junction_ref_index exit_way = 0 /\ ref exit_node = true /\
      exists r, node_ref exit_data (n_osmid exit_node) = Some r /\
                [mkSignInfo kExitNumber "51A"; mkSignInfo kExitToward "Harrisburg";
                 mkSignInfo kExitToward "Carlisle"]
                = mkSignInfo kExitNumber r :: rest) \/
     (junction_ref_index exit_way = 0 /\ ref exit_node = false /\
      [mkSignInfo kExitNumber "51A"; mkSignInfo kExitToward "Harrisburg";
       mkSignInfo kExitToward "Carlisle"] = rest)).
Proof.
  apply (CreateExitSignInfoList_number exit_node exit_way exit_data).
  vm_compute. reflexivity.
Defined.

(** X24: the function has a result unless a map entry it needs is
    missing: the node is flagged [ref] without an entry in [node_ref] and
    the way has no junction ref, or flagged [exit_to] without an entry
    in [node_exit_to] and the way has no destination tag, or flagged
    [name] without an entry in [node_name].  No token of an [exit_to]
    tag makes it fail. *)
Theorem CreateExitSignInfoList_fails (node : NodeTags) (way : WayTags)
    (osmdata : OSMData) :
  CreateExitSignInfoList node way osmdata = None <->
  missing_entry node way osmdata.
Proof.
  rewrite CreateExitSignInfoList_parts. unfold missing_entry.
  rewrite <- number_signs_none, <- exit_to_part_none, <- name_signs_none.
  destruct (number_signs node way osmdata);
    destruct (exit_to_part node way osmdata);
    destruct (name_signs node osmdata);
    cbn [mbind option_bind];
    (split; [intros H; try discriminate; auto
            |intros [H|[H|H]]; try discriminate; reflexivity]).
Qed.
End SignProofs.

(** ** The node loop of BuildTileSet *)

Section TileNodesFacts.
Variable tile : Type.
Variable add_node : nat -> node_bundle -> tile -> tile + string.
Variable nodes : list Node.
Variable edges : list Edge.

(** X25: the loop over the nodes of a tile never moves its iterator, so
    when it starts at a node (anywhere but the end of the sequence) it is
    never left through its condition, however many rounds it runs: it is
    still running, or a round has thrown, or it has read past the end.
    When the edges of the node can be collected and the round does not
    throw, it is still running after any number of rounds. *)
Theorem node_loop_never_finishes (rounds node_itr : nat) (t : tile) :
  node_itr <> length nodes ->
  ~ finished (node_loop tile add_node nodes edges rounds node_itr t) /\
  ((exists bundle,
      collect_node_edges node_itr nodes edges = Some bundle /\
      forall t', exists t'', add_node node_itr bundle t' = inl t'') ->
   still_running (node_loop tile add_node nodes edges rounds node_itr t)).
Proof.
  intros Hne. apply Nat.eqb_neq in Hne.
  revert t. induction rounds as [|rounds IH]; intros t; cbn [node_loop].
  - split; [intros []|]. intros _. exact I.
  - rewrite Hne.
    destruct (collect_node_edges node_itr nodes edges) as [bundle|].
    + destruct (add_node node_itr bundle t) as [t'|what] eqn:Hadd.
      * split; [apply IH|]. intros Hex. apply IH, Hex.
      * split; [intros []|]. intros (bundle' & Hb & Hok).
        injection Hb as <-. destruct (Hok t) as (t'' & Ht''). congruence.
    + split; [intros []|]. intros (bundle' & Hb & _). discriminate.
Qed.
End TileNodesFacts.

Lemma node_loop_never_finishes_witness :
  ~ finished (node_loop nat (fun _ bundle t => inl (t + length (b_edges bundle))%nat)
                Crossing.nodes Crossing.edges 1000%nat 0%nat 0%nat) /\
  ((exists bundle,
      collect_node_edges 0%nat Crossing.nodes Crossing.edges = Some bundle /\
      forall t' : nat, exists t'' : nat,
        @inl nat string (t' + length (b_edges bundle))%nat = inl t'') ->
   still_running (node_loop nat (fun _ bundle t => inl (t + length (b_edges bundle))%nat)
                    Crossing.nodes Crossing.edges 1000%nat 0%nat 0%nat)).
Proof.
  apply (node_loop_never_finishes nat
           (fun _ bundle t => inl (t + length (b_edges bundle))%nat)
           Crossing.nodes Crossing.edges 1000%nat 0%nat 0%nat).
  vm_compute. discriminate.
Defined.
